(** * nano-socket: envelope codec, rooms, broadcast, middleware gate and
      the client reconnection machine, embedded and verified.

    The development follows the TypeScript sources:
    - [utils]   : [generateId], [serializeMessage], [deserializeMessage],
                  [isValidEventName];
    - [NanoSocketConnection] and [NanoSocket] : the server side;
    - [NanoSocketClient] : the client state machine.

    It has three parts: the embedding of the sources, the vocabulary of the
    statements, and the theorems.

    Modelling conventions.
    - A JS string is a [string]; every character stands for one UTF-16 code
      unit below 256.
    - A JS value that [JSON.stringify] can print is a [JSON.value]; numbers are
      the integers ([Z]), printed in decimal digits as JS prints the integers
      it holds exactly; numerals with a fraction or an exponent are outside
      the modelled fragment and rejected by [JSON.parse].  The members of an
      object keep the order in which they were written.
    - [Map] and [Set] iterate in insertion order, and the fan-out loops of the
      server leave at the first exception, so a [Map] and a [Set] are lists
      without duplicate keys, handled through the operations of [JSMap] and
      [JSSet].
    - Objects that are shared and mutated (connections, sockets) live in a
      heap and are referred to by address.
    - A thrown exception is the [Throw] outcome of the state-and-exception
      monad [M]; state changes made before the throw are kept, as in JS.
    - [EventEmitter.emit] appends the notification to a log, which is a ghost
      record of what was notified; emitting ['error'] on an emitter without an
      ['error'] listener throws the error, as Node's emitter does.  Listeners
      do not call back into the object while they are being dispatched.
    - [Date.now()], [Math.random()] and what the peer or the transport does
      are inputs: a clock and a supply of ids in the state, and stimuli. *)

From Stdlib Require Import ZArith List String Ascii Bool Lia Decimal.
From Stdlib Require Import DecimalFacts DecimalPos DecimalN DecimalZ.
Import ListNotations.

Set Warnings "-register-all".

Local Open Scope list_scope.
Local Open Scope string_scope.

(** ** Characters that cannot be written inside a string literal *)

Definition dquote : ascii := "034"%char.
Definition backslash : ascii := "092"%char.
Definition nul : ascii := "000"%char.

(** [js] turns every apostrophe of a literal into a double quote, so that JSON
    texts can be written legibly in examples. *)
Fixpoint js (s : string) : string :=
  match s with
  | EmptyString => EmptyString
  | String c r => String (if Ascii.eqb c "'" then dquote else c) (js r)
  end.

(** ** Exceptions and outcomes *)

Inductive exn : Type :=
| Error (msg : string)            (* new Error(msg) *)
| SyntaxError                     (* thrown by JSON.parse *)
| TypeError                       (* property read on null *)
| Wrapped (prefix : string) (cause : exn).  (* new Error(`${prefix}${cause}`) *)

Inductive result (A : Type) : Type :=
| Ok (a : A)
| Throw (e : exn).
Arguments Ok {A} a.
Arguments Throw {A} e.

(** ** JSON values, [JSON.stringify] and [JSON.parse] *)

Module JSON.

Inductive value : Type :=
| JNull
| JBool (b : bool)
| JNum (z : Z)
| JStr (s : string)
| JArr (l : list value)
| JObj (m : list (string * value)).

(** Property read [o.k] and property write [o.k = v] on a plain object: a
    write to an existing key keeps the key's position, a write to a new key
    appends it. *)
Fixpoint obj_get (m : list (string * value)) (k : string) : option value :=
  match m with
  | [] => None
  | (k', v) :: m' => if String.eqb k' k then Some v else obj_get m' k
  end.

Fixpoint obj_set (m : list (string * value)) (k : string) (v : value)
  : list (string * value) :=
  match m with
  | [] => [(k, v)]
  | (k', v') :: m' =>
      if String.eqb k' k then (k', v) :: m' else (k', v') :: obj_set m' k v
  end.

(** *** Printing *)

Definition hex_digit (n : N) : ascii :=
  match n with
  | 0 => "0" | 1 => "1" | 2 => "2" | 3 => "3" | 4 => "4" | 5 => "5"
  | 6 => "6" | 7 => "7" | 8 => "8" | 9 => "9" | 10 => "a" | 11 => "b"
  | 12 => "c" | 13 => "d" | 14 => "e" | _ => "f"
  end%N%char.

(** QuoteJSONString, one code unit. *)
Definition quote_char (c : ascii) : string :=
  let n := N_of_ascii c in
  if Ascii.eqb c dquote then String backslash (String dquote EmptyString)
  else if Ascii.eqb c backslash then String backslash (String backslash EmptyString)
  else if (n =? 8)%N then String backslash "b"
  else if (n =? 9)%N then String backslash "t"
  else if (n =? 10)%N then String backslash "n"
  else if (n =? 12)%N then String backslash "f"
  else if (n =? 13)%N then String backslash "r"
  else if (n <? 32)%N then
    String backslash
      (String "u" (String "0" (String "0"
        (String (hex_digit (n / 16)) (String (hex_digit (n mod 16)) EmptyString)))))
  else String c EmptyString.

Fixpoint quote_chars (s : string) : string :=
  match s with
  | EmptyString => EmptyString
  | String c r => quote_char c ++ quote_chars r
  end.

Definition quote (s : string) : string :=
  String dquote (quote_chars s ++ String dquote EmptyString).

Fixpoint print_uint (u : uint) : string :=
  match u with
  | Nil => EmptyString
  | D0 u => String "0" (print_uint u)
  | D1 u => String "1" (print_uint u)
  | D2 u => String "2" (print_uint u)
  | D3 u => String "3" (print_uint u)
  | D4 u => String "4" (print_uint u)
  | D5 u => String "5" (print_uint u)
  | D6 u => String "6" (print_uint u)
  | D7 u => String "7" (print_uint u)
  | D8 u => String "8" (print_uint u)
  | D9 u => String "9" (print_uint u)
  end.

Definition print_int (z : Z) : string :=
  match Z.to_int z with
  | Pos u => print_uint u
  | Neg u => String "-" (print_uint u)
  end.

Fixpoint stringify (v : value) : string :=
  match v with
  | JNull => "null"
  | JBool true => "true"
  | JBool false => "false"
  | JNum z => print_int z
  | JStr s => quote s
  | JArr l =>
      let fix elements (l : list value) : string :=
        match l with
        | [] => EmptyString
        | [v] => stringify v
        | v :: l' => stringify v ++ String "," (elements l')
        end in
      String "[" (elements l ++ "]")
  | JObj m =>
      let fix members (m : list (string * value)) : string :=
        match m with
        | [] => EmptyString
        | [(k, v)] => quote k ++ String ":" (stringify v)
        | (k, v) :: m' => quote k ++ String ":" (stringify v) ++ String "," (members m')
        end in
      String "{" (members m ++ "}")
  end.

(** *** Parsing *)

Definition is_ws (c : ascii) : bool :=
  let n := N_of_ascii c in
  ((n =? 32) || (n =? 9) || (n =? 10) || (n =? 13))%N.

Fixpoint skip_ws (s : string) : string :=
  match s with
  | String c r => if is_ws c then skip_ws r else s
  | EmptyString => s
  end.

Definition hex_val (c : ascii) : option N :=
  let n := N_of_ascii c in
  if ((48 <=? n) && (n <=? 57))%N then Some (n - 48)%N
  else if ((97 <=? n) && (n <=? 102))%N then Some (n - 87)%N
  else if ((65 <=? n) && (n <=? 70))%N then Some (n - 55)%N
  else None.

Definition unicode_escape (h1 h2 h3 h4 : ascii) : option ascii :=
  match hex_val h1, hex_val h2, hex_val h3, hex_val h4 with
  | Some a, Some b, Some c, Some d =>
      let code := (((a * 16 + b) * 16 + c) * 16 + d)%N in
      if (code <? 256)%N then Some (ascii_of_N code) else None
  | _, _, _, _ => None
  end.

Definition simple_escape (c : ascii) : option ascii :=
  if Ascii.eqb c dquote then Some dquote
  else if Ascii.eqb c backslash then Some backslash
  else if Ascii.eqb c "/" then Some "/"%char
  else if Ascii.eqb c "b" then Some "008"%char
  else if Ascii.eqb c "f" then Some "012"%char
  else if Ascii.eqb c "n" then Some "010"%char
  else if Ascii.eqb c "r" then Some "013"%char
  else if Ascii.eqb c "t" then Some "009"%char
  else None.

(** The characters of a string literal, after its opening quote. *)
Fixpoint parse_chars (s : string) : option (string * string) :=
  match s with
  | EmptyString => None
  | String c r =>
      if Ascii.eqb c dquote then Some (EmptyString, r)
      else if Ascii.eqb c backslash then
        match r with
        | String e r' =>
            if Ascii.eqb e "u" then
              match r' with
              | String h1 (String h2 (String h3 (String h4 r''))) =>
                  match unicode_escape h1 h2 h3 h4, parse_chars r'' with
                  | Some x, Some (t, rest) => Some (String x t, rest)
                  | _, _ => None
                  end
              | _ => None
              end
            else
              match simple_escape e, parse_chars r' with
              | Some x, Some (t, rest) => Some (String x t, rest)
              | _, _ => None
              end
        | EmptyString => None
        end
      else if (N_of_ascii c <? 32)%N then None
      else
        match parse_chars r with
        | Some (t, rest) => Some (String c t, rest)
        | None => None
        end
  end.

Definition digit_of (c : ascii) : option (uint -> uint) :=
  match N_of_ascii c with
  | 48 => Some D0 | 49 => Some D1 | 50 => Some D2 | 51 => Some D3
  | 52 => Some D4 | 53 => Some D5 | 54 => Some D6 | 55 => Some D7
  | 56 => Some D8 | 57 => Some D9 | _ => None
  end%N.

Fixpoint read_digits (s : string) : uint * string :=
  match s with
  | EmptyString => (Nil, s)
  | String c r =>
      match digit_of c with
      | Some d => let (u, rest) := read_digits r in (d u, rest)
      | None => (Nil, s)
      end
  end.

(** The integer part of a numeral: a single 0, or a non-zero digit and the
    digits after it. *)
Definition parse_digits (s : string) : option (uint * string) :=
  match s with
  | EmptyString => None
  | String c r =>
      if Ascii.eqb c "0" then Some (D0 Nil, r)
      else match digit_of c with
           | Some _ => Some (read_digits s)
           | None => None
           end
  end.

(** A fraction or an exponent follows: outside the modelled fragment. *)
Definition continues_numeral (s : string) : bool :=
  match s with
  | String c _ => Ascii.eqb c "." || Ascii.eqb c "e" || Ascii.eqb c "E"
  | EmptyString => false
  end.

Definition parse_int (s : string) : option (Z * string) :=
  match s with
  | EmptyString => None
  | String c r =>
      let '(neg, s') := if Ascii.eqb c "-" then (true, r) else (false, s) in
      match parse_digits s' with
      | Some (u, rest) =>
          if continues_numeral rest then None
          else Some (Z.of_int (if neg then Neg u else Pos u), rest)
      | None => None
      end
  end.

Fixpoint strip_prefix (p s : string) : option string :=
  match p, s with
  | EmptyString, _ => Some s
  | String a p', String b s' => if Ascii.eqb a b then strip_prefix p' s' else None
  | String _ _, EmptyString => None
  end.

(** Members are collected in document order; a repeated key overwrites the
    earlier value, as the object under construction is written key by key. *)
Definition object_of (raw : list (string * value)) : value :=
  JObj (fold_left (fun o kv => obj_set o (fst kv) (snd kv)) raw []).

Fixpoint parse_value (fuel : nat) (s : string) : option (value * string) :=
  match fuel with
  | O => None
  | S fuel =>
      match skip_ws s with
      | EmptyString => None
      | String c r =>
          if Ascii.eqb c "n" then
            option_map (fun r' => (JNull, r')) (strip_prefix "ull" r)
          else if Ascii.eqb c "t" then
            option_map (fun r' => (JBool true, r')) (strip_prefix "rue" r)
          else if Ascii.eqb c "f" then
            option_map (fun r' => (JBool false, r')) (strip_prefix "alse" r)
          else if Ascii.eqb c dquote then
            option_map (fun '(t, r') => (JStr t, r')) (parse_chars r)
          else if Ascii.eqb c "[" then
            match skip_ws r with
            | String c' r' =>
                if Ascii.eqb c' "]" then Some (JArr [], r')
                else option_map (fun '(l, r'') => (JArr l, r'')) (parse_elements fuel r)
            | EmptyString => None
            end
          else if Ascii.eqb c "{" then
            match skip_ws r with
            | String c' r' =>
                if Ascii.eqb c' "}" then Some (JObj [], r')
                else option_map (fun '(m, r'') => (object_of m, r'')) (parse_members fuel r)
            | EmptyString => None
            end
          else
            option_map (fun '(z, r') => (JNum z, r')) (parse_int (String c r))
      end
  end
with parse_elements (fuel : nat) (s : string) : option (list value * string) :=
  match fuel with
  | O => None
  | S fuel =>
      match parse_value fuel s with
      | Some (v, r) =>
          match skip_ws r with
          | String c r' =>
              if Ascii.eqb c "," then
                option_map (fun '(l, r'') => (v :: l, r'')) (parse_elements fuel r')
              else if Ascii.eqb c "]" then Some ([v], r')
              else None
          | EmptyString => None
          end
      | None => None
      end
  end
with parse_members (fuel : nat) (s : string)
  : option (list (string * value) * string) :=
  match fuel with
  | O => None
  | S fuel =>
      match skip_ws s with
      | String q r =>
          if Ascii.eqb q dquote then
            match parse_chars r with
            | Some (k, r1) =>
                match skip_ws r1 with
                | String colon r2 =>
                    if Ascii.eqb colon ":" then
                      match parse_value fuel r2 with
                      | Some (v, r3) =>
                          match skip_ws r3 with
                          | String c r4 =>
                              if Ascii.eqb c "," then
                                option_map (fun '(m, r5) => ((k, v) :: m, r5))
                                           (parse_members fuel r4)
                              else if Ascii.eqb c "}" then Some ([(k, v)], r4)
                              else None
                          | EmptyString => None
                          end
                      | None => None
                      end
                    else None
                | EmptyString => None
                end
            | None => None
            end
          else None
      | EmptyString => None
      end
  end.

(** [JSON.parse]: one value, then nothing but white space. *)
Definition parse (s : string) : option value :=
  match parse_value (S (String.length s)) s with
  | Some (v, r) =>
      match skip_ws r with
      | EmptyString => Some v
      | String _ _ => None
      end
  | None => None
  end.

(** ToBoolean on a parsed value ([None] is [undefined]). *)
Definition truthy (v : option value) : bool :=
  match v with
  | None => false
  | Some JNull => false
  | Some (JBool b) => b
  | Some (JNum z) => negb (z =? 0)%Z
  | Some (JStr s) => negb (String.eqb s EmptyString)
  | Some (JArr _) => true
  | Some (JObj _) => true
  end.

End JSON.

Import JSON.

(** ** utils *)

Definition startsWith (s p : string) : bool := String.prefix p s.

Fixpoint includes (s p : string) : bool :=
  String.prefix p s ||
  match s with
  | EmptyString => false
  | String _ r => includes r p
  end.

Definition reservedEvents : list string :=
  ["connect"; "disconnect"; "error"; "connecting"; "reconnecting"; "reconnect_failed"].

Definition list_includes (l : list string) (x : string) : bool :=
  existsb (String.eqb x) l.

(** [isValidEventName]; the argument is a string by its type. *)
Definition isValidEventName (event : string) : bool :=
  if (String.length event =? 0)%nat then false
  else if startsWith event "$" || includes event (String nul EmptyString) then false
  else negb (list_includes reservedEvents event).

(** The [Message] interface.  [data] is [any]; [None] is [undefined], a member
    that [JSON.stringify] leaves out.  After [JSON.parse] the members [id] and
    [timestamp] hold whatever the peer sent, so they are values too. *)
Record Message : Type := mkMessage {
  event : string;
  data : option value;
  id : option value;
  timestamp : option value
}.

Definition member (k : string) (v : option value) : list (string * value) :=
  match v with
  | Some x => [(k, x)]
  | None => []
  end.

(** The object literal [{ event, data, id, timestamp }]. *)
Definition toObject (m : Message) : value :=
  JObj ((("event", JStr (event m)) :: member "data" (data m))
          ++ member "id" (id m) ++ member "timestamp" (timestamp m))%list.

(** [serializeMessage]: [JSON.stringify] does not throw on a [JSON.value], so
    the [catch] branch is not reachable in the model. *)
Definition serializeMessage (message : Message) : string :=
  stringify (toObject message).

(** Property read on an arbitrary parsed value, for the keys the codec reads:
    [null.k] throws, a primitive or an array has no such property. *)
Definition get_prop (v : value) (k : string) : result (option value) :=
  match v with
  | JNull => Throw TypeError
  | JObj m => Ok (obj_get m k)
  | _ => Ok None
  end.

(** The literal [1024 * 1024] of [deserializeMessage]. *)
Definition MAX_MESSAGE_LENGTH : Z := 1024 * 1024.

(** [parsed.data = parsed.data ? [parsed.data] : []] when [parsed.data] is not
    an array. *)
Definition normalizeData (d : option value) : list value :=
  match d with
  | Some (JArr l) => l
  | Some x => if truthy d then [x] else []
  | None => []
  end.

(** [parsed as Message]: the members the interface names. *)
Definition asMessage (ev : string) (parsed : value) (d : list value) : Message :=
  match parsed with
  | JObj m => mkMessage ev (Some (JArr d)) (obj_get m "id") (obj_get m "timestamp")
  | _ => mkMessage ev (Some (JArr d)) None None
  end.

(** The [try] block of [deserializeMessage].  The test
    [!parsed.event || typeof parsed.event !== 'string'] passes for a non-empty
    string only. *)
Definition deserializeMessage_body (data : string) : result Message :=
  if (Z.of_nat (String.length data) >? MAX_MESSAGE_LENGTH)%Z then
    Throw (Error "Message too large")
  else
    match JSON.parse data with
    | None => Throw SyntaxError
    | Some parsed =>
        match get_prop parsed "event" with
        | Throw e => Throw e
        | Ok ev =>
            match ev with
            | Some (JStr name) =>
                if negb (truthy ev) then
                  Throw (Error "Invalid message format: missing or invalid event")
                else if negb (isValidEventName name) then
                  Throw (Error ("Invalid event name: " ++ name))
                else
                  match get_prop parsed "data" with
                  | Throw e => Throw e
                  | Ok d => Ok (asMessage name parsed (normalizeData d))
                  end
            | _ => Throw (Error "Invalid message format: missing or invalid event")
            end
        end
    end.

(** [deserializeMessage]: every failure of the body is rethrown wrapped. *)
Definition deserializeMessage (data : string) : result Message :=
  match deserializeMessage_body data with
  | Ok m => Ok m
  | Throw e => Throw (Wrapped "Failed to deserialize message: " e)
  end.

(** ** [Set<string>] and [Map<string, V>], in insertion order *)

Module JSSet.
Definition t : Type := list string.
Definition empty : t := [].
Definition has (s : t) (x : string) : bool := existsb (String.eqb x) s.
Definition add (s : t) (x : string) : t := if has s x then s else (s ++ [x])%list.
Definition delete (s : t) (x : string) : t :=
  filter (fun y => negb (String.eqb y x)) s.
Definition size (s : t) : nat := List.length s.
End JSSet.

Module JSMap.
Section WithValue.
Context {V : Type}.
Definition t : Type := list (string * V).
Definition empty : t := [].
Fixpoint get (m : t) (k : string) : option V :=
  match m with
  | [] => None
  | (k', v) :: m' => if String.eqb k' k then Some v else get m' k
  end.
Definition has (m : t) (k : string) : bool :=
  match get m k with Some _ => true | None => false end.
Fixpoint set (m : t) (k : string) (v : V) : t :=
  match m with
  | [] => [(k, v)]
  | (k', v') :: m' =>
      if String.eqb k' k then (k', v) :: m' else (k', v') :: set m' k v
  end.
Definition delete (m : t) (k : string) : t :=
  filter (fun kv => negb (String.eqb (fst kv) k)) m.
Definition keys (m : t) : list string := map fst m.
Definition values (m : t) : list V := map snd m.
Definition size (m : t) : nat := List.length m.
End WithValue.
Arguments t V : clear implicits.
End JSMap.

(** ** Objects held by address

    The object at address [n] of a heap is replaced by [f] of it; an address
    that holds nothing is left alone. *)

Fixpoint update_nth {A} (n : nat) (f : A -> A) (l : list A) : list A :=
  match l, n with
  | [], _ => []
  | x :: l', O => f x :: l'
  | x :: l', S n' => x :: update_nth n' f l'
  end.

(** ** State with exceptions *)

Definition M (S A : Type) : Type := S -> S * result A.

Definition ret {S A} (a : A) : M S A := fun s => (s, Ok a).
Definition throw {S A} (e : exn) : M S A := fun s => (s, Throw e).
Definition bind {S A B} (m : M S A) (k : A -> M S B) : M S B :=
  fun s => match m s with
           | (s', Ok a) => k a s'
           | (s', Throw e) => (s', Throw e)
           end.
Definition try_catch {S A} (body : M S A) (handler : exn -> M S A) : M S A :=
  fun s => match body s with
           | (s', Ok a) => (s', Ok a)
           | (s', Throw e) => handler e s'
           end.
Definition gets {S A} (f : S -> A) : M S A := fun s => (s, Ok (f s)).
Definition modify {S} (f : S -> S) : M S unit := fun s => (f s, Ok tt).

(** A computation keeps a property of the state, however it ends. *)
Definition preserves {S A} (I : S -> Prop) (m : M S A) : Prop :=
  forall s, I s -> I (fst (m s)).

Declare Scope monad_scope.
Delimit Scope monad_scope with monad.
Notation "x <- m ;; k" := (bind m (fun x => k))
  (at level 61, m at next level, right associativity) : monad_scope.
Notation "m ;; k" := (bind m (fun _ => k))
  (at level 61, right associativity) : monad_scope.
Local Open Scope monad_scope.

(** [for (const x of xs) body(x)]: the first exception leaves the loop. *)
Fixpoint for_of {S X} (xs : list X) (body : X -> M S unit) : M S unit :=
  match xs with
  | [] => ret tt
  | x :: xs' => body x ;; for_of xs' body
  end.

(** ** EventEmitter *)

(** What a notification carries. *)
Inductive arg : Type :=
| AValue (v : value)
| AError (e : exn)
| AConnection (addr : nat).

Definition Listeners : Type := list (string * nat).

Definition listenerCount (ls : Listeners) (name : string) : nat :=
  List.length (filter (fun l => String.eqb (fst l) name) ls).

(** [EventEmitter.prototype.emit]: an ['error'] nobody listens to is thrown;
    otherwise the listeners run and the call tells whether there were any. *)
Definition EventEmitter_emit (ls : Listeners) (name : string) (args : list arg)
  : result bool :=
  if String.eqb name "error" && (listenerCount ls "error" =? 0)%nat then
    Throw (match args with
           | AError e :: _ => e
           | _ => Error "Unhandled error."
           end)
  else Ok (negb (listenerCount ls name =? 0)%nat).

(** What of a notification's arguments [JSON.stringify] can print: an error
    object prints as an empty object, a connection object refers back to the
    server and is cyclic. *)
Fixpoint values_of (args : list arg) : option (list value) :=
  match args with
  | [] => Some []
  | AValue v :: r => option_map (cons v) (values_of r)
  | AError _ :: r => option_map (cons (JObj [])) (values_of r)
  | AConnection _ :: _ => None
  end.

(** ** The transport channel of a connection (uWebSockets [WebSocket])

    The collaborator's contract: [getBufferedAmount()] reads the bytes waiting
    in the channel, [send] hands a frame over and may throw on a fatal
    transport error ([failing]), [close] closes. *)

Record Channel : Type := mkChannel {
  bufferedAmount : Z;
  sentFrames : list string;
  closed : bool;
  failing : bool
}.

Definition Channel_send (ch : Channel) (frame : string) : Channel * result unit :=
  if failing ch then (ch, Throw (Error "transport failure"))
  else (mkChannel (bufferedAmount ch) (sentFrames ch ++ [frame])%list (closed ch) (failing ch),
        Ok tt).

Definition Channel_close (ch : Channel) : Channel :=
  mkChannel (bufferedAmount ch) (sentFrames ch) true (failing ch).

(** ** Server side: [NanoSocket] and [NanoSocketConnection] *)

Module Server.

Record Connection : Type := mkConnection {
  conn_id : string;
  ws : Channel;
  conn_rooms : JSSet.t;
  eventHandlers : JSMap.t (list nat);
  conn_listeners : Listeners
}.

Record Room : Type := mkRoom {
  name : string;
  sockets : JSSet.t
}.

(** What a middleware does with its continuation: calls [next()] or
    [next(err)], throws before calling it, or never calls it. *)
Inductive MiddlewareOutcome : Type :=
| Next (err : option exn)
| Throws (e : exn)
| NeverCalls.

Definition Middleware : Type := Connection -> MiddlewareOutcome.

Record Options : Type := mkOptions {
  maxBackpressure : Z
}.

Record NanoSocket : Type := mkNanoSocket {
  connections : JSMap.t nat;      (* socket id |-> the connection object *)
  rooms : JSMap.t Room;
  middlewares : list Middleware;
  options : Options;
  listeners : Listeners
}.

Inductive LogEntry : Type :=
| ServerEmit (name : string) (args : list arg)
| ConnectionEmit (addr : nat) (name : string) (args : list arg)
| MiddlewareInvoked (index : nat) (addr : nat).   (* ghost: the i-th middleware was called *)

(** The heap of connection objects (an address is an index), the server
    object, the notifications made so far, and the sources of [Date.now()]
    and [generateId()]. *)
Record World : Type := mkWorld {
  heap : list Connection;
  server : NanoSocket;
  log : list LogEntry;
  clock : Z;
  ids : nat -> string;
  fresh : nat
}.

Definition St (A : Type) : Type := M World A.

Definition set_heap (h : list Connection) (w : World) : World :=
  mkWorld h (server w) (log w) (clock w) (ids w) (fresh w).
Definition set_server (s : NanoSocket) (w : World) : World :=
  mkWorld (heap w) s (log w) (clock w) (ids w) (fresh w).
Definition add_log (e : LogEntry) (w : World) : World :=
  mkWorld (heap w) (server w) (log w ++ [e])%list (clock w) (ids w) (fresh w).

Definition set_connections (c : JSMap.t nat) (s : NanoSocket) : NanoSocket :=
  mkNanoSocket c (rooms s) (middlewares s) (options s) (listeners s).
Definition set_rooms (r : JSMap.t Room) (s : NanoSocket) : NanoSocket :=
  mkNanoSocket (connections s) r (middlewares s) (options s) (listeners s).

Definition update_conn (a : nat) (f : Connection -> Connection) : St unit :=
  modify (fun w => set_heap (update_nth a f (heap w)) w).

Definition set_ws (ch : Channel) (c : Connection) : Connection :=
  mkConnection (conn_id c) ch (conn_rooms c) (eventHandlers c) (conn_listeners c).
Definition set_conn_rooms (r : JSSet.t) (c : Connection) : Connection :=
  mkConnection (conn_id c) (ws c) r (eventHandlers c) (conn_listeners c).
Definition set_conn_listeners (l : Listeners) (c : Connection) : Connection :=
  mkConnection (conn_id c) (ws c) (conn_rooms c) (eventHandlers c) l.
Definition set_eventHandlers (h : JSMap.t (list nat)) (c : Connection) : Connection :=
  mkConnection (conn_id c) (ws c) (conn_rooms c) h (conn_listeners c).

(** [Date.now()] and [generateId()]. *)
Definition Date_now : St Z := gets clock.
Definition generateId : St string :=
  fun w => (mkWorld (heap w) (server w) (log w) (clock w) (ids w) (S (fresh w)),
            Ok (ids w (fresh w))).

(** [new NanoSocket(options)]: [maxBackpressure: options.maxBackpressure || 64 * 1024]. *)
Definition new_NanoSocket (maxBackpressure_opt : option Z) : NanoSocket :=
  mkNanoSocket JSMap.empty JSMap.empty []
    (mkOptions (match maxBackpressure_opt with
                | Some n => if (n =? 0)%Z then 64 * 1024 else n
                | None => 64 * 1024
                end)%Z)
    [].

Definition init (maxBackpressure_opt : option Z) (now : Z) (gen : nat -> string) : World :=
  mkWorld [] (new_NanoSocket maxBackpressure_opt) [] now gen 0.

(** *** NanoSocketConnection *)

(** [super.emit(name, ...args)] on the connection at address [a]. *)
Definition Connection_super_emit (a : nat) (name : string) (args : list arg) : St bool :=
  fun w =>
    match nth_error (heap w) a with
    | Some c => (add_log (ConnectionEmit a name args) w,
                 EventEmitter_emit (conn_listeners c) name args)
    | None => (w, Throw TypeError)
    end.

(** [ws.send(data)] on the channel of the connection at [a]. *)
Definition ws_send (a : nat) (frame : string) : St unit :=
  fun w =>
    match nth_error (heap w) a with
    | Some c =>
        let (ch, r) := Channel_send (ws c) frame in
        (set_heap (update_nth a (set_ws ch) (heap w)) w, r)
    | None => (w, Throw TypeError)
    end.

Definition ws_getBufferedAmount (a : nat) : St Z :=
  fun w =>
    match nth_error (heap w) a with
    | Some c => (w, Ok (bufferedAmount (ws c)))
    | None => (w, Throw TypeError)
    end.

Definition ws_close (a : nat) : St unit :=
  update_conn a (fun c => set_ws (Channel_close (ws c)) c).

(** [send(data)]; the channel of a connection is never null. *)
Definition Connection_send (a : nat) (data : string) : St unit :=
  try_catch
    (buffered <- ws_getBufferedAmount a ;;
     if (buffered <? 64 * 1024)%Z then ws_send a data
     else (Connection_super_emit a "error" [AError (Error "Backpressure limit exceeded")] ;;
           ret tt))
    (fun error => Connection_super_emit a "error" [AError error] ;; ret tt).

(** [emit(event, ...args)] *)
Definition Connection_emit (a : nat) (event : string) (args : list value) : St bool :=
  if negb (isValidEventName event) then
    throw (Error ("Invalid event name: " ++ event))
  else
    gid <- generateId ;;
    now <- Date_now ;;
    let message := mkMessage event (Some (JArr args)) (Some (JStr gid)) (Some (JNum now)) in
    Connection_send a (serializeMessage message) ;;
    ret true.

(** [on(event, handler)] *)
Definition Connection_on (a : nat) (event : string) (handler : nat) : St unit :=
  update_conn a (fun c =>
    let hs := match JSMap.get (eventHandlers c) event with
              | Some hs => hs
              | None => []
              end in
    set_conn_listeners (conn_listeners c ++ [(event, handler)])%list
      (set_eventHandlers (JSMap.set (eventHandlers c) event (hs ++ [handler])%list) c)).

(** *** NanoSocket *)

Definition modify_server (f : NanoSocket -> NanoSocket) : St unit :=
  modify (fun w => set_server (f (server w)) w).

(** [joinRoom(socketId, roomName)] *)
Definition joinRoom (socketId roomName : string) : St unit :=
  modify_server (fun s =>
    let room := match JSMap.get (rooms s) roomName with
                | Some room => room
                | None => mkRoom roomName JSSet.empty
                end in
    set_rooms (JSMap.set (rooms s) roomName
                 (mkRoom (name room) (JSSet.add (sockets room) socketId))) s).

(** [leaveRoom(socketId, roomName)] *)
Definition leaveRoom (socketId roomName : string) : St unit :=
  modify_server (fun s =>
    match JSMap.get (rooms s) roomName with
    | Some room =>
        let room' := mkRoom (name room) (JSSet.delete (sockets room) socketId) in
        if (JSSet.size (sockets room') =? 0)%nat
        then set_rooms (JSMap.delete (rooms s) roomName) s
        else set_rooms (JSMap.set (rooms s) roomName room') s
    | None => s
    end).

(** [removeConnection(socketId)] *)
Definition removeConnection (socketId : string) : St unit :=
  modify_server (fun s =>
    let cs := JSMap.delete (connections s) socketId in
    let rs := map (fun kv => (fst kv, mkRoom (name (snd kv))
                                         (JSSet.delete (sockets (snd kv)) socketId)))
                  (rooms s) in
    let rs' := filter (fun kv => negb (JSSet.size (sockets (snd kv)) =? 0)%nat) rs in
    set_rooms rs' (set_connections cs s)).

(** NanoSocketConnection: [join(room)] *)
Definition Connection_join (a : nat) (room : string) : St unit :=
  fun w =>
    match nth_error (heap w) a with
    | Some c =>
        if negb (JSSet.has (conn_rooms c) room) then
          (update_conn a (fun c => set_conn_rooms (JSSet.add (conn_rooms c) room) c) ;;
           joinRoom (conn_id c) room ;;
           Connection_super_emit a "join" [AValue (JStr room)] ;;
           ret tt) w
        else (w, Ok tt)
    | None => (w, Throw TypeError)
    end.

(** NanoSocketConnection: [leave(room)] *)
Definition Connection_leave (a : nat) (room : string) : St unit :=
  fun w =>
    match nth_error (heap w) a with
    | Some c =>
        if JSSet.has (conn_rooms c) room then
          (update_conn a (fun c => set_conn_rooms (JSSet.delete (conn_rooms c) room) c) ;;
           leaveRoom (conn_id c) room ;;
           Connection_super_emit a "leave" [AValue (JStr room)] ;;
           ret tt) w
        else (w, Ok tt)
    | None => (w, Throw TypeError)
    end.

(** NanoSocketConnection: [disconnect()] *)
Definition Connection_disconnect (a : nat) : St unit :=
  fun w =>
    match nth_error (heap w) a with
    | Some c =>
        try_catch
          (for_of (conn_rooms c) (fun room => leaveRoom (conn_id c) room) ;;
           update_conn a (set_conn_rooms JSSet.empty) ;;
           ws_close a ;;
           Connection_super_emit a "disconnect" [] ;;
           update_conn a (set_conn_listeners []))
          (fun error => Connection_super_emit a "error" [AError error] ;; ret tt) w
    | None => (w, Throw TypeError)
    end.

(** [super.emit] of the server. *)
Definition NanoSocket_super_emit (name : string) (args : list arg) : St bool :=
  fun w => (add_log (ServerEmit name args) w,
            EventEmitter_emit (listeners (server w)) name args).

(** [broadcast(event, ...args)] *)
Definition broadcast (event : string) (args : list value) : St unit :=
  if negb (isValidEventName event) then
    throw (Error ("Invalid event name: " ++ event))
  else
    now <- Date_now ;;
    let message := mkMessage event (Some (JArr args)) None (Some (JNum now)) in
    let buffer := serializeMessage message in
    cs <- gets (fun w => JSMap.values (connections (server w))) ;;
    limit <- gets (fun w => maxBackpressure (options (server w))) ;;
    for_of cs (fun a =>
      try_catch
        (buffered <- ws_getBufferedAmount a ;;
         if (buffered <? limit)%Z then ws_send a buffer else ret tt)
        (fun error => Connection_emit a "error" [JObj []] ;; ret tt)).

(** [broadcastToRoom(roomName, event, ...args)] *)
Definition broadcastToRoom (roomName event : string) (args : list value) : St unit :=
  room <- gets (fun w => JSMap.get (rooms (server w)) roomName) ;;
  match room with
  | None => ret tt
  | Some room =>
      if (JSSet.size (sockets room) =? 0)%nat then ret tt
      else
        now <- Date_now ;;
        let message := mkMessage event (Some (JArr args)) None (Some (JNum now)) in
        let buffer := serializeMessage message in
        limit <- gets (fun w => maxBackpressure (options (server w))) ;;
        for_of (sockets room) (fun socketId =>
          connection <- gets (fun w => JSMap.get (connections (server w)) socketId) ;;
          match connection with
          | Some a =>
              try_catch
                (buffered <- ws_getBufferedAmount a ;;
                 if (buffered <? limit)%Z then ws_send a buffer else ret tt)
                (fun error => Connection_emit a "error" [JObj []] ;; ret tt)
          | None => ret tt
          end)
  end.

(** [emit(event, ...args)] of the server: ['broadcast'] fans out, every other
    name goes to the server's own listeners. *)
Definition NanoSocket_emit (event : string) (args : list arg) : St bool :=
  if String.eqb event "broadcast" then
    match args with
    | AValue (JStr ev) :: rest =>
        match values_of rest with
        | Some vs => broadcast ev vs ;; ret true
        | None =>
            if negb (isValidEventName ev) then
              throw (Error ("Invalid event name: " ++ ev))
            else throw (Wrapped "Failed to serialize message: " TypeError)
        end
    | _ => throw (Error "Invalid event name: ")
    end
  else NanoSocket_super_emit event args.

(** [use(middleware)] *)
Definition use (middleware : Middleware) : St unit :=
  modify_server (fun s =>
    mkNanoSocket (connections s) (rooms s) (middlewares s ++ [middleware])%list
                 (options s) (listeners s)).

(** [on(event, handler)] of the server. *)
Definition NanoSocket_on (event : string) (handler : nat) : St unit :=
  modify_server (fun s =>
    mkNanoSocket (connections s) (rooms s) (middlewares s) (options s)
                 (listeners s ++ [(event, handler)])%list).

(** An [async] function has finished, or waits on a promise nobody settles. *)
Inductive Completion : Type := Finished | Pending.

(** [runMiddlewares(socket)]: each middleware is awaited in turn; a rejection
    leaves the loop.  Every call of a middleware is noted in the log. *)
Fixpoint runMiddlewares_loop (i : nat) (ms : list Middleware) (a : nat) : St Completion :=
  match ms with
  | [] => ret Finished
  | middleware :: ms' =>
      fun w =>
        match nth_error (heap w) a with
        | Some socket =>
            let w := add_log (MiddlewareInvoked i a) w in
            match middleware socket with
            | Next None => runMiddlewares_loop (S i) ms' a w
            | Next (Some err) => (w, Throw err)
            | Throws e => (w, Throw e)
            | NeverCalls => (w, Ok Pending)
            end
        | None => (w, Throw TypeError)
        end
  end.

Definition runMiddlewares (a : nat) : St Completion :=
  ms <- gets (fun w => middlewares (server w)) ;;
  runMiddlewares_loop 0 ms a.

(** [handleConnection(ws)]; the result is the address of the new connection
    object. *)
Definition handleConnection (channel : Channel) : St (nat * Completion) :=
  socketId <- generateId ;;
  a <- gets (fun w => List.length (heap w)) ;;
  modify (fun w => set_heap (heap w ++ [mkConnection socketId channel JSSet.empty
                                                     JSMap.empty []])%list w) ;;
  modify_server (fun s => set_connections (JSMap.set (connections s) socketId a) s) ;;
  try_catch
    (done <- runMiddlewares a ;;
     match done with
     | Finished => NanoSocket_emit "connection" [AConnection a] ;; ret (a, Finished)
     | Pending => ret (a, Pending)
     end)
    (fun error =>
       Connection_disconnect a ;;
       NanoSocket_emit "error" [AError error] ;;
       ret (a, Finished)).

(** [handleDisconnection(ws, code, message)]: the channel carries its socket
    id in its user data. *)
Definition handleDisconnection (socketId : string) (code : Z) : St unit :=
  connection <- gets (fun w => JSMap.get (connections (server w)) socketId) ;;
  match connection with
  | Some a =>
      c <- gets (fun w => nth_error (heap w) a) ;;
      match c with
      | Some c =>
          removeConnection (conn_id c) ;;
          NanoSocket_emit "disconnect" [AConnection a; AValue (JNum code)] ;;
          ret tt
      | None => throw TypeError
      end
  | None => ret tt
  end.

(** [close()] *)
Definition close : St unit :=
  cs <- gets (fun w => JSMap.values (connections (server w))) ;;
  for_of cs Connection_disconnect ;;
  modify_server (fun s => set_rooms JSMap.empty (set_connections JSMap.empty s)) ;;
  NanoSocket_emit "close" [] ;;
  ret tt.

End Server.

(** ** Client side: [NanoSocketClient] *)

Module Client.

Inductive ConnectionState : Type :=
| DISCONNECTED | CONNECTING | CONNECTED | RECONNECTING.

Definition ConnectionState_eqb (x y : ConnectionState) : bool :=
  match x, y with
  | DISCONNECTED, DISCONNECTED | CONNECTING, CONNECTING
  | CONNECTED, CONNECTED | RECONNECTING, RECONNECTING => true
  | _, _ => false
  end.

(** [ClientOptions] as given to the constructor, and as kept ([Required]). *)
Record ClientOptions : Type := mkClientOptions {
  opt_autoConnect : option bool;
  opt_reconnection : option bool;
  opt_reconnectionAttempts : option Z;
  opt_reconnectionDelay : option Z;
  opt_timeout : option Z
}.

Record Options : Type := mkOptions {
  autoConnect : bool;
  reconnection : bool;
  reconnectionAttempts : Z;
  reconnectionDelay : Z;
  timeout : Z
}.

(** [x || d] on an optional number. *)
Definition or_default (x : option Z) (d : Z) : Z :=
  match x with
  | Some n => if (n =? 0)%Z then d else n
  | None => d
  end.

(** [x !== false] on an optional boolean. *)
Definition not_false (x : option bool) : bool :=
  match x with
  | Some false => false
  | _ => true
  end.

(** The [ws] library's socket, with the promise and the timeout timer of the
    [connect()] call that made it. *)
Inductive ReadyState : Type := WS_CONNECTING | WS_OPEN | WS_CLOSING | WS_CLOSED.

Inductive PromiseState : Type := Unsettled | Resolved | Rejected (e : exn).

Record WebSocket : Type := mkWebSocket {
  readyState : ReadyState;
  sent : list string;
  handlers : bool;                 (* onopen, onmessage, onclose, onerror are set *)
  closeCalls : list (option Z);    (* close() and close(code, reason) calls *)
  timeoutTimer : nat;
  promise : PromiseState;
  onRejected : bool                (* the reconnection's .catch is attached *)
}.

Inductive TimerKind : Type :=
| ConnectTimeout               (* the timeout of a connect() call *)
| ReconnectTimer.              (* the backoff of attemptReconnection() *)

Record Timer : Type := mkTimer {
  tid : nat;
  delay : Z;
  kind : TimerKind
}.

Record NanoSocketClient : Type := mkClient {
  ws : option nat;
  options : Options;
  state : ConnectionState;
  reconnectTimer : option nat;
  reconnectAttempts : Z;
  messageQueue : list string;
  listeners : Listeners
}.

Record World : Type := mkWorld {
  client : NanoSocketClient;
  sockets : list WebSocket;        (* every transport connection created *)
  timers : list Timer;             (* pending timers *)
  nextTimer : nat;
  log : list (string * list arg);  (* notifications, in order *)
  urlValid : bool;                 (* new WebSocket(url) does not throw *)
  clock : Z;
  ids : nat -> string;
  fresh : nat
}.

Definition St (A : Type) : Type := M World A.

Definition set_client (c : NanoSocketClient) (w : World) : World :=
  mkWorld c (sockets w) (timers w) (nextTimer w) (log w) (urlValid w)
          (clock w) (ids w) (fresh w).
Definition set_sockets (s : list WebSocket) (w : World) : World :=
  mkWorld (client w) s (timers w) (nextTimer w) (log w) (urlValid w)
          (clock w) (ids w) (fresh w).
Definition set_timers (t : list Timer) (w : World) : World :=
  mkWorld (client w) (sockets w) t (nextTimer w) (log w) (urlValid w)
          (clock w) (ids w) (fresh w).
Definition add_log (e : string * list arg) (w : World) : World :=
  mkWorld (client w) (sockets w) (timers w) (nextTimer w) (log w ++ [e])%list
          (urlValid w) (clock w) (ids w) (fresh w).

Definition modify_client (f : NanoSocketClient -> NanoSocketClient) : St unit :=
  modify (fun w => set_client (f (client w)) w).

Definition set_ws (x : option nat) (c : NanoSocketClient) : NanoSocketClient :=
  mkClient x (options c) (state c) (reconnectTimer c) (reconnectAttempts c)
           (messageQueue c) (listeners c).
Definition set_options (o : Options) (c : NanoSocketClient) : NanoSocketClient :=
  mkClient (ws c) o (state c) (reconnectTimer c) (reconnectAttempts c)
           (messageQueue c) (listeners c).
Definition set_state (x : ConnectionState) (c : NanoSocketClient) : NanoSocketClient :=
  mkClient (ws c) (options c) x (reconnectTimer c) (reconnectAttempts c)
           (messageQueue c) (listeners c).
Definition set_reconnectTimer (x : option nat) (c : NanoSocketClient) : NanoSocketClient :=
  mkClient (ws c) (options c) (state c) x (reconnectAttempts c)
           (messageQueue c) (listeners c).
Definition set_reconnectAttempts (x : Z) (c : NanoSocketClient) : NanoSocketClient :=
  mkClient (ws c) (options c) (state c) (reconnectTimer c) x
           (messageQueue c) (listeners c).
Definition set_messageQueue (q : list string) (c : NanoSocketClient) : NanoSocketClient :=
  mkClient (ws c) (options c) (state c) (reconnectTimer c) (reconnectAttempts c)
           q (listeners c).
Definition set_listeners (l : Listeners) (c : NanoSocketClient) : NanoSocketClient :=
  mkClient (ws c) (options c) (state c) (reconnectTimer c) (reconnectAttempts c)
           (messageQueue c) l.

Definition update_socket (k : nat) (f : WebSocket -> WebSocket) : St unit :=
  modify (fun w => set_sockets (update_nth k f (sockets w)) w).

Definition Date_now : St Z := gets clock.
Definition generateId : St string :=
  fun w => (mkWorld (client w) (sockets w) (timers w) (nextTimer w) (log w)
                    (urlValid w) (clock w) (ids w) (S (fresh w)),
            Ok (ids w (fresh w))).

(** [setTimeout] and [clearTimeout] *)
Definition setTimeout (k : TimerKind) (ms : Z) : St nat :=
  fun w =>
    let t := nextTimer w in
    (mkWorld (client w) (sockets w) (timers w ++ [mkTimer t ms k])%list (S t)
             (log w) (urlValid w) (clock w) (ids w) (fresh w),
     Ok t).

Definition clearTimeout (t : nat) : St unit :=
  modify (fun w => set_timers (filter (fun x => negb (tid x =? t)%nat) (timers w)) w).

(** [ws.send(data)] of the [ws] library: it throws while the socket is still
    connecting and hands the frame over when the socket is open; on a closing
    or closed socket the frame is discarded. *)
Definition WebSocket_send (k : nat) (data : string) : St unit :=
  fun w =>
    match nth_error (sockets w) k with
    | Some s =>
        match readyState s with
        | WS_CONNECTING =>
            (w, Throw (Error "WebSocket is not open: readyState 0 (CONNECTING)"))
        | WS_OPEN =>
            (set_sockets
               (update_nth k
                  (fun s => mkWebSocket (readyState s) (sent s ++ [data])%list (handlers s)
                                        (closeCalls s) (timeoutTimer s) (promise s)
                                        (onRejected s))
                  (sockets w)) w,
             Ok tt)
        | _ => (w, Ok tt)
        end
    | None => (w, Throw TypeError)
    end.

Definition WebSocket_close (k : nat) (code : option Z) : St unit :=
  update_socket k (fun s =>
    mkWebSocket (match readyState s with WS_CLOSED => WS_CLOSED | _ => WS_CLOSING end)
                (sent s) (handlers s) (closeCalls s ++ [code])%list
                (timeoutTimer s) (promise s) (onRejected s)).

Definition set_readyState (r : ReadyState) (s : WebSocket) : WebSocket :=
  mkWebSocket r (sent s) (handlers s) (closeCalls s) (timeoutTimer s) (promise s)
              (onRejected s).
Definition set_handlers (h : bool) (s : WebSocket) : WebSocket :=
  mkWebSocket (readyState s) (sent s) h (closeCalls s) (timeoutTimer s) (promise s)
              (onRejected s).
Definition set_promise (p : PromiseState) (s : WebSocket) : WebSocket :=
  mkWebSocket (readyState s) (sent s) (handlers s) (closeCalls s) (timeoutTimer s) p
              (onRejected s).
Definition set_onRejected (b : bool) (s : WebSocket) : WebSocket :=
  mkWebSocket (readyState s) (sent s) (handlers s) (closeCalls s) (timeoutTimer s)
              (promise s) b.

(** [super.emit(event, ...args)] *)
Definition super_emit (event : string) (args : list arg) : St bool :=
  fun w => (add_log (event, args) w,
            EventEmitter_emit (listeners (client w)) event args).

(** [emit(event, ...args)] *)
Definition emit (event : string) (args : list arg) : St bool :=
  if String.eqb event "connect" || String.eqb event "disconnect"
     || String.eqb event "error" || String.eqb event "connecting"
     || String.eqb event "reconnecting" then
    super_emit event args
  else if negb (isValidEventName event) then
    throw (Error ("Invalid event name: " ++ event))
  else
    gid <- generateId ;;
    now <- Date_now ;;
    match values_of args with
    | None => throw (Wrapped "Failed to serialize message: " TypeError)
    | Some vs =>
        let message := mkMessage event (Some (JArr vs)) (Some (JStr gid)) (Some (JNum now)) in
        let serialized := serializeMessage message in
        c <- gets client ;;
        match ConnectionState_eqb (state c) CONNECTED, ws c with
        | true, Some k => WebSocket_send k serialized
        | _, _ => modify_client (fun c => set_messageQueue (messageQueue c ++ [serialized])%list c)
        end ;;
        ret true
    end.

(** [flushMessageQueue()]: the loop runs at most once per queued message. *)
Fixpoint flushMessageQueue_loop (n : nat) : St unit :=
  match n with
  | O => ret tt
  | S n' =>
      c <- gets client ;;
      match messageQueue c, ws c, ConnectionState_eqb (state c) CONNECTED with
      | message :: rest, Some k, true =>
          modify_client (set_messageQueue rest) ;;
          (if negb (String.eqb message EmptyString) then WebSocket_send k message
           else ret tt) ;;
          flushMessageQueue_loop n'
      | _, _, _ => ret tt
      end
  end.

Definition flushMessageQueue : St unit :=
  n <- gets (fun w => List.length (messageQueue (client w))) ;;
  flushMessageQueue_loop n.

(** The reconnection's [.catch(() => ...)], run when the promise of socket [k]
    is rejected. *)
Definition reconnect_catch : St unit :=
  c <- gets client ;;
  if (reconnectAttempts c >=? reconnectionAttempts (options c))%Z then
    emit "reconnect_failed" [] ;; ret tt
  else ret tt.

(** [reject(error)] of the promise made with socket [k]. *)
Definition reject (k : nat) (error : exn) : St unit :=
  s <- gets (fun w => nth_error (sockets w) k) ;;
  match s with
  | Some s =>
      match promise s with
      | Unsettled =>
          update_socket k (set_promise (Rejected error)) ;;
          if onRejected s then reconnect_catch else ret tt
      | _ => ret tt
      end
  | None => ret tt
  end.

Definition resolve (k : nat) : St unit :=
  update_socket k (fun s => match promise s with
                            | Unsettled => set_promise Resolved s
                            | _ => s
                            end).

(** What [connect()] returns: a promise already resolved, the promise tied to
    the new socket, or a promise rejected before any socket existed. *)
Inductive ConnectPromise : Type :=
| AlreadyResolved
| OfSocket (k : nat)
| RejectedAtOnce (e : exn).

(** [connect()] *)
Definition connect : St ConnectPromise :=
  c <- gets client ;;
  if ConnectionState_eqb (state c) CONNECTED || ConnectionState_eqb (state c) CONNECTING
  then ret AlreadyResolved
  else
    modify_client (set_state CONNECTING) ;;
    emit "connecting" [] ;;
    fun w =>
      match
        try_catch
          (if urlValid w then
             k <- gets (fun w => List.length (sockets w)) ;;
             t <- setTimeout ConnectTimeout (timeout (options (client w))) ;;
             modify (fun w => set_sockets
                       (sockets w ++ [mkWebSocket WS_CONNECTING [] true [] t Unsettled false])%list w) ;;
             modify_client (set_ws (Some k)) ;;
             ret (OfSocket k)
           else throw SyntaxError)
          (fun error =>
             modify_client (set_state DISCONNECTED) ;;
             emit "error" [AError error] ;;
             ret (RejectedAtOnce error)) w
      with
      | (w', Ok p) => (w', Ok p)
      | (w', Throw e) => (w', Ok (RejectedAtOnce e))  (* the executor threw *)
      end.

(** [attemptReconnection()] *)
Definition attemptReconnection : St unit :=
  modify_client (set_state RECONNECTING) ;;
  modify_client (fun c => set_reconnectAttempts (reconnectAttempts c + 1) c) ;;
  c <- gets client ;;
  emit "reconnecting" [AValue (JNum (reconnectAttempts c))] ;;
  t <- setTimeout ReconnectTimer (reconnectionDelay (options c) * reconnectAttempts c) ;;
  modify_client (set_reconnectTimer (Some t)).

(** [handleDisconnection(code, reason)] *)
Definition handleDisconnection (code : Z) (reason : string) : St unit :=
  modify_client (set_state DISCONNECTED) ;;
  c <- gets client ;;
  match ws c with
  | Some k => update_socket k (set_handlers false) ;; modify_client (set_ws None)
  | None => ret tt
  end ;;
  emit "disconnect"
       [AValue (JStr (if String.eqb reason EmptyString then "Connection closed" else reason))] ;;
  c <- gets client ;;
  if reconnection (options c)
     && (reconnectAttempts c <? reconnectionAttempts (options c))%Z
     && negb (code =? 1000)%Z
  then attemptReconnection
  else if (reconnectAttempts c >=? reconnectionAttempts (options c))%Z
  then emit "reconnect_failed" [] ;; ret tt
  else ret tt.

(** [disconnect()] *)
Definition disconnect : St unit :=
  modify_client (fun c =>
    set_options (mkOptions (autoConnect (options c)) false
                           (reconnectionAttempts (options c))
                           (reconnectionDelay (options c)) (timeout (options c))) c) ;;
  c <- gets client ;;
  match reconnectTimer c with
  | Some t => clearTimeout t ;; modify_client (set_reconnectTimer None)
  | None => ret tt
  end ;;
  match ws c with
  | Some k => WebSocket_close k (Some 1000%Z)
  | None => ret tt
  end ;;
  modify_client (set_state DISCONNECTED) ;;
  emit "disconnect" [AValue (JStr "client disconnect")] ;;
  ret tt.

(** The handlers [connect()] puts on socket [k]. *)
Definition onopen (k : nat) : St unit :=
  s <- gets (fun w => nth_error (sockets w) k) ;;
  match s with
  | Some s =>
      clearTimeout (timeoutTimer s) ;;
      modify_client (set_state CONNECTED) ;;
      modify_client (set_reconnectAttempts 0) ;;
      emit "connect" [] ;;
      flushMessageQueue ;;
      resolve k
  | None => ret tt
  end.

Definition onclose (k : nat) (code : Z) (reason : string) : St unit :=
  s <- gets (fun w => nth_error (sockets w) k) ;;
  match s with
  | Some s => clearTimeout (timeoutTimer s) ;; handleDisconnection code reason
  | None => ret tt
  end.

Definition onerror (k : nat) (error : exn) : St unit :=
  s <- gets (fun w => nth_error (sockets w) k) ;;
  match s with
  | Some s =>
      clearTimeout (timeoutTimer s) ;;
      emit "error" [AError error] ;;
      reject k error
  | None => ret tt
  end.

(** The callback of the timeout timer of socket [k]. *)
Definition ontimeout (k : nat) : St unit :=
  c <- gets client ;;
  match ws c with
  | Some cur =>
      s <- gets (fun w => nth_error (sockets w) cur) ;;
      match s with
      | Some {| readyState := WS_CONNECTING |} =>
          WebSocket_close cur None ;;
          emit "error" [AError (Error "Connection timeout")] ;;
          reject k (Error "Connection timeout")
      | _ => ret tt
      end
  | None => ret tt
  end.

(** The callback of the backoff timer: [this.connect().catch(...)]. *)
Definition onreconnect : St unit :=
  p <- connect ;;
  match p with
  | OfSocket k => update_socket k (set_onRejected true)
  | RejectedAtOnce _ => reconnect_catch
  | AlreadyResolved => ret tt
  end.

(** [new NanoSocketClient(url, options)] *)
Definition new_NanoSocketClient (o : ClientOptions) (url_ok : bool) (now : Z)
  (gen : nat -> string) : World * result unit :=
  let opts := mkOptions (not_false (opt_autoConnect o)) (not_false (opt_reconnection o))
                        (or_default (opt_reconnectionAttempts o) 5)
                        (or_default (opt_reconnectionDelay o) 1000)
                        (or_default (opt_timeout o) 20000) in
  let w := mkWorld (mkClient None opts DISCONNECTED None 0 [] [])
                   [] [] 0 [] url_ok now gen 0 in
  if autoConnect opts then (connect ;; ret tt) w else (w, Ok tt).

(** What the transport and the timers do to the client.  A socket opens only
    while it is connecting and closes only once; a timer fires only while it
    is pending; the handlers run only while they are set on the socket. *)
Inductive Stimulus : Type :=
| TransportOpen (k : nat)
| TransportClose (k : nat) (code : Z) (reason : string)
| TransportError (k : nat) (error : exn)
| TimerFires (t : nat).

Definition find_timer (t : nat) (w : World) : option Timer :=
  find (fun x => (tid x =? t)%nat) (timers w).

(** The socket whose timeout timer is [t]. *)
Fixpoint socket_of_timer (t : nat) (ss : list WebSocket) (k : nat) : option nat :=
  match ss with
  | [] => None
  | s :: ss' => if (timeoutTimer s =? t)%nat then Some k else socket_of_timer t ss' (S k)
  end.

Definition deliver (e : Stimulus) : St unit :=
  match e with
  | TransportOpen k =>
      s <- gets (fun w => nth_error (sockets w) k) ;;
      match s with
      | Some {| readyState := WS_CONNECTING; handlers := h |} =>
          update_socket k (set_readyState WS_OPEN) ;;
          if h then onopen k else ret tt
      | _ => ret tt
      end
  | TransportClose k code reason =>
      s <- gets (fun w => nth_error (sockets w) k) ;;
      match s with
      | Some {| readyState := WS_CLOSED |} => ret tt
      | Some s =>
          update_socket k (set_readyState WS_CLOSED) ;;
          if handlers s then onclose k code reason else ret tt
      | None => ret tt
      end
  | TransportError k error =>
      s <- gets (fun w => nth_error (sockets w) k) ;;
      match s with
      | Some s => if handlers s then onerror k error else ret tt
      | None => ret tt
      end
  | TimerFires t =>
      x <- gets (find_timer t) ;;
      match x with
      | Some x =>
          clearTimeout t ;;
          match kind x with
          | ReconnectTimer => onreconnect
          | ConnectTimeout =>
              k <- gets (fun w => socket_of_timer t (sockets w) 0) ;;
              match k with
              | Some k => ontimeout k
              | None => ret tt
              end
          end
      | None => ret tt
      end
  end.

(** Stimuli delivered one after the other; an exception that escapes one
    callback does not stop the next. *)
Fixpoint run (es : list Stimulus) (w : World) : World * list (result unit) :=
  match es with
  | [] => (w, [])
  | e :: es' =>
      let (w', r) := deliver e w in
      let (w'', rs) := run es' w' in
      (w'', r :: rs)
  end.

End Client.

(** ** Server side: inbound messages and the handler tables

    [NanoSocket.handleMessage], [NanoSocketConnection.handleMessage] and
    [NanoSocketConnection.off].  The handlers of the application are called
    here, so the state carries the calls made so far, and what a handler does
    when called (return, or throw) is a parameter.  Handlers do not call back
    into the server while they are being dispatched. *)

Module Inbound.
Import Server.

Definition Behaviour : Type := nat -> list arg -> option exn.

Record State : Type := mkState {
  world : World;
  calls : list (nat * list arg)
}.

Definition Run (A : Type) : Type := M State A.

(** A server computation, which calls no handler. *)
Definition lift {A} (m : St A) : Run A :=
  fun s => let (w, r) := m (world s) in (mkState w (calls s), r).

(** [handler(...args)] *)
Definition call (beh : Behaviour) (handler : nat) (args : list arg) : Run unit :=
  fun s => (mkState (world s) (calls s ++ [(handler, args)])%list,
            match beh handler args with
            | Some e => Throw e
            | None => Ok tt
            end).

(** The listeners registered for a name, in the order of registration. *)
Definition listeners_for (ls : Listeners) (name : string) : list nat :=
  map snd (filter (fun l => String.eqb (fst l) name) ls).

(** [super.emit(name, ...args)] of the connection at [a], with the listeners
    run: an ['error'] nobody listens to is thrown, otherwise the listeners
    are called in turn and the first exception leaves the call. *)
Definition Connection_super_emit_run (beh : Behaviour) (a : nat) (name : string)
  (args : list arg) : Run bool :=
  c <- lift (gets (fun w => nth_error (heap w) a)) ;;
  match c with
  | Some c =>
      fired <- lift (Connection_super_emit a name args) ;;
      for_of (listeners_for (conn_listeners c) name) (fun h => call beh h args) ;;
      ret fired
  | None => throw TypeError
  end.

(** [handlers.indexOf(handler)] and [handlers.splice(index, 1)]: the first
    occurrence goes. *)
Fixpoint remove_first (h : nat) (l : list nat) : list nat :=
  match l with
  | [] => []
  | x :: l' => if Nat.eqb x h then l' else x :: remove_first h l'
  end.

Fixpoint remove_first_listener (event : string) (h : nat) (ls : Listeners) : Listeners :=
  match ls with
  | [] => []
  | l :: ls' =>
      if String.eqb (fst l) event && Nat.eqb (snd l) h then ls'
      else l :: remove_first_listener event h ls'
  end.

(** [EventEmitter.prototype.removeListener]: the most recently added
    instance goes. *)
Definition removeListener (ls : Listeners) (event : string) (h : nat) : Listeners :=
  List.rev (remove_first_listener event h (List.rev ls)).

(** [EventEmitter.prototype.removeAllListeners(event)] *)
Definition removeAllListeners (ls : Listeners) (event : string) : Listeners :=
  filter (fun l => negb (String.eqb (fst l) event)) ls.

(** NanoSocketConnection: [off(event, handler?)] *)
Definition Connection_off (a : nat) (event : string) (handler : option nat) : St unit :=
  update_conn a (fun c =>
    match handler with
    | Some h =>
        let c1 :=
          match JSMap.get (eventHandlers c) event with
          | Some handlers =>
              let handlers' := remove_first h handlers in
              if (List.length handlers' =? 0)%nat
              then set_eventHandlers (JSMap.delete (eventHandlers c) event) c
              else set_eventHandlers (JSMap.set (eventHandlers c) event handlers') c
          | None => c
          end in
        set_conn_listeners (removeListener (conn_listeners c1) event h) c1
    | None =>
        set_conn_listeners (removeAllListeners (conn_listeners c) event)
          (set_eventHandlers (JSMap.delete (eventHandlers c) event) c)
    end).

(** [...message.data]: an array spreads to its elements, a string to its
    characters, anything else is not iterable. *)
Definition spread (data : option value) : result (list arg) :=
  match data with
  | Some (JArr l) => Ok (map AValue l)
  | Some (JStr s) =>
      Ok (map (fun c => AValue (JStr (String c EmptyString))) (list_ascii_of_string s))
  | _ => Throw TypeError
  end.

(** NanoSocketConnection: [handleMessage(message)] *)
Definition Connection_handleMessage (beh : Behaviour) (a : nat) (message : Message)
  : Run unit :=
  try_catch
    (match spread (data message) with
     | Throw e => throw e
     | Ok args =>
         Connection_super_emit_run beh a (event message) args ;;
         c <- lift (gets (fun w => nth_error (heap w) a)) ;;
         match c with
         | Some c =>
             match JSMap.get (eventHandlers c) (event message) with
             | Some handlers =>
                 for_of handlers (fun handler =>
                   try_catch
                     (call beh handler args)
                     (fun error =>
                        Connection_super_emit_run beh a "error" [AError error] ;; ret tt))
             | None => ret tt
             end
         | None => throw TypeError
         end
     end)
    (fun error => Connection_super_emit_run beh a "error" [AError error] ;; ret tt).

(** [getConnectionByWs(ws)]: the channel carries its socket id in its user
    data. *)
Definition getConnectionByWs (socketId : string) : St (option nat) :=
  gets (fun w => JSMap.get (connections (server w)) socketId).

(** NanoSocket: [handleMessage(ws, message, opCode)]; an error object encodes
    as an empty object. *)
Definition handleMessage (beh : Behaviour) (socketId : string) (payload : string)
  : Run unit :=
  try_catch
    (if (String.length payload =? 0)%nat then ret tt
     else
       match deserializeMessage payload with
       | Throw e => throw e
       | Ok parsedMessage =>
           connection <- lift (getConnectionByWs socketId) ;;
           match connection with
           | Some a => Connection_handleMessage beh a parsedMessage
           | None => ret tt
           end
       end)
    (fun error =>
       connection <- lift (getConnectionByWs socketId) ;;
       match connection with
       | Some a => lift (Connection_emit a "error" [JObj []]) ;; ret tt
       | None => ret tt
       end ;;
       lift (NanoSocket_emit "error" [AError error]) ;;
       ret tt).

End Inbound.

(** ** Server side: the CORS options and headers *)

Module Cors.

(** [origin?: string | string[] | boolean] *)
Inductive Origin : Type :=
| OriginString (s : string)
| OriginList (l : list string)
| OriginBool (b : bool).

(** [options.cors] as given to the constructor, and as kept. *)
Record CorsOptions : Type := mkCorsOptions {
  opt_origin : option Origin;
  opt_credentials : option bool
}.

Record Kept : Type := mkKept {
  origin : Origin;
  credentials : bool
}.

(** ToBoolean of an origin: an array is an object. *)
Definition Origin_truthy (o : Origin) : bool :=
  match o with
  | OriginString s => negb (String.eqb s EmptyString)
  | OriginList _ => true
  | OriginBool b => b
  end.

(** The constructor: [origin: options.cors?.origin || '*'] and
    [credentials: options.cors?.credentials || false]. *)
Definition new_cors (cors : option CorsOptions) : Kept :=
  mkKept
    (match cors with
     | Some {| opt_origin := Some o |} => if Origin_truthy o then o else OriginString "*"
     | _ => OriginString "*"
     end)
    (match cors with
     | Some {| opt_credentials := Some b |} => b
     | _ => false
     end).

(** [Array.prototype.join] on strings. *)
Fixpoint join (sep : string) (l : list string) : string :=
  match l with
  | [] => EmptyString
  | [x] => x
  | x :: r => x ++ sep ++ join sep r
  end.

(** [setCorsHeaders(res)]: the [writeHeader] calls, in order. *)
Definition setCorsHeaders (cors : Kept) : list (string * string) :=
  ((match origin cors with
    | OriginString s => [("Access-Control-Allow-Origin", s)]
    | OriginList l => [("Access-Control-Allow-Origin", join ", " l)]
    | OriginBool true => [("Access-Control-Allow-Origin", "*")]
    | OriginBool false => []
    end)
   ++ (if credentials cors then [("Access-Control-Allow-Credentials", "true")] else [])
   ++ [("Access-Control-Allow-Methods", "GET, POST, OPTIONS");
       ("Access-Control-Allow-Headers", "Content-Type")])%list.

End Cors.

(** ** Client side: inbound messages and the handler table

    [NanoSocketClient.on], [off] and [handleMessage].  The state carries the
    client's own table of handlers and the calls made so far; what a handler
    does when called is a parameter, as on the server. *)

Module ClientInbound.
Import Client.

Record State : Type := mkState {
  world : World;
  eventHandlers : JSMap.t (list nat);
  calls : list (nat * list arg)
}.

Definition Run (A : Type) : Type := M State A.

Definition lift {A} (m : St A) : Run A :=
  fun s => let (w, r) := m (world s) in (mkState w (eventHandlers s) (calls s), r).

(** [handler(...args)] *)
Definition call (beh : Inbound.Behaviour) (handler : nat) (args : list arg) : Run unit :=
  fun s => (mkState (world s) (eventHandlers s) (calls s ++ [(handler, args)])%list,
            match beh handler args with
            | Some e => Throw e
            | None => Ok tt
            end).

(** [super.emit(event, ...args)] with the listeners run. *)
Definition super_emit_run (beh : Inbound.Behaviour) (event : string) (args : list arg)
  : Run bool :=
  ls <- lift (gets (fun w => listeners (client w))) ;;
  fired <- lift (super_emit event args) ;;
  for_of (Inbound.listeners_for ls event) (fun h => call beh h args) ;;
  ret fired.

(** [this.emit('error', error)]: ['error'] is one of the names that [emit]
    hands to the emitter. *)
Definition emit_error (beh : Inbound.Behaviour) (error : exn) : Run unit :=
  super_emit_run beh "error" [AError error] ;; ret tt.

(** [on(event, handler)] *)
Definition on (event : string) (handler : nat) : Run unit :=
  fun s =>
    let hs := match JSMap.get (eventHandlers s) event with
              | Some hs => hs
              | None => []
              end in
    (mkState (set_client (set_listeners (listeners (client (world s)) ++ [(event, handler)])%list
                                        (client (world s)))
                         (world s))
             (JSMap.set (eventHandlers s) event (hs ++ [handler])%list)
             (calls s),
     Ok tt).

(** [off(event, handler?)] *)
Definition off (event : string) (handler : option nat) : Run unit :=
  fun s =>
    let ls := listeners (client (world s)) in
    match handler with
    | Some h =>
        let table :=
          match JSMap.get (eventHandlers s) event with
          | Some handlers =>
              let handlers' := Inbound.remove_first h handlers in
              if (List.length handlers' =? 0)%nat
              then JSMap.delete (eventHandlers s) event
              else JSMap.set (eventHandlers s) event handlers'
          | None => eventHandlers s
          end in
        (mkState (set_client (set_listeners (Inbound.removeListener ls event h)
                                            (client (world s)))
                             (world s))
                 table (calls s),
         Ok tt)
    | None =>
        (mkState (set_client (set_listeners (Inbound.removeAllListeners ls event)
                                            (client (world s)))
                             (world s))
                 (JSMap.delete (eventHandlers s) event) (calls s),
         Ok tt)
    end.

(** [handleMessage(data)] *)
Definition handleMessage (beh : Inbound.Behaviour) (payload : string) : Run unit :=
  try_catch
    (match deserializeMessage payload with
     | Throw e => throw e
     | Ok message =>
         match Inbound.spread (data message) with
         | Throw e => throw e
         | Ok args =>
             super_emit_run beh (event message) args ;;
             handlers <- (fun s => (s, Ok (JSMap.get (eventHandlers s) (event message)))) ;;
             match handlers with
             | Some handlers =>
                 for_of handlers (fun handler =>
                   try_catch (call beh handler args)
                             (fun error => emit_error beh error))
             | None => ret tt
             end
         end
     end)
    (fun error => emit_error beh error).

End ClientInbound.

(** * Vocabulary of the statements *)

Module JSONSpec.

(** Induction on values, with the hypotheses for the elements of an array and
    the members of an object. *)
Section ValueInduction.
Variable P : value -> Prop.
Hypothesis Hnull : P JNull.
Hypothesis Hbool : forall b, P (JBool b).
Hypothesis Hnum : forall z, P (JNum z).
Hypothesis Hstr : forall s, P (JStr s).
Hypothesis Harr : forall l, Forall P l -> P (JArr l).
Hypothesis Hobj : forall m, Forall (fun kv => P (snd kv)) m -> P (JObj m).

Fixpoint value_induction (v : value) : P v :=
  match v with
  | JNull => Hnull
  | JBool b => Hbool b
  | JNum z => Hnum z
  | JStr s => Hstr s
  | JArr l =>
      Harr l ((fix go (l : list value) : Forall P l :=
                 match l with
                 | [] => Forall_nil P
                 | x :: r => Forall_cons x (value_induction x) (go r)
                 end) l)
  | JObj m =>
      Hobj m ((fix go (m : list (string * value)) : Forall (fun kv => P (snd kv)) m :=
                 match m with
                 | [] => Forall_nil _
                 | kv :: r => Forall_cons kv (value_induction (snd kv)) (go r)
                 end) m)
  end.
End ValueInduction.

(** The printer, with the loops over elements and members named. *)
Fixpoint stringify_elements (l : list value) : string :=
  match l with
  | [] => EmptyString
  | [v] => stringify v
  | v :: l' => stringify v ++ String "," (stringify_elements l')
  end.

Fixpoint stringify_members (m : list (string * value)) : string :=
  match m with
  | [] => EmptyString
  | [(k, v)] => quote k ++ String ":" (stringify v)
  | (k, v) :: m' => quote k ++ String ":" (stringify v) ++ String "," (stringify_members m')
  end.

Definition next_is_digit (s : string) : bool :=
  match s with
  | String c _ => match digit_of c with Some _ => true | None => false end
  | EmptyString => false
  end.

(** What may follow a value inside a text: nothing, a comma or a closing
    bracket. *)
Definition delimited (s : string) : bool :=
  match s with
  | EmptyString => true
  | String c _ => Ascii.eqb c "," || Ascii.eqb c "]" || Ascii.eqb c "}"
  end.

(** A numeral as [Z.to_int] writes it: a single 0, or digits that start with
    a digit other than 0. *)
Definition canonical (u : uint) : Prop :=
  match u with
  | Nil => False
  | D0 Nil => True
  | D0 _ => False
  | _ => True
  end.

Definition value_start (c : ascii) : bool :=
  Ascii.eqb c "n" || Ascii.eqb c "t" || Ascii.eqb c "f" || Ascii.eqb c dquote
  || Ascii.eqb c "[" || Ascii.eqb c "{" || Ascii.eqb c "-"
  || match digit_of c with Some _ => true | None => false end.

Definition numeral_start (c : ascii) : bool :=
  Ascii.eqb c "-" || match digit_of c with Some _ => true | None => false end.

(** The size of a value bounds the fuel its text needs. *)
Fixpoint size (v : value) : nat :=
  match v with
  | JArr l => S (fold_right (fun x n => S (size x + n)) 0 l)
  | JObj m => S (fold_right (fun kv n => S (size (snd kv) + n)) 0 m)
  | _ => 1
  end%nat.

Definition size_elements (l : list value) : nat :=
  fold_right (fun x n => S (size x + n)) 0%nat l.
Definition size_members (m : list (string * value)) : nat :=
  fold_right (fun kv n => S (size (snd kv) + n)) 0%nat m.

(** A value of JS: the keys of every object are distinct. *)
Fixpoint distinct (l : list string) : bool :=
  match l with
  | [] => true
  | x :: r => negb (existsb (String.eqb x) r) && distinct r
  end.

Fixpoint well_formed (v : value) : bool :=
  match v with
  | JArr l => forallb well_formed l
  | JObj m => distinct (map fst m) && forallb (fun kv => well_formed (snd kv)) m
  | _ => true
  end.

Definition round_trips (v : value) : Prop :=
  well_formed v = true ->
  forall fuel rest, (size v <= fuel)%nat -> delimited rest = true ->
  parse_value fuel (stringify v ++ rest) = Some (v, rest).

End JSONSpec.

(** ** Vocabulary of the codec statements *)

(** An envelope that [JSON.stringify] prints and [JSON.parse] reads back: its
    members are values of JS. *)
Definition serializable (m : Message) : bool := JSONSpec.well_formed (toObject m).

(** The member [data] of a parsed payload. *)
Definition wire_data (parsed : value) : option value :=
  match parsed with
  | JObj o => obj_get o "data"
  | _ => None
  end.

(** The normalization rule in the words of the specification: a sequence is
    kept, an absent [data] becomes the empty sequence, any other value becomes
    the one-element sequence of that value. *)
Definition normalization_as_specified (d : option value) : list value :=
  match d with
  | Some (JArr l) => l
  | Some x => [x]
  | None => []
  end.

(** The values that are false in a condition. *)
Definition falsy (v : value) : bool :=
  match v with
  | JNull => true
  | JBool b => negb b
  | JNum z => (z =? 0)%Z
  | JStr s => String.eqb s EmptyString
  | JArr _ | JObj _ => false
  end.

(** The rule the code follows: a falsy bare value is dropped. *)
Definition normalization_of_the_code (d : option value) : list value :=
  match d with
  | Some (JArr l) => l
  | Some x => if falsy x then [] else [x]
  | None => []
  end.

(** [n] copies of a character. *)
Fixpoint replicate (n : nat) (c : ascii) : string :=
  match n with
  | O => EmptyString
  | S n' => String c (replicate n' c)
  end.

(** An envelope whose only argument is a string of 1 MiB. *)
Definition oversize_envelope : Message :=
  mkMessage "x" (Some (JArr [JStr (replicate (Z.to_nat MAX_MESSAGE_LENGTH) "a")])) None None.

(** ** Vocabulary of the client statements *)

Module ClientSpec.
Import Client.

(** The backoff timer that is pending, if any. *)
Definition pending_reconnect (w : World) : option nat :=
  option_map tid
    (find (fun t => match kind t with ReconnectTimer => true | ConnectTimeout => false end)
          (timers w)).

(** Every transport connection is closed at once with the abnormal code 1006,
    and the backoff that follows is waited for; [rounds] bounds how long the
    scenario is watched. *)
Fixpoint close_every_connection (rounds : nat) (w : World) : World * list (result unit) :=
  match rounds with
  | O => (w, [])
  | S n =>
      match ws (client w) with
      | Some k =>
          let (w1, r1) := deliver (TransportClose k 1006 EmptyString) w in
          match pending_reconnect w1 with
          | Some t =>
              let (w2, r2) := deliver (TimerFires t) w1 in
              let (w3, rs) := close_every_connection n w2 in
              (w3, r1 :: r2 :: rs)
          | None => (w1, [r1])
          end
      | None => (w, [])
      end
  end.

(** The same with a transport that opens before it is closed. *)
Fixpoint open_and_close_every_connection (rounds : nat) (w : World)
  : World * list (result unit) :=
  match rounds with
  | O => (w, [])
  | S n =>
      match ws (client w) with
      | Some k =>
          let (w0, r0) := deliver (TransportOpen k) w in
          let (w1, r1) := deliver (TransportClose k 1006 EmptyString) w0 in
          match pending_reconnect w1 with
          | Some t =>
              let (w2, r2) := deliver (TimerFires t) w1 in
              let (w3, rs) := open_and_close_every_connection n w2 in
              (w3, r0 :: r1 :: r2 :: rs)
          | None => (w1, [r0; r1])
          end
      | None => (w, [])
      end
  end.

(** How many notifications of a name were made. *)
Definition notifications (name : string) (w : World) : list (list arg) :=
  map snd (filter (fun e => String.eqb (fst e) name) (log w)).

(** [emit(event, ...args)] for each of a list of application events. *)
Fixpoint emit_all (es : list (string * list value)) : St unit :=
  match es with
  | [] => ret tt
  | (event, args) :: es' => emit event (map AValue args) ;; emit_all es'
  end.

(** The frames those calls encode: the [i]-th takes the [i]-th fresh id. *)
Fixpoint frames_from (w : World) (i : nat) (es : list (string * list value)) : list string :=
  match es with
  | [] => []
  | (event, args) :: es' =>
      serializeMessage (mkMessage event (Some (JArr args))
                                  (Some (JStr (ids w (fresh w + i)%nat)))
                                  (Some (JNum (clock w))))
      :: frames_from w (S i) es'
  end.

(** Socket [s] after the frames [fs] were handed to it. *)
Definition with_sent (s : WebSocket) (fs : list string) : WebSocket :=
  mkWebSocket (readyState s) (sent s ++ fs)%list (handlers s) (closeCalls s)
              (timeoutTimer s) (promise s) (onRejected s).

(** What the application and the environment can do to a client. *)
Inductive Call : Type :=
| CallConnect
| CallDisconnect
| CallEmit (event : string) (args : list arg)
| Happens (e : Stimulus).

Definition perform (c : Call) : St unit :=
  match c with
  | CallConnect => connect ;; ret tt
  | CallDisconnect => disconnect
  | CallEmit event args => emit event args ;; ret tt
  | Happens e => deliver e
  end%monad.

(** The calls one after the other; an exception that escapes one of them
    leaves the state it reached. *)
Definition history (cs : list Call) (w : World) : World :=
  fold_left (fun w c => fst (perform c w)) cs w.

(** Every queued string is the encoding of an envelope with a valid name. *)
Definition queued_frame (f : string) : Prop :=
  exists m, isValidEventName (event m) = true /\ f = serializeMessage m.

Definition queue_holds_frames (w : World) : Prop :=
  Forall queued_frame (messageQueue (client w)).

(** A computation that leaves the client object as it is. *)
Definition keeps_client {A} (m : St A) : Prop :=
  forall w, client (fst (m w)) = client w.

End ClientSpec.

(** ** Vocabulary of the server statements *)

Module ServerSpec.
Import Server.

(** What the application and the transport can do to a server. *)
Inductive Op : Type :=
| Accept (channel : Channel)                      (* the transport opens a channel *)
| TransportClosed (socketId : string) (code : Z)  (* the transport reports a close *)
| Use (middleware : Middleware)                   (* server.use *)
| ServerOn (event : string) (handler : nat)       (* server.on *)
| On (a : nat) (event : string) (handler : nat)   (* connection.on *)
| Join (a : nat) (room : string)                  (* connection.join *)
| Leave (a : nat) (room : string)                 (* connection.leave *)
| Teardown (a : nat)                              (* connection.disconnect *)
| Emit (a : nat) (event : string) (args : list value)  (* connection.emit *)
| JoinRoom (socketId room : string)               (* server.joinRoom *)
| LeaveRoom (socketId room : string)              (* server.leaveRoom *)
| Unregister (socketId : string)                  (* server.removeConnection *)
| Broadcast (event : string) (args : list value)  (* server.broadcast *)
| BroadcastToRoom (room event : string) (args : list value)
| ServerEmits (event : string) (args : list arg)  (* server.emit *)
| Close.                                          (* server.close *)

Definition ignore {A} (m : St A) : St unit := bind m (fun _ => ret tt).

Definition step (o : Op) : St unit :=
  match o with
  | Accept channel => ignore (handleConnection channel)
  | TransportClosed socketId code => handleDisconnection socketId code
  | Use middleware => use middleware
  | ServerOn event handler => NanoSocket_on event handler
  | On a event handler => Connection_on a event handler
  | Join a room => Connection_join a room
  | Leave a room => Connection_leave a room
  | Teardown a => Connection_disconnect a
  | Emit a event args => ignore (Connection_emit a event args)
  | JoinRoom socketId room => joinRoom socketId room
  | LeaveRoom socketId room => leaveRoom socketId room
  | Unregister socketId => removeConnection socketId
  | Broadcast event args => broadcast event args
  | BroadcastToRoom room event args => broadcastToRoom room event args
  | ServerEmits event args => ignore (NanoSocket_emit event args)
  | Close => close
  end.

(** The operations one after the other; an exception that escapes one of them
    leaves the state it reached and the next one runs. *)
Definition run (ops : list Op) (w : World) : World :=
  fold_left (fun w o => fst (step o w)) ops w.

(** The member set of a room, empty when the directory has no such room. *)
Definition members (w : World) (room : string) : JSSet.t :=
  match JSMap.get (rooms (server w)) room with
  | Some r => sockets r
  | None => JSSet.empty
  end.

(** No room of the directory is empty. *)
Definition no_empty_room (w : World) : Prop :=
  Forall (fun kv => sockets (snd kv) <> []) (rooms (server w)).

(** A computation that leaves the server object as it is. *)
Definition keeps_server {A} (m : St A) : Prop :=
  forall w, server (fst (m w)) = server w.

(** Socket ids for examples: a, b, c, ... *)
Definition letters (n : nat) : string := String (ascii_of_nat (97 + n)) EmptyString.

(** A server with the default options and one connection whose channel holds
    [buffered] bytes. *)
Definition server_with_one_connection (limit : option Z) (buffered : Z) : World :=
  run [Accept (mkChannel buffered [] false false)] (init limit 1700 letters).

(** Three middlewares for examples. *)
Definition allow : Middleware := fun _ => Next None.
Definition deny (e : exn) : Middleware := fun _ => Next (Some e).
Definition stall : Middleware := fun _ => NeverCalls.

End ServerSpec.

(** ** Vocabulary of the registry statements *)

Module RegistrySpec.
Import Server ServerSpec.

(** What the registry and the directory are made of: the ids of the
    connection objects, the registry and the directory. *)
Definition footprint (w : World) : list string * JSMap.t nat * JSMap.t Room :=
  (map conn_id (heap w), connections (server w), rooms (server w)).

Definition keeps_footprint {A} (m : St A) : Prop :=
  forall w, footprint (fst (m w)) = footprint w.

(** Every entry of the registry files a connection object under the id that
    the object holds, and no id is filed twice. *)
Definition registry_consistent (w : World) : Prop :=
  NoDup (JSMap.keys (connections (server w)))
  /\ forall id a, In (id, a) (connections (server w)) ->
                  nth_error (map conn_id (heap w)) a = Some id.

(** Every room is filed under its own name, once, and lists a member once. *)
Definition directory_well_formed (w : World) : Prop :=
  NoDup (JSMap.keys (rooms (server w)))
  /\ Forall (fun kv => name (snd kv) = fst kv /\ NoDup (sockets (snd kv)))
            (rooms (server w)).

(** The state of a server that has been constructed and used. *)
Definition reachable (w : World) : Prop :=
  exists limit now gen ops, w = run ops (init limit now gen).

(** The connection object registered under an id. *)
Definition registered (w : World) (socketId : string) : option nat :=
  JSMap.get (connections (server w)) socketId.

(** The frames the channel of the connection at [a] has been handed. *)
Definition frames (w : World) (a : nat) : list string :=
  match nth_error (heap w) a with
  | Some c => sentFrames (ws c)
  | None => []
  end.

(** The connection objects the registry holds. *)
Definition is_registered (w : World) (a : nat) : bool :=
  existsb (Nat.eqb a) (JSMap.values (connections (server w))).

(** The channels of the connection objects at these addresses take frames. *)
Definition channels_work (w : World) (targets : list nat) : bool :=
  forallb (fun a => match nth_error (heap w) a with
                    | Some c => negb (failing (ws c))
                    | None => true
                    end) targets.

(** A connection object whose channel has been handed one more frame. *)
Definition with_frame (frame : string) (c : Connection) : Connection :=
  set_ws (mkChannel (bufferedAmount (ws c)) (sentFrames (ws c) ++ [frame])%list
                    (closed (ws c)) (failing (ws c))) c.

(** A connection object that a fan-out with this ceiling has served: handed
    the frame under the ceiling, left alone at or over it. *)
Definition served (frame : string) (limit : Z) (c : Connection) : Connection :=
  if (bufferedAmount (ws c) <? limit)%Z then with_frame frame c else c.

(** The envelope a fan-out encodes: no id, the time of the call. *)
Definition fan_out_frame (w : World) (event : string) (args : list value) : string :=
  serializeMessage (mkMessage event (Some (JArr args)) None (Some (JNum (clock w)))).

(** The connection objects registered under these ids, in their order. *)
Definition targets_of (registry : JSMap.t nat) (socketIds : list string) : list nat :=
  flat_map (fun socketId => match JSMap.get registry socketId with
                            | Some a => [a]
                            | None => []
                            end) socketIds.

(** The connection objects of the registered members of a room. *)
Definition room_targets (w : World) (roomName : string) : list nat :=
  targets_of (connections (server w)) (members w roomName).

(** A connection object after [disconnect()]. *)
Definition torn_down (c : Connection) : Connection :=
  mkConnection (conn_id c) (Channel_close (ws c)) JSSet.empty (eventHandlers c) [].

End RegistrySpec.

(** ** Vocabulary of the inbound statements *)

Module InboundSpec.
Import Server Inbound.

(** The handlers the connection's own table holds for a name. *)
Definition handlers_for (c : Connection) (event : string) : list nat :=
  match JSMap.get (eventHandlers c) event with
  | Some handlers => handlers
  | None => []
  end.

(** Calls of these handlers, in this order, with these arguments. *)
Definition called_with (args : list arg) (handlers : list nat) : list (nat * list arg) :=
  map (fun h => (h, args)) handlers.

(** Every handler returns. *)
Definition quiet (beh : Behaviour) : Prop := forall h args, beh h args = None.

(** A behaviour for examples: handler 9 throws, the others return. *)
Definition nine_throws : Behaviour :=
  fun h _ => if Nat.eqb h 9 then Some (Error "boom") else None.

End InboundSpec.

(** ** Vocabulary of the reconnection statements *)

Module ReconnectSpec.
Import Client ClientSpec.

(** A backoff timer waits the delay unit times the number of an attempt
    between 1 and the limit. *)
Definition linear_backoff (limit unit : Z) (t : Timer) : Prop :=
  kind t = ReconnectTimer ->
  exists k, (1 <= k <= limit)%Z /\ delay t = (unit * k)%Z.

(** The options keep the limit and the delay unit, the attempt counter is
    between 0 and the limit, and every pending backoff timer is linear. *)
Definition reconnect_bounded (limit unit : Z) (w : World) : Prop :=
  reconnectionAttempts (options (client w)) = limit
  /\ reconnectionDelay (options (client w)) = unit
  /\ (0 <= reconnectAttempts (client w) <= Z.max 0 limit)%Z
  /\ Forall (linear_backoff limit unit) (timers w).

(** Reconnection is switched off, the client is not reconnecting, and the
    pending backoff timers are among [pending]. *)
Definition reconnection_off (pending : list Timer) (w : World) : Prop :=
  reconnection (options (client w)) = false
  /\ state (client w) <> RECONNECTING
  /\ Forall (fun t => kind t = ReconnectTimer -> In t pending) (timers w).

(** The options a constructor call keeps. *)
Definition kept_options (o : ClientOptions) : Options :=
  mkOptions (not_false (opt_autoConnect o)) (not_false (opt_reconnection o))
            (or_default (opt_reconnectionAttempts o) 5)
            (or_default (opt_reconnectionDelay o) 1000)
            (or_default (opt_timeout o) 20000).

End ReconnectSpec.

(** ** Vocabulary of the CORS statement *)

Module CorsSpec.
Import Cors.

(** The origin a server answers with, from the options it was given. *)
Definition allowed_origin (cors : option CorsOptions) : string :=
  match cors with
  | Some {| opt_origin := Some (OriginString s) |} =>
      if String.eqb s EmptyString then "*" else s
  | Some {| opt_origin := Some (OriginList l) |} => join ", " l
  | _ => "*"
  end.

Definition with_credentials (cors : option CorsOptions) : bool :=
  match cors with
  | Some {| opt_credentials := Some true |} => true
  | _ => false
  end.

End CorsSpec.

(** * Theorems *)

Module JSONFacts.
Import JSONSpec.

(** * Facts about strings *)

Lemma string_app_assoc (a b c : string) : (a ++ b) ++ c = a ++ (b ++ c).
Proof. induction a as [|x a IH]; simpl; [reflexivity | now rewrite IH]. Qed.

Lemma string_app_nil_r (a : string) : a ++ EmptyString = a.
Proof. induction a as [|x a IH]; simpl; [reflexivity | now rewrite IH]. Qed.

Lemma string_length_app (a b : string) :
  String.length (a ++ b) = (String.length a + String.length b)%nat.
Proof. induction a as [|x a IH]; simpl; [reflexivity | now rewrite IH]. Qed.

(** * The JSON codec *)

Lemma stringify_arr (l : list value) :
  stringify (JArr l) = String "[" (stringify_elements l ++ "]").
Proof.
  reflexivity.
Qed.

Lemma stringify_obj (m : list (string * value)) :
  stringify (JObj m) = String "{" (stringify_members m ++ "}").
Proof.
  reflexivity.
Qed.

(** ** String literals *)

Lemma parse_chars_quote_char (c : ascii) (r : string) :
  parse_chars (quote_char c ++ r) =
  match parse_chars r with
  | Some (t, rest) => Some (String c t, rest)
  | None => None
  end.
Proof.
  destruct c as [[] [] [] [] [] [] [] []]; reflexivity.
Qed.

Lemma parse_chars_quote_chars (s rest : string) :
  parse_chars (quote_chars s ++ String dquote rest) = Some (s, rest).
Proof.
  induction s as [|c s IH]; simpl.
  - reflexivity.
  - rewrite string_app_assoc, parse_chars_quote_char, IH. reflexivity.
Qed.

(** ** Numerals *)

Lemma delimited_no_digit (s : string) : delimited s = true -> next_is_digit s = false.
Proof.
  destruct s as [|c s]; [reflexivity|].
  destruct c as [[] [] [] [] [] [] [] []]; simpl; intros H; try discriminate H; reflexivity.
Qed.

Lemma delimited_ends_numeral (s : string) :
  delimited s = true -> continues_numeral s = false.
Proof.
  destruct s as [|c s]; [reflexivity|].
  destruct c as [[] [] [] [] [] [] [] []]; simpl; intros H; try discriminate H; reflexivity.
Qed.

Lemma delimited_skip_ws (s : string) : delimited s = true -> skip_ws s = s.
Proof.
  destruct s as [|c s]; [reflexivity|].
  destruct c as [[] [] [] [] [] [] [] []]; simpl; intros H; try discriminate H; reflexivity.
Qed.

Lemma read_digits_print_uint (u : uint) (rest : string) :
  next_is_digit rest = false ->
  read_digits (print_uint u ++ rest) = (u, rest).
Proof.
  intros Hrest.
  induction u as [|u IH|u IH|u IH|u IH|u IH|u IH|u IH|u IH|u IH|u IH];
    try (simpl; rewrite IH; reflexivity).
  simpl. destruct rest as [|c r]; [reflexivity|].
  simpl in *. destruct (digit_of c); [discriminate Hrest | reflexivity].
Qed.

Lemma nzhead_head (u : uint) :
  match nzhead u with D0 _ => False | _ => True end.
Proof. induction u; simpl; auto. Qed.

Lemma canonical_to_uint (p : positive) : canonical (Pos.to_uint p).
Proof.
  pose proof (DecimalPos.Unsigned.to_of (Pos.to_uint p)) as Hnorm.
  rewrite DecimalPos.Unsigned.of_to in Hnorm. simpl in Hnorm.
  pose proof (DecimalPos.Unsigned.to_uint_nonnil p) as Hnil.
  pose proof (DecimalPos.Unsigned.to_uint_nonzero p) as Hzero.
  destruct (Pos.to_uint p) as [|u|u|u|u|u|u|u|u|u|u]; simpl; auto.
  destruct u; auto; exfalso.
  all: rewrite unorm_D0 in Hnorm; unfold unorm in Hnorm;
    match type of Hnorm with
    | D0 ?x = match nzhead ?y with _ => _ end =>
        pose proof (nzhead_head y) as Hh; destruct (nzhead y); try discriminate Hnorm; auto
    end.
Qed.

Lemma canonical_to_int (z : Z) :
  match Z.to_int z with Pos u => canonical u | Neg u => canonical u end.
Proof. destruct z; simpl; auto using canonical_to_uint. Qed.

Lemma parse_digits_print_uint (u : uint) (rest : string) :
  canonical u -> next_is_digit rest = false ->
  parse_digits (print_uint u ++ rest) = Some (u, rest).
Proof.
  intros Hu Hrest.
  destruct u as [|u|u|u|u|u|u|u|u|u|u]; simpl in Hu; try contradiction.
  1: destruct u; try contradiction; reflexivity.
  all: change (parse_digits (print_uint (?d u) ++ rest))
         with (Some (read_digits (print_uint (d u) ++ rest)));
       rewrite read_digits_print_uint by assumption; reflexivity.
Qed.

Lemma print_uint_head (u : uint) (rest : string) :
  canonical u ->
  exists c r, print_uint u ++ rest = String c r /\ Ascii.eqb c "-" = false.
Proof.
  destruct u; simpl; try contradiction; intros _; eexists _, _; split; reflexivity.
Qed.

Lemma parse_int_print_int (z : Z) (rest : string) :
  delimited rest = true ->
  parse_int (print_int z ++ rest) = Some (z, rest).
Proof.
  intros Hrest.
  pose proof (canonical_to_int z) as Hc.
  pose proof (DecimalZ.of_to z) as Hz.
  unfold print_int. destruct (Z.to_int z) as [u|u].
  - destruct (print_uint_head u rest Hc) as (c & r & E & Hminus).
    pose proof (parse_digits_print_uint u rest Hc (delimited_no_digit _ Hrest)) as Hp.
    rewrite E in *. unfold parse_int. rewrite Hminus, Hp.
    rewrite (delimited_ends_numeral _ Hrest), Hz. reflexivity.
  - change (String "-" (print_uint u) ++ rest) with (String "-" (print_uint u ++ rest)).
    unfold parse_int. change (Ascii.eqb "-" "-") with true. cbv iota.
    rewrite (parse_digits_print_uint u rest Hc (delimited_no_digit _ Hrest)).
    rewrite (delimited_ends_numeral _ Hrest), Hz. reflexivity.
Qed.

(** ** Values *)

Lemma value_start_not_ws (c : ascii) (r : string) :
  value_start c = true -> skip_ws (String c r) = String c r.
Proof.
  destruct c as [[] [] [] [] [] [] [] []]; simpl; intros H; try discriminate H; reflexivity.
Qed.

Lemma value_start_not_closing (c : ascii) :
  value_start c = true -> Ascii.eqb c "]" = false /\ Ascii.eqb c "}" = false.
Proof.
  destruct c as [[] [] [] [] [] [] [] []]; simpl; intros H; try discriminate H; split; reflexivity.
Qed.

Lemma print_int_head (z : Z) (rest : string) :
  exists c r, print_int z ++ rest = String c r /\ numeral_start c = true.
Proof.
  pose proof (canonical_to_int z) as Hc. unfold print_int.
  destruct (Z.to_int z) as [u|u].
  - destruct u; simpl in *; try contradiction; eexists _, _; split; reflexivity.
  - simpl. eexists _, _; split; reflexivity.
Qed.

Lemma stringify_head (v : value) (rest : string) :
  exists c r, stringify v ++ rest = String c r /\ value_start c = true.
Proof.
  destruct v as [|[]|z|s|l|m]; try (eexists _, _; split; reflexivity).
  destruct (print_int_head z rest) as (c & r & E & H).
  exists c, r. split; [exact E|].
  unfold value_start. unfold numeral_start in H.
  apply orb_true_iff in H. destruct H as [H|H]; rewrite H;
    rewrite ?orb_true_r; reflexivity.
Qed.

(** One step of each parser. *)
Lemma parse_value_numeral (f : nat) (c : ascii) (r : string) :
  numeral_start c = true ->
  parse_value (S f) (String c r)
  = option_map (fun '(z, r') => (JNum z, r')) (parse_int (String c r)).
Proof.
  destruct c as [[] [] [] [] [] [] [] []]; simpl; intros H; try discriminate H; reflexivity.
Qed.

Lemma parse_value_string (f : nat) (r : string) :
  parse_value (S f) (String dquote r)
  = option_map (fun '(t, r') => (JStr t, r')) (parse_chars r).
Proof. reflexivity. Qed.

Lemma parse_value_array (f : nat) (r : string) :
  parse_value (S f) (String "[" r)
  = match skip_ws r with
    | String c' r' =>
        if Ascii.eqb c' "]" then Some (JArr [], r')
        else option_map (fun '(l, r'') => (JArr l, r'')) (parse_elements f r)
    | EmptyString => None
    end.
Proof. reflexivity. Qed.

Lemma parse_value_object (f : nat) (r : string) :
  parse_value (S f) (String "{" r)
  = match skip_ws r with
    | String c' r' =>
        if Ascii.eqb c' "}" then Some (JObj [], r')
        else option_map (fun '(m, r'') => (object_of m, r'')) (parse_members f r)
    | EmptyString => None
    end.
Proof. reflexivity. Qed.

Lemma parse_elements_step (f : nat) (s : string) :
  parse_elements (S f) s
  = match parse_value f s with
    | Some (v, r) =>
        match skip_ws r with
        | String c r' =>
            if Ascii.eqb c "," then
              option_map (fun '(l, r'') => (v :: l, r'')) (parse_elements f r')
            else if Ascii.eqb c "]" then Some ([v], r')
            else None
        | EmptyString => None
        end
    | None => None
    end.
Proof. reflexivity. Qed.

Lemma parse_members_step (f : nat) (k r : string) :
  parse_members (S f) (quote k ++ String ":" r)
  = match parse_value f r with
    | Some (v, r3) =>
        match skip_ws r3 with
        | String c r4 =>
            if Ascii.eqb c "," then
              option_map (fun '(m, r5) => ((k, v) :: m, r5)) (parse_members f r4)
            else if Ascii.eqb c "}" then Some ([(k, v)], r4)
            else None
        | EmptyString => None
        end
    | None => None
    end.
Proof.
  unfold quote.
  change (parse_members (S f) (String dquote (quote_chars k ++ String dquote EmptyString) ++ String ":" r))
    with (match parse_chars ((quote_chars k ++ String dquote EmptyString) ++ String ":" r) with
          | Some (k, r1) =>
              match skip_ws r1 with
              | String colon r2 =>
                  if Ascii.eqb colon ":" then
                    match parse_value f r2 with
                    | Some (v, r3) =>
                        match skip_ws r3 with
                        | String c r4 =>
                            if Ascii.eqb c "," then
                              option_map (fun '(m, r5) => ((k, v) :: m, r5))
                                         (parse_members f r4)
                            else if Ascii.eqb c "}" then Some ([(k, v)], r4)
                            else None
                        | EmptyString => None
                        end
                    | None => None
                    end
                  else None
              | EmptyString => None
              end
          | None => None
          end).
  rewrite string_app_assoc. simpl (String dquote EmptyString ++ _).
  rewrite parse_chars_quote_chars. reflexivity.
Qed.

Lemma obj_set_fresh (m : list (string * value)) (k : string) (v : value) :
  existsb (String.eqb k) (map fst m) = false ->
  obj_set m k v = (m ++ [(k, v)])%list.
Proof.
  induction m as [|[k' v'] m IH]; simpl; [reflexivity|].
  intros H. apply orb_false_iff in H. destruct H as [H1 H2].
  rewrite String.eqb_sym, H1, IH by assumption. reflexivity.
Qed.

Lemma existsb_app_false (x : string) (a b : list string) :
  existsb (String.eqb x) (a ++ b)%list = false <->
  existsb (String.eqb x) a = false /\ existsb (String.eqb x) b = false.
Proof. rewrite existsb_app, orb_false_iff. reflexivity. Qed.

Lemma fold_obj_set (m acc : list (string * value)) :
  distinct (map fst m) = true ->
  (forall k, In k (map fst m) -> existsb (String.eqb k) (map fst acc) = false) ->
  fold_left (fun o kv => obj_set o (fst kv) (snd kv)) m acc = (acc ++ m)%list.
Proof.
  revert acc. induction m as [|[k v] m IH]; intros acc Hd Hacc; simpl.
  - now rewrite List.app_nil_r.
  - simpl in Hd. apply andb_true_iff in Hd. destruct Hd as [Hk Hd].
    apply negb_true_iff in Hk.
    rewrite obj_set_fresh by (apply Hacc; left; reflexivity).
    rewrite IH; [now rewrite <- List.app_assoc | exact Hd |].
    intros k' Hin. rewrite map_app. apply existsb_app_false. split.
    + apply Hacc. right. exact Hin.
    + simpl. rewrite orb_false_r. apply String.eqb_neq. intros ->.
      assert (existsb (String.eqb k) (map fst m) = true) as Ht.
      { apply existsb_exists. exists k. split; [exact Hin | apply String.eqb_refl]. }
      congruence.
Qed.

Lemma object_of_distinct (m : list (string * value)) :
  distinct (map fst m) = true -> object_of m = JObj m.
Proof.
  intros H. unfold object_of. rewrite fold_obj_set; auto.
Qed.

(** ** Round trip *)

Lemma skip_ws_comma (s : string) : skip_ws (String "," s) = String "," s.
Proof. reflexivity. Qed.

Lemma parse_elements_stringify (l : list value) :
  l <> [] -> Forall round_trips l -> forallb well_formed l = true ->
  forall fuel rest, (size_elements l <= fuel)%nat ->
  parse_elements fuel (stringify_elements l ++ String "]" rest) = Some (l, rest).
Proof.
  induction l as [|v l IH]; [congruence|].
  intros _ HF Hwf fuel rest Hfuel.
  inversion HF as [|? ? Hv HF']; subst.
  simpl in Hwf. apply andb_true_iff in Hwf. destruct Hwf as [Hwv Hwl].
  unfold size_elements in Hfuel; simpl in Hfuel; fold (size_elements l) in Hfuel.
  destruct fuel as [|f]; [lia|].
  rewrite parse_elements_step.
  destruct l as [|v' l'].
  - simpl (stringify_elements [v]).
    rewrite (Hv Hwv f (String "]" rest)) by (try lia; reflexivity).
    reflexivity.
  - change (stringify_elements (v :: v' :: l'))
      with (stringify v ++ String "," (stringify_elements (v' :: l'))).
    rewrite string_app_assoc.
    change (String "," (stringify_elements (v' :: l')) ++ String "]" rest)
      with (String "," (stringify_elements (v' :: l') ++ String "]" rest)).
    rewrite (Hv Hwv f _) by (try lia; reflexivity).
    rewrite skip_ws_comma. change (Ascii.eqb "," ",") with true. cbv iota.
    rewrite IH by (try congruence; try assumption; lia).
    reflexivity.
Qed.

Lemma parse_members_stringify (m : list (string * value)) :
  m <> [] -> Forall (fun kv => round_trips (snd kv)) m ->
  forallb (fun kv => well_formed (snd kv)) m = true ->
  forall fuel rest, (size_members m <= fuel)%nat ->
  parse_members fuel (stringify_members m ++ String "}" rest) = Some (m, rest).
Proof.
  induction m as [|[k v] m IH]; [congruence|].
  intros _ HF Hwf fuel rest Hfuel.
  inversion HF as [|? ? Hv HF']; subst. simpl in Hv.
  simpl in Hwf. apply andb_true_iff in Hwf. destruct Hwf as [Hwv Hwl].
  unfold size_members in Hfuel; simpl in Hfuel; fold (size_members m) in Hfuel.
  destruct fuel as [|f]; [lia|].
  destruct m as [|[k' v'] m'].
  - change (stringify_members [(k, v)]) with (quote k ++ String ":" (stringify v)).
    rewrite string_app_assoc.
    change (String ":" (stringify v) ++ String "}" rest)
      with (String ":" (stringify v ++ String "}" rest)).
    rewrite parse_members_step.
    rewrite (Hv Hwv f (String "}" rest)) by (try lia; reflexivity).
    reflexivity.
  - change (stringify_members ((k, v) :: (k', v') :: m'))
      with (quote k ++ String ":" (stringify v)
              ++ String "," (stringify_members ((k', v') :: m'))).
    rewrite string_app_assoc.
    change (String ":" (stringify v) ++ String "," (stringify_members ((k', v') :: m')))
      with (String ":" (stringify v ++ String "," (stringify_members ((k', v') :: m')))).
    change (String ":" ?x ++ ?y) with (String ":" (x ++ y)).
    rewrite string_app_assoc.
    change (String "," ?x ++ ?y) with (String "," (x ++ y)).
    rewrite parse_members_step.
    rewrite (Hv Hwv f _) by (try lia; reflexivity).
    rewrite skip_ws_comma. change (Ascii.eqb "," ",") with true. cbv iota.
    rewrite IH by (try congruence; try assumption; lia).
    reflexivity.
Qed.

Lemma parse_value_stringify (v : value) : round_trips v.
Proof.
  induction v as [|b|z|s|l IH|m IH] using value_induction;
    intros Hwf fuel rest Hfuel Hrest;
    (destruct fuel as [|f]; [simpl in Hfuel; lia|]).
  - reflexivity.
  - destruct b; reflexivity.
  - change (stringify (JNum z)) with (print_int z).
    destruct (print_int_head z rest) as (c & r & E & Hc).
    rewrite E, parse_value_numeral, <- E by exact Hc.
    rewrite parse_int_print_int by exact Hrest. reflexivity.
  - change (stringify (JStr s) ++ rest)
      with (String dquote ((quote_chars s ++ String dquote EmptyString) ++ rest)).
    rewrite parse_value_string, string_app_assoc.
    change (String dquote EmptyString ++ rest) with (String dquote rest).
    rewrite parse_chars_quote_chars. reflexivity.
  - rewrite stringify_arr.
    change (String "[" (stringify_elements l ++ "]") ++ rest)
      with (String "[" ((stringify_elements l ++ "]") ++ rest)).
    rewrite string_app_assoc. change ("]" ++ rest) with (String "]" rest).
    rewrite parse_value_array.
    destruct l as [|v l]; [reflexivity|].
    assert (exists c r, stringify_elements (v :: l) ++ String "]" rest = String c r
                        /\ value_start c = true) as (c & r & E & Hc).
    { destruct l as [|v' l'].
      - apply stringify_head.
      - change (stringify_elements (v :: v' :: l'))
          with (stringify v ++ String "," (stringify_elements (v' :: l'))).
        rewrite string_app_assoc. apply stringify_head. }
    rewrite E, (value_start_not_ws c r Hc).
    destruct (value_start_not_closing c Hc) as [-> _].
    rewrite <- E.
    rewrite parse_elements_stringify; [reflexivity | congruence | exact IH | exact Hwf |].
    change (size (JArr (v :: l))) with (S (size_elements (v :: l))) in Hfuel. lia.
  - rewrite stringify_obj.
    change (String "{" (stringify_members m ++ "}") ++ rest)
      with (String "{" ((stringify_members m ++ "}") ++ rest)).
    rewrite string_app_assoc. change ("}" ++ rest) with (String "}" rest).
    rewrite parse_value_object.
    destruct m as [|[k v] m]; [reflexivity|].
    simpl in Hwf. apply andb_true_iff in Hwf. destruct Hwf as [Hd Hwf].
    assert (exists r, stringify_members ((k, v) :: m) ++ String "}" rest = String dquote r)
      as (r & E).
    { destruct m as [|[k' v'] m']; eexists; reflexivity. }
    rewrite E.
    change (skip_ws (String dquote r)) with (String dquote r).
    cbv iota. change (Ascii.eqb dquote "}") with false. cbv iota.
    rewrite <- E.
    rewrite parse_members_stringify; [| congruence | exact IH | exact Hwf |].
    + simpl. rewrite object_of_distinct; [reflexivity | exact Hd].
    + change (size (JObj ((k, v) :: m))) with (S (size_members ((k, v) :: m))) in Hfuel. lia.
Qed.

(** The text of a value is at least as long as the value is big. *)
Lemma quote_length (s : string) : (2 <= String.length (quote s))%nat.
Proof. unfold quote. simpl. rewrite string_length_app. simpl. lia. Qed.

Lemma size_le_length (v : value) : (size v <= String.length (stringify v))%nat.
Proof.
  induction v as [|b|z|s|l IH|m IH] using value_induction.
  - simpl. lia.
  - destruct b; simpl; lia.
  - change (stringify (JNum z)) with (print_int z).
    destruct (print_int_head z EmptyString) as (c & r & E & _).
    rewrite string_app_nil_r in E. rewrite E. simpl. lia.
  - pose proof (quote_length s). simpl size. simpl stringify. lia.
  - rewrite stringify_arr. change (size (JArr l)) with (S (size_elements l)).
    change (String.length (String "[" ?x)) with (S (String.length x)).
    rewrite string_length_app. change (String.length "]") with 1%nat.
    enough (size_elements l <= String.length (stringify_elements l) + 1)%nat by lia.
    induction l as [|v l IHl]; [simpl; lia|].
    inversion IH as [|? ? Hv IH']; subst. specialize (IHl IH').
    destruct l as [|v' l'].
    + change (size_elements [v]) with (S (size v + 0)).
      change (stringify_elements [v]) with (stringify v). lia.
    + change (size_elements (v :: v' :: l'))
        with (S (size v + size_elements (v' :: l'))).
      change (stringify_elements (v :: v' :: l'))
        with (stringify v ++ String "," (stringify_elements (v' :: l'))).
      rewrite string_length_app.
      change (String.length (String "," ?x)) with (S (String.length x)). lia.
  - rewrite stringify_obj. change (size (JObj m)) with (S (size_members m)).
    change (String.length (String "{" ?x)) with (S (String.length x)).
    rewrite string_length_app. change (String.length "}") with 1%nat.
    enough (size_members m <= String.length (stringify_members m) + 1)%nat by lia.
    induction m as [|[k v] m IHm]; [simpl; lia|].
    inversion IH as [|? ? Hv IH']; subst. specialize (IHm IH'). simpl in Hv.
    pose proof (quote_length k) as Hk.
    destruct m as [|[k' v'] m'].
    + change (size_members [(k, v)]) with (S (size v + 0)).
      change (stringify_members [(k, v)]) with (quote k ++ String ":" (stringify v)).
      rewrite string_length_app.
      change (String.length (String ":" ?x)) with (S (String.length x)). lia.
    + change (size_members ((k, v) :: (k', v') :: m'))
        with (S (size v + size_members ((k', v') :: m'))).
      change (stringify_members ((k, v) :: (k', v') :: m'))
        with (quote k ++ String ":" (stringify v
                ++ String "," (stringify_members ((k', v') :: m')))).
      rewrite string_length_app.
      change (String.length (String ":" ?x)) with (S (String.length x)).
      rewrite string_length_app.
      change (String.length (String "," ?x)) with (S (String.length x)). lia.
Qed.

(** [JSON.parse(JSON.stringify(v))] is [v]. *)
Lemma parse_stringify (v : value) :
  well_formed v = true -> parse (stringify v) = Some v.
Proof.
  intros Hwf. unfold parse.
  pose proof (size_le_length v) as Hsize.
  pose proof (parse_value_stringify v Hwf (S (String.length (stringify v))) EmptyString) as H.
  rewrite string_app_nil_r in H. rewrite H by (try reflexivity; lia). reflexivity.
Qed.

End JSONFacts.

(** ** The envelope codec *)

Import JSONSpec JSONFacts.

Lemma includes_char (s : string) (c : ascii) :
  includes s (String c EmptyString) = true <-> In c (list_ascii_of_string s).
Proof.
  induction s as [|x s IH]; simpl.
  - split; [discriminate | contradiction].
  - rewrite orb_true_iff, IH. destruct (ascii_dec c x) as [->|Hne].
    + split; intros _; [left; reflexivity|].
      left. destruct s; reflexivity.
    + split.
      * intros [H|H]; [discriminate H | right; exact H].
      * intros [H|H]; [congruence | right; exact H].
Qed.

Lemma startsWith_char (s : string) (c : ascii) :
  startsWith s (String c EmptyString) = true <-> exists r, s = String c r.
Proof.
  unfold startsWith. destruct s as [|x s]; simpl.
  - split; [discriminate | intros [r H]; discriminate H].
  - destruct (ascii_dec c x) as [->|Hne].
    + split; [intros _; eexists; reflexivity | intros _; destruct s; reflexivity].
    + split; [discriminate | intros [r H]; congruence].
Qed.

Lemma list_includes_In (l : list string) (x : string) :
  list_includes l x = true <-> In x l.
Proof.
  unfold list_includes. rewrite existsb_exists. split.
  - intros (y & Hy & E). apply String.eqb_eq in E. subst. exact Hy.
  - intros H. exists x. split; [exact H | apply String.eqb_refl].
Qed.

(** C7: [isValidEventName] answers false on the empty string, on a string that
    starts with the sentinel [$], on a string that holds a null character and
    on the six reserved control names, and on nothing else. *)
Theorem isValidEventName_rejects_exactly (e : string) :
  isValidEventName e = false <->
  e = EmptyString
  \/ (exists r, e = String "$" r)
  \/ In nul (list_ascii_of_string e)
  \/ In e ["connect"; "disconnect"; "error"; "connecting"; "reconnecting";
           "reconnect_failed"].
Proof.
  unfold isValidEventName.
  destruct e as [|c e'] eqn:E.
  - simpl. split; [left; reflexivity | reflexivity].
  - rewrite <- E.
    replace (String.length e =? 0)%nat with false by (subst e; reflexivity).
    destruct (startsWith e "$") eqn:Hs.
    + simpl. split; [|reflexivity]. intros _. right. left.
      apply startsWith_char. exact Hs.
    + destruct (includes e (String nul EmptyString)) eqn:Hi.
      * simpl. split; [|reflexivity]. intros _. right. right. left.
        apply includes_char. exact Hi.
      * cbn [orb]. rewrite negb_false_iff, list_includes_In. unfold reservedEvents.
        split.
        -- intros H. right. right. right. exact H.
        -- intros [H|[H|[H|H]]]; [subst e; discriminate H | | | exact H].
           ++ apply startsWith_char in H. congruence.
           ++ apply includes_char in H. congruence.
Qed.

Lemma valid_event_nonempty (e : string) :
  isValidEventName e = true -> String.eqb e EmptyString = false.
Proof. destruct e; [discriminate | reflexivity]. Qed.

Lemma normalization_of_the_code_ok (d : option value) :
  normalizeData d = normalization_of_the_code d.
Proof.
  destruct d as [[|b|z|s|l|m]|]; try reflexivity.
  - destruct b; reflexivity.
  - simpl. destruct (z =? 0)%Z; reflexivity.
  - simpl. destruct (String.eqb s EmptyString); reflexivity.
Qed.

(** What [deserializeMessage] accepts, and what it returns then. *)
Lemma deserializeMessage_Ok (payload : string) (m : Message) :
  deserializeMessage payload = Ok m ->
  exists o name,
    JSON.parse payload = Some (JObj o)
    /\ obj_get o "event" = Some (JStr name)
    /\ isValidEventName name = true
    /\ (Z.of_nat (String.length payload) <= MAX_MESSAGE_LENGTH)%Z
    /\ m = mkMessage name (Some (JArr (normalizeData (obj_get o "data"))))
                     (obj_get o "id") (obj_get o "timestamp").
Proof.
  unfold deserializeMessage, deserializeMessage_body.
  destruct (Z.of_nat (String.length payload) >? MAX_MESSAGE_LENGTH)%Z eqn:Hlen;
    [discriminate|].
  destruct (JSON.parse payload) as [parsed|] eqn:Hp; [|discriminate].
  destruct parsed as [|b|z|s|l|o]; simpl; try discriminate.
  destruct (obj_get o "event") as [[|b|z|name|l|o']|] eqn:He; try discriminate.
  destruct (truthy (Some (JStr name))); simpl; [|discriminate].
  destruct (isValidEventName name) eqn:Hv; simpl; [|discriminate].
  intros H. injection H as <-.
  rewrite Z.gtb_ltb in Hlen. apply Z.ltb_ge in Hlen.
  exists o, name. repeat split; assumption.
Qed.

(** C2, amended: a payload that [deserializeMessage] accepts is an object, and
    the [data] of the result is the sequence that the code's rule makes of the
    payload's [data]: a sequence is kept, an absent [data] gives the empty
    sequence, a falsy bare value (null, false, 0, the empty string) gives the
    empty sequence too, and any other bare value gives the one-element
    sequence of that value. *)
Theorem deserializeMessage_normalizes_data (payload : string) (m : Message) :
  deserializeMessage payload = Ok m ->
  exists parsed,
    JSON.parse payload = Some parsed
    /\ data m = Some (JArr (normalization_of_the_code (wire_data parsed))).
Proof.
  intros H. apply deserializeMessage_Ok in H.
  destruct H as (o & name & Hp & _ & _ & _ & ->).
  exists (JObj o). split; [exact Hp|].
  simpl. rewrite normalization_of_the_code_ok. reflexivity.
Qed.

Lemma deserializeMessage_normalizes_data_witness :
  let payload := js "{'event':'chat','data':'hi'}" in
  let m := mkMessage "chat" (Some (JArr [JStr "hi"])) None None in
  deserializeMessage payload = Ok m
  /\ exists parsed,
       JSON.parse payload = Some parsed
       /\ data m = Some (JArr (normalization_of_the_code (wire_data parsed))).
Proof.
  intros payload m.
  assert (deserializeMessage payload = Ok m) as H by (vm_compute; reflexivity).
  split; [exact H | exact (deserializeMessage_normalizes_data payload m H)].
Defined.

(** C2 as stated fails: the bare values 0, false, the empty string and null
    are accepted and come out as the empty sequence, not as one-element
    sequences. *)
Lemma deserializeMessage_drops_falsy_data :
  (deserializeMessage (js "{'event':'x','data':0}")
     = Ok (mkMessage "x" (Some (JArr [])) None None)
   /\ JSON.parse (js "{'event':'x','data':0}")
      = Some (JObj [("event", JStr "x"); ("data", JNum 0)])
   /\ normalization_as_specified (Some (JNum 0)) = [JNum 0])
  /\ deserializeMessage (js "{'event':'x','data':false}")
     = Ok (mkMessage "x" (Some (JArr [])) None None)
  /\ deserializeMessage (js "{'event':'x','data':''}")
     = Ok (mkMessage "x" (Some (JArr [])) None None)
  /\ deserializeMessage (js "{'event':'x','data':null}")
     = Ok (mkMessage "x" (Some (JArr [])) None None).
Proof. vm_compute. repeat split; reflexivity. Qed.

Lemma toObject_get_event (m : Message) :
  get_prop (toObject m) "event" = Ok (Some (JStr (event m))).
Proof. reflexivity. Qed.

Lemma toObject_get_data (m : Message) :
  get_prop (toObject m) "data" = Ok (data m).
Proof. destruct m as [e [d|] [i|] [t|]]; reflexivity. Qed.

Lemma asMessage_toObject (m : Message) (l : list value) :
  asMessage (event m) (toObject m) l
  = mkMessage (event m) (Some (JArr l)) (id m) (timestamp m).
Proof. destruct m as [e [d|] [i|] [t|]]; reflexivity. Qed.

(** C6, amended: for an envelope with a valid event name whose members are
    values of JS and whose encoding is not longer than 1 MiB, decoding the
    encoding gives the envelope back with [data] normalized by the code's
    rule; in particular an envelope whose [data] is a sequence comes back
    unchanged. *)
Theorem decode_encode_round_trip (m : Message) :
  isValidEventName (event m) = true ->
  serializable m = true ->
  (Z.of_nat (String.length (serializeMessage m)) <= MAX_MESSAGE_LENGTH)%Z ->
  deserializeMessage (serializeMessage m)
  = Ok (mkMessage (event m) (Some (JArr (normalization_of_the_code (data m))))
                  (id m) (timestamp m))
  /\ (forall l, data m = Some (JArr l) ->
      deserializeMessage (serializeMessage m) = Ok m).
Proof.
  intros Hvalid Hser Hlen.
  assert (deserializeMessage (serializeMessage m)
          = Ok (mkMessage (event m) (Some (JArr (normalization_of_the_code (data m))))
                          (id m) (timestamp m))) as Hmain.
  { unfold deserializeMessage, deserializeMessage_body.
    replace (Z.of_nat (String.length (serializeMessage m)) >? MAX_MESSAGE_LENGTH)%Z
      with false by (symmetry; rewrite Z.gtb_ltb; apply Z.ltb_ge; exact Hlen).
    unfold serializeMessage. rewrite (parse_stringify _ Hser).
    rewrite toObject_get_event.
    replace (truthy (Some (JStr (event m)))) with true
      by (simpl; now rewrite (valid_event_nonempty _ Hvalid)).
    rewrite Hvalid. cbn [negb].
    rewrite toObject_get_data, asMessage_toObject, normalization_of_the_code_ok.
    reflexivity. }
  split; [exact Hmain|].
  intros l Hl. rewrite Hmain, Hl. destruct m; simpl in *; congruence.
Qed.

Lemma decode_encode_round_trip_witness :
  let m := mkMessage "chat" (Some (JArr [JStr "hi"; JNum 7; JObj [("k", JNull)]]))
                     (Some (JStr "m1")) (Some (JNum 1700000000000)) in
  (isValidEventName (event m) = true
   /\ serializable m = true
   /\ (Z.of_nat (String.length (serializeMessage m)) <= MAX_MESSAGE_LENGTH)%Z)
  /\ serializeMessage m
     = js "{'event':'chat','data':['hi',7,{'k':null}],'id':'m1','timestamp':1700000000000}"
  /\ deserializeMessage (serializeMessage m) = Ok m.
Proof.
  intros m.
  assert (isValidEventName (event m) = true) as H1 by reflexivity.
  assert (serializable m = true) as H2 by reflexivity.
  assert (Z.of_nat (String.length (serializeMessage m)) <= MAX_MESSAGE_LENGTH)%Z as H3
    by (vm_compute; discriminate).
  split; [auto|]. split; [reflexivity|].
  exact (proj2 (decode_encode_round_trip m H1 H2 H3) _ eq_refl).
Defined.

Lemma quote_char_length (c : ascii) : (1 <= String.length (quote_char c))%nat.
Proof. destruct c as [[] [] [] [] [] [] [] []]; simpl; lia. Qed.

Lemma quote_chars_length (s : string) :
  (String.length s <= String.length (quote_chars s))%nat.
Proof.
  induction s as [|c s IH]; simpl; [lia|].
  rewrite string_length_app. pose proof (quote_char_length c). lia.
Qed.

Lemma replicate_length (n : nat) (c : ascii) : String.length (replicate n c) = n.
Proof. induction n as [|n IH]; simpl; [reflexivity | now rewrite IH]. Qed.

Lemma deserializeMessage_too_large (payload : string) :
  (MAX_MESSAGE_LENGTH < Z.of_nat (String.length payload))%Z ->
  deserializeMessage payload
  = Throw (Wrapped "Failed to deserialize message: " (Error "Message too large")).
Proof.
  intros H. unfold deserializeMessage, deserializeMessage_body.
  replace (Z.of_nat (String.length payload) >? MAX_MESSAGE_LENGTH)%Z with true
    by (symmetry; rewrite Z.gtb_ltb; apply Z.ltb_lt; exact H).
  reflexivity.
Qed.

Lemma serialized_string_argument_length (s : string) :
  (String.length s
   < String.length (serializeMessage (mkMessage "x" (Some (JArr [JStr s])) None None)))%nat.
Proof.
  pose proof (quote_chars_length s).
  unfold serializeMessage, toObject. simpl.
  repeat (rewrite ?string_length_app; simpl String.length).
  lia.
Qed.

(** C6 as stated fails: an envelope with a valid event name and a printable
    argument of 1 MiB is encoded, and the decoder rejects the encoding as too
    large; and an envelope whose [data] is the bare value 0 comes back with
    the empty sequence, where the specified rule gives the one-element
    sequence of 0. *)
Lemma decode_encode_not_identity :
  (isValidEventName (event oversize_envelope) = true
   /\ serializable oversize_envelope = true
   /\ deserializeMessage (serializeMessage oversize_envelope)
      = Throw (Wrapped "Failed to deserialize message: " (Error "Message too large")))
  /\ (let m := mkMessage "x" (Some (JNum 0)) None None in
      isValidEventName (event m) = true
      /\ serializable m = true
      /\ deserializeMessage (serializeMessage m)
         = Ok (mkMessage "x" (Some (JArr [])) None None)
      /\ normalization_as_specified (data m) = [JNum 0]).
Proof.
  split; [split; [reflexivity | split; [reflexivity|]] |].
  - apply deserializeMessage_too_large.
    pose proof (serialized_string_argument_length
                  (replicate (Z.to_nat MAX_MESSAGE_LENGTH) "a")) as H.
    rewrite replicate_length in H. unfold oversize_envelope.
    apply Nat2Z.inj_lt in H. rewrite Z2Nat.id in H; [exact H|].
    unfold MAX_MESSAGE_LENGTH. lia.
  - vm_compute. repeat split; reflexivity.
Qed.

(** ** Examples of the codec *)

Example stringify_example :
  stringify (JObj [("event", JStr "x");
                   ("data", JArr [JNum 1; JNum (-20); JNull; JBool true; JStr "a"])])
  = js "{'event':'x','data':[1,-20,null,true,'a']}".
Proof. reflexivity. Qed.

Example parse_example :
  JSON.parse (js " { 'a' : [ 1 , -20, 'b\u0041\n' ] , 'c':{}, 'c': false } ")
  = Some (JObj [("a", JArr [JNum 1; JNum (-20);
                            JStr ("bA" ++ String "010"%char EmptyString)]);
                ("c", JBool false)]).
Proof. vm_compute. reflexivity. Qed.

Example parse_rejects_leading_zero : JSON.parse "[01]" = None.
Proof. reflexivity. Qed.

Example deserialize_example :
  deserializeMessage (js "{'event':'x','data':'hi','id':'7'}")
  = Ok (mkMessage "x" (Some (JArr [JStr "hi"])) (Some (JStr "7")) None).
Proof. vm_compute. reflexivity. Qed.

Example deserialize_reserved_name :
  deserializeMessage (js "{'event':'connect','data':[]}")
  = Throw (Wrapped "Failed to deserialize message: "
                   (Error "Invalid event name: connect")).
Proof. vm_compute. reflexivity. Qed.

Example deserialize_null :
  deserializeMessage "null" = Throw (Wrapped "Failed to deserialize message: " TypeError).
Proof. vm_compute. reflexivity. Qed.

(** ** Computations that keep an invariant *)

Module MonadFacts.

Section Preservation.
Context {S : Type}.
Variable I : S -> Prop.

Lemma preserves_ret {A} (a : A) : preserves I (ret a).
Proof. intros w H. exact H. Qed.

Lemma preserves_throw {A} (e : exn) : preserves I (@throw S A e).
Proof. intros w H. exact H. Qed.

Lemma preserves_gets {A} (f : S -> A) : preserves I (gets f).
Proof. intros w H. exact H. Qed.

Lemma preserves_bind {A B} (m : M S A) (k : A -> M S B) :
  preserves I m -> (forall a, preserves I (k a)) -> preserves I (bind m k).
Proof.
  intros Hm Hk w H. unfold bind. specialize (Hm w H).
  destruct (m w) as [w' [a|e]]; simpl in *; [apply Hk; exact Hm | exact Hm].
Qed.

Lemma preserves_try_catch {A} (body : M S A) (handler : exn -> M S A) :
  preserves I body -> (forall e, preserves I (handler e)) ->
  preserves I (try_catch body handler).
Proof.
  intros Hb Hh w H. unfold try_catch. specialize (Hb w H).
  destruct (body w) as [w' [a|e]]; simpl in *; [exact Hb | apply Hh; exact Hb].
Qed.

Lemma preserves_for_of {X} (xs : list X) (body : X -> M S unit) :
  (forall x, preserves I (body x)) -> preserves I (for_of xs body).
Proof.
  intros Hb. induction xs as [|x xs IH]; simpl.
  - apply preserves_ret.
  - apply preserves_bind; [apply Hb | intros _; exact IH].
Qed.

Lemma preserves_modify (f : S -> S) :
  (forall s, I s -> I (f s)) -> preserves I (modify f).
Proof. intros H s Hs. apply H. exact Hs. Qed.

End Preservation.

End MonadFacts.

(** ** The client *)

Module ClientFacts.
Import Client ClientSpec.

(** C10: [connect()] on a client that is connected or connecting resolves at
    once and leaves the whole world as it was: no socket is created, nothing
    is notified, and the state, the attempt counter and the queue keep their
    values. *)
Theorem connect_when_connected_or_connecting (w : World) :
  state (client w) = CONNECTED \/ state (client w) = CONNECTING ->
  connect w = (w, Ok AlreadyResolved).
Proof.
  intros H. unfold connect, bind, gets.
  destruct H as [H|H]; rewrite H; reflexivity.
Qed.

Lemma connect_when_connected_or_connecting_witness :
  let w := fst (new_NanoSocketClient (mkClientOptions None None None None None)
                                     true 0 (fun _ => "id")) in
  (state (client w) = CONNECTED \/ state (client w) = CONNECTING)
  /\ connect w = (w, Ok AlreadyResolved).
Proof.
  intros w.
  assert (state (client w) = CONNECTED \/ state (client w) = CONNECTING) as H
    by (right; reflexivity).
  split; [exact H | exact (connect_when_connected_or_connecting w H)].
Defined.

(** The cause: [reconnect_failed] is not among the names that [emit] hands to
    the emitter, and it is a reserved name, so emitting it always throws and
    notifies nothing. *)
Lemma emit_reconnect_failed_throws (args : list arg) (w : World) :
  emit "reconnect_failed" args w
  = (w, Throw (Error "Invalid event name: reconnect_failed")).
Proof. reflexivity. Qed.

(** C5, on the code: with [reconnectionAttempts = 2] and
    [reconnectionDelay = 100], when every transport connection is closed at
    once with code 1006, the client notifies [reconnecting] with 1 and then
    with 2 and ends disconnected with nothing pending; the third close makes
    [emit('reconnect_failed')] throw, and no [reconnect_failed] notification
    is ever made. *)
Theorem reconnect_failed_is_thrown_not_notified (now : Z) (gen : nat -> string)
  (more : nat) :
  let w0 := fst (new_NanoSocketClient
                   (mkClientOptions None None (Some 2%Z) (Some 100%Z) None)
                   true now gen) in
  let (w, outcomes) := close_every_connection (3 + more) w0 in
  log w = [("connecting", []);
           ("disconnect", [AValue (JStr "Connection closed")]);
           ("reconnecting", [AValue (JNum 1)]);
           ("connecting", []);
           ("disconnect", [AValue (JStr "Connection closed")]);
           ("reconnecting", [AValue (JNum 2)]);
           ("connecting", []);
           ("disconnect", [AValue (JStr "Connection closed")])]
  /\ outcomes = [Ok tt; Ok tt; Ok tt; Ok tt;
                 Throw (Error "Invalid event name: reconnect_failed")]
  /\ notifications "reconnecting" w = [[AValue (JNum 1)]; [AValue (JNum 2)]]
  /\ notifications "reconnect_failed" w = []
  /\ state (client w) = DISCONNECTED
  /\ ws (client w) = None
  /\ timers w = [].
Proof.
  vm_compute. repeat split; reflexivity.
Qed.

(** The same client with a transport that opens each connection before it
    closes it: every open resets the attempt counter, so the client notifies
    [reconnecting] with 1 again and again and the limit is never reached. *)
Example reconnect_counter_is_reset_on_open :
  let w0 := fst (new_NanoSocketClient
                   (mkClientOptions None None (Some 2%Z) (Some 100%Z) None)
                   true 0 (fun _ => EmptyString)) in
  let (w, outcomes) := open_and_close_every_connection 4 w0 in
  notifications "reconnecting" w
  = [[AValue (JNum 1)]; [AValue (JNum 1)]; [AValue (JNum 1)]; [AValue (JNum 1)]]
  /\ notifications "reconnect_failed" w = []
  /\ state (client w) = CONNECTING
  /\ Forall (fun r => r = Ok tt) outcomes.
Proof. vm_compute. repeat split; repeat constructor. Qed.


(** *** Queueing while not connected, flushing on open *)

Ltac run_monad :=
  unfold bind, gets, modify, ret, throw, try_catch, modify_client, update_socket.

Lemma update_nth_ext {A} (f g : A -> A) (k : nat) (l : list A) :
  (forall x, f x = g x) -> update_nth k f l = update_nth k g l.
Proof.
  intros H. revert k. induction l as [|x l IH]; intros [|k]; simpl; try reflexivity.
  - now rewrite H.
  - now rewrite IH.
Qed.

Lemma update_nth_id {A} (f : A -> A) (k : nat) (l : list A) :
  (forall x, f x = x) -> update_nth k f l = l.
Proof.
  intros H. revert k. induction l as [|x l IH]; intros [|k]; simpl; try reflexivity.
  - now rewrite H.
  - now rewrite IH.
Qed.

Lemma update_nth_twice {A} (f g : A -> A) (k : nat) (l : list A) :
  update_nth k f (update_nth k g l)
  = update_nth k (fun x => f (g x)) l.
Proof.
  revert k. induction l as [|x l IH]; intros [|k]; simpl; try reflexivity.
  now rewrite IH.
Qed.

Lemma nth_error_update_nth {A} (f : A -> A) (k : nat) (l : list A) (x : A) :
  nth_error l k = Some x -> nth_error (update_nth k f l) k = Some (f x).
Proof.
  revert k. induction l as [|y l IH]; intros [|k]; simpl; try discriminate.
  - now intros [= ->].
  - apply IH.
Qed.

Lemma nth_error_update_nth_other {A} (f : A -> A) (k j : nat) (l : list A) :
  j <> k -> nth_error (update_nth k f l) j = nth_error l j.
Proof.
  revert k j. induction l as [|y l IH]; intros [|k] [|j] H; simpl; try reflexivity.
  - congruence.
  - apply IH. congruence.
Qed.

Lemma values_of_AValue (args : list value) : values_of (map AValue args) = Some args.
Proof. induction args as [|v l IH]; simpl; [reflexivity | now rewrite IH]. Qed.

Lemma valid_event_is_not_passed_through (event : string) :
  isValidEventName event = true ->
  String.eqb event "connect" || String.eqb event "disconnect"
  || String.eqb event "error" || String.eqb event "connecting"
  || String.eqb event "reconnecting" = false.
Proof.
  intros H.
  repeat match goal with
         | |- context [String.eqb event ?n] =>
             destruct (String.eqb_spec event n) as [->|_]; [discriminate H|]
         end.
  reflexivity.
Qed.

Lemma serializeMessage_nonempty (m : Message) : serializeMessage m <> EmptyString.
Proof. discriminate. Qed.

(** One [emit] of an application event while not connected. *)
Lemma emit_not_connected (w : World) (event : string) (args : list value) :
  state (client w) <> CONNECTED ->
  isValidEventName event = true ->
  emit event (map AValue args) w
  = (mkWorld (set_messageQueue
                (messageQueue (client w)
                   ++ [serializeMessage
                         (mkMessage event (Some (JArr args))
                                    (Some (JStr (ids w (fresh w))))
                                    (Some (JNum (clock w))))])%list
                (client w))
             (sockets w) (timers w) (nextTimer w) (log w) (urlValid w)
             (clock w) (ids w) (S (fresh w)),
     Ok true).
Proof.
  intros Hstate Hvalid. unfold emit.
  rewrite (valid_event_is_not_passed_through _ Hvalid), Hvalid. cbn [negb].
  unfold generateId, Date_now. run_monad. cbn [clock ids fresh client].
  rewrite values_of_AValue. cbn [client].
  destruct (state (client w)) eqn:Hs; try congruence; reflexivity.
Qed.

Lemma frames_from_shift (w w' : World) (i j : nat) (es : list (string * list value)) :
  ids w' = ids w -> clock w' = clock w -> fresh w' = (fresh w + i)%nat ->
  frames_from w' j es = frames_from w (i + j) es.
Proof.
  intros Hi Hc Hf. revert j. induction es as [|[event args] es IH]; intros j; simpl.
  - reflexivity.
  - rewrite Hi, Hc, Hf, IH.
    replace (fresh w + i + j)%nat with (fresh w + (i + j))%nat by lia.
    replace (i + S j)%nat with (S (i + j)) by lia. reflexivity.
Qed.

Lemma emit_all_not_connected (es : list (string * list value)) (w : World) :
  state (client w) <> CONNECTED ->
  Forall (fun e => isValidEventName (fst e) = true) es ->
  emit_all es w
  = (mkWorld (set_messageQueue
                (messageQueue (client w) ++ frames_from w 0 es)%list (client w))
             (sockets w) (timers w) (nextTimer w) (log w) (urlValid w)
             (clock w) (ids w) (fresh w + List.length es)%nat,
     Ok tt).
Proof.
  revert w. induction es as [|[event args] es IH]; intros w Hstate Hvalid.
  - simpl. unfold ret. rewrite List.app_nil_r, Nat.add_0_r.
    destruct w as [[] ? ? ? ? ? ? ? ?]; reflexivity.
  - inversion Hvalid as [|? ? Hv Hvs]; subst. simpl in Hv.
    cbn [emit_all]. unfold bind at 1. rewrite (emit_not_connected w event args Hstate Hv).
    rewrite IH; [| exact Hstate | exact Hvs].
    cbn [client sockets timers nextTimer log urlValid clock ids fresh
         set_messageQueue messageQueue ws options state reconnectTimer
         reconnectAttempts listeners].
    rewrite <- List.app_assoc. cbn [app frames_from List.length].
    rewrite (frames_from_shift w _ 1 0 es)
      by (cbn [ids clock fresh]; first [reflexivity | lia]).
    replace (fresh w + 0)%nat with (fresh w) by lia.
    replace (fresh w + S (List.length es))%nat with (S (fresh w + List.length es)) by lia.
    reflexivity.
Qed.

Lemma with_sent_nil (s : WebSocket) : with_sent s [] = s.
Proof. destruct s. unfold with_sent. simpl. now rewrite List.app_nil_r. Qed.

Lemma flushMessageQueue_loop_sends (k : nat) (q : list string) :
  forall (w : World) (s : WebSocket),
    messageQueue (client w) = q ->
    ws (client w) = Some k ->
    state (client w) = CONNECTED ->
    nth_error (sockets w) k = Some s ->
    readyState s = WS_OPEN ->
    Forall (fun f => f <> EmptyString) q ->
    flushMessageQueue_loop (List.length q) w
    = (mkWorld (set_messageQueue [] (client w))
               (update_nth k (fun s => with_sent s q) (sockets w))
               (timers w) (nextTimer w) (log w) (urlValid w)
               (clock w) (ids w) (fresh w),
       Ok tt).
Proof.
  induction q as [|m q IH]; intros w s Hq Hws Hst Hs Hopen Hne.
  - simpl. unfold ret. rewrite (update_nth_id _ _ _ with_sent_nil).
    destruct w as [[] ? ? ? ? ? ? ? ?]. simpl in *. subst. reflexivity.
  - inversion Hne as [|? ? Hm Hne']; subst.
    cbn [flushMessageQueue_loop List.length]. run_monad.
    rewrite Hq, Hws, Hst. cbn [ConnectionState_eqb].
    apply String.eqb_neq in Hm. rewrite Hm. cbn [negb].
    unfold WebSocket_send. simpl. rewrite Hs, Hopen.
    rewrite (IH _ (with_sent s [m]));
      cbn [client set_client set_sockets messageQueue set_messageQueue
           ws state sockets timers nextTimer log urlValid clock ids fresh];
      try reflexivity; try assumption.
    + rewrite update_nth_twice. do 2 f_equal.
      apply update_nth_ext. intros x. unfold with_sent. simpl.
      now rewrite <- List.app_assoc.
    + apply (nth_error_update_nth (fun s => with_sent s [m])). exact Hs.
Qed.


Lemma onopen_flushes (w : World) (k : nat) (s : WebSocket) :
  nth_error (sockets w) k = Some s ->
  readyState s = WS_OPEN ->
  ws (client w) = Some k ->
  Forall (fun f => f <> EmptyString) (messageQueue (client w)) ->
  exists w',
    onopen k w = (w', Ok tt)
    /\ state (client w') = CONNECTED
    /\ reconnectAttempts (client w') = 0%Z
    /\ messageQueue (client w') = []
    /\ log w' = (log w ++ [("connect", [])])%list
    /\ (exists s', nth_error (sockets w') k = Some s'
                   /\ sent s' = (sent s ++ messageQueue (client w))%list)
    /\ (forall j, j <> k -> nth_error (sockets w') j = nth_error (sockets w) j).
Proof.
  intros Hs Hopen Hws Hq.
  unfold onopen. run_monad. rewrite Hs.
  unfold clearTimeout, emit, super_emit, flushMessageQueue, resolve. run_monad.
  cbn [String.eqb Ascii.eqb Bool.eqb orb andb EventEmitter_emit].
  match goal with
  | |- context [flushMessageQueue_loop _ ?x] => set (w1 := x)
  end.
  change (messageQueue (client w1)) with (messageQueue (client w)).
  rewrite (flushMessageQueue_loop_sends k (messageQueue (client w)) w1 s)
    by (try reflexivity; assumption).
  unfold modify. eexists. split; [reflexivity|].
  cbn [client sockets log set_sockets set_client state reconnectAttempts messageQueue
       set_messageQueue].
  repeat split; try reflexivity.
  - eexists. split.
    + apply nth_error_update_nth. apply nth_error_update_nth. exact Hs.
    + destruct s as [r snt h c t [| |e] o]; reflexivity.
  - intros j Hj. rewrite !nth_error_update_nth_other by exact Hj. reflexivity.
Qed.


(** *** The queue holds encodings only *)

Import MonadFacts.

Lemma keeps_client_preserves {A} (m : St A) :
  keeps_client m -> preserves queue_holds_frames m.
Proof. intros H w Hw. unfold queue_holds_frames. rewrite H. exact Hw. Qed.

Lemma preserves_modify_client (f : NanoSocketClient -> NanoSocketClient) :
  (forall c, messageQueue (f c) = messageQueue c) ->
  preserves queue_holds_frames (modify_client f).
Proof. intros Hf w H. unfold queue_holds_frames in *. simpl. rewrite Hf. exact H. Qed.

Lemma keeps_update_socket k f : keeps_client (update_socket k f).
Proof. intros w. reflexivity. Qed.

Lemma keeps_setTimeout k ms : keeps_client (setTimeout k ms).
Proof. intros w. reflexivity. Qed.

Lemma keeps_clearTimeout t : keeps_client (clearTimeout t).
Proof. intros w. reflexivity. Qed.

Lemma keeps_WebSocket_send k data : keeps_client (WebSocket_send k data).
Proof.
  intros w. unfold WebSocket_send. destruct (nth_error (sockets w) k) as [s|]; [|reflexivity].
  destruct (readyState s); reflexivity.
Qed.

Lemma keeps_super_emit event args : keeps_client (super_emit event args).
Proof. intros w. reflexivity. Qed.

Lemma keeps_client_generateId : keeps_client generateId.
Proof. intros w. reflexivity. Qed.

Create HintDb queue.

#[local] Hint Resolve preserves_ret preserves_throw preserves_gets preserves_bind
  preserves_try_catch : queue.
#[local] Hint Extern 1 (preserves queue_holds_frames (update_socket _ _)) =>
  apply keeps_client_preserves, keeps_update_socket : queue.
#[local] Hint Extern 1 (preserves queue_holds_frames (WebSocket_close _ _)) =>
  apply keeps_client_preserves, keeps_update_socket : queue.
#[local] Hint Extern 1 (preserves queue_holds_frames (resolve _)) =>
  apply keeps_client_preserves, keeps_update_socket : queue.
#[local] Hint Extern 1 (preserves queue_holds_frames (setTimeout _ _)) =>
  apply keeps_client_preserves, keeps_setTimeout : queue.
#[local] Hint Extern 1 (preserves queue_holds_frames (clearTimeout _)) =>
  apply keeps_client_preserves, keeps_clearTimeout : queue.
#[local] Hint Extern 1 (preserves queue_holds_frames (WebSocket_send _ _)) =>
  apply keeps_client_preserves, keeps_WebSocket_send : queue.
#[local] Hint Extern 1 (preserves queue_holds_frames (super_emit _ _)) =>
  apply keeps_client_preserves, keeps_super_emit : queue.
#[local] Hint Extern 1 (preserves queue_holds_frames generateId) =>
  apply keeps_client_preserves, keeps_client_generateId : queue.
#[local] Hint Extern 1 (preserves queue_holds_frames Date_now) =>
  apply preserves_gets : queue.
#[local] Hint Extern 1 (preserves queue_holds_frames (modify_client _)) =>
  apply preserves_modify_client; reflexivity : queue.
#[local] Hint Extern 2 (preserves queue_holds_frames (if ?b then _ else _)) =>
  destruct b : queue.
#[local] Hint Extern 2 (preserves queue_holds_frames (match ?x with Some _ => _ | None => _ end)) =>
  destruct x : queue.

Lemma preserves_emit event args : preserves queue_holds_frames (emit event args).
Proof.
  unfold emit.
  destruct (String.eqb event "connect" || String.eqb event "disconnect"
            || String.eqb event "error" || String.eqb event "connecting"
            || String.eqb event "reconnecting"); [auto with queue|].
  destruct (isValidEventName event) eqn:Hvalid; cbn [negb]; [|auto with queue].
  apply preserves_bind; [auto with queue|]. intros gid.
  apply preserves_bind; [auto with queue|]. intros now.
  destruct (values_of args) as [vs|]; [|auto with queue].
  apply preserves_bind; [auto with queue|]. intros c.
  apply preserves_bind; [|auto with queue].
  destruct (ConnectionState_eqb (state c) CONNECTED); [destruct (ws c)|];
    auto with queue;
    (intros w H; unfold queue_holds_frames in *; simpl;
     apply Forall_app; split; [exact H|];
     constructor; [|constructor]; eexists; split; [|reflexivity]; exact Hvalid).
Qed.

Lemma preserves_flushMessageQueue_loop n :
  preserves queue_holds_frames (flushMessageQueue_loop n).
Proof.
  induction n as [|n IH]; [apply preserves_ret|].
  intros w H. cbn [flushMessageQueue_loop]. unfold bind at 1, gets at 1.
  destruct (messageQueue (client w)) as [|m rest] eqn:E; [exact H|].
  destruct (ws (client w)) as [k|]; [|exact H].
  destruct (ConnectionState_eqb (state (client w)) CONNECTED); [|exact H].
  assert (queue_holds_frames (fst (modify_client (set_messageQueue rest) w))) as H1.
  { unfold queue_holds_frames in *. simpl. rewrite E in H.
    inversion H; assumption. }
  assert (forall w1, queue_holds_frames w1 ->
            queue_holds_frames
              (fst (((if negb (String.eqb m EmptyString) then WebSocket_send k m
                      else ret tt);; flushMessageQueue_loop n)%monad w1))) as H2.
  { apply preserves_bind; [auto with queue | intros _; exact IH]. }
  unfold bind at 1. unfold modify_client, modify in *. simpl in H1 |- *.
  apply H2. exact H1.
Qed.

Lemma preserves_flushMessageQueue : preserves queue_holds_frames flushMessageQueue.
Proof.
  unfold flushMessageQueue. apply preserves_bind; [auto with queue|].
  intros n. apply preserves_flushMessageQueue_loop.
Qed.

#[local] Hint Resolve preserves_emit preserves_flushMessageQueue : queue.

Lemma preserves_reconnect_catch : preserves queue_holds_frames reconnect_catch.
Proof. unfold reconnect_catch. auto 10 with queue. Qed.

#[local] Hint Resolve preserves_reconnect_catch : queue.

Lemma preserves_reject k error : preserves queue_holds_frames (reject k error).
Proof.
  unfold reject. apply preserves_bind; [auto with queue|].
  intros [s|]; [|auto with queue].
  destruct (promise s); auto 10 with queue.
Qed.

#[local] Hint Resolve preserves_reject : queue.

Lemma preserves_connect : preserves queue_holds_frames connect.
Proof.
  unfold connect. apply preserves_bind; [auto with queue|]. intros c.
  destruct (ConnectionState_eqb (state c) CONNECTED
            || ConnectionState_eqb (state c) CONNECTING); [auto with queue|].
  apply preserves_bind; [auto with queue|]. intros _.
  apply preserves_bind; [auto with queue|]. intros _.
  intros w H.
  match goal with
  | |- queue_holds_frames (fst (match ?m w with _ => _ end)) =>
      assert (preserves queue_holds_frames m) as Hm
  end.
  { apply preserves_try_catch; [|intros e; auto 10 with queue].
    destruct (urlValid w); [|auto with queue].
    apply preserves_bind; [auto with queue|]. intros k.
    apply preserves_bind; [auto with queue|]. intros t.
    apply preserves_bind; [intros w1 H1; exact H1|]. intros _.
    auto 10 with queue. }
  specialize (Hm w H).
  match goal with
  | |- context [match ?x with _ => _ end] => destruct x as [w' [p|e]]
  end; exact Hm.
Qed.

#[local] Hint Resolve preserves_connect : queue.

Lemma preserves_attemptReconnection : preserves queue_holds_frames attemptReconnection.
Proof. unfold attemptReconnection. auto 12 with queue. Qed.

#[local] Hint Resolve preserves_attemptReconnection : queue.

Lemma preserves_client_handleDisconnection code reason :
  preserves queue_holds_frames (handleDisconnection code reason).
Proof.
  unfold handleDisconnection.
  apply preserves_bind; [auto with queue|]. intros _.
  apply preserves_bind; [auto with queue|]. intros c.
  apply preserves_bind; [destruct (ws c); auto 10 with queue|]. intros _.
  apply preserves_bind; [auto with queue|]. intros _.
  apply preserves_bind; [auto with queue|]. intros c'.
  destruct (reconnection (options c')
            && (reconnectAttempts c' <? reconnectionAttempts (options c'))%Z
            && negb (code =? 1000)%Z); [auto with queue|].
  destruct (reconnectAttempts c' >=? reconnectionAttempts (options c'))%Z;
    auto 10 with queue.
Qed.

Lemma preserves_disconnect : preserves queue_holds_frames disconnect.
Proof.
  unfold disconnect.
  apply preserves_bind; [auto with queue|]. intros _.
  apply preserves_bind; [auto with queue|]. intros c.
  apply preserves_bind; [destruct (reconnectTimer c); auto 10 with queue|]. intros _.
  apply preserves_bind; [destruct (ws c); auto 10 with queue|]. intros _.
  auto 10 with queue.
Qed.

#[local] Hint Resolve preserves_client_handleDisconnection preserves_disconnect : queue.

Lemma preserves_deliver (e : Stimulus) : preserves queue_holds_frames (deliver e).
Proof.
  destruct e as [k|k code reason|k error|t]; unfold deliver.
  - apply preserves_bind; [auto with queue|].
    intros [[[] snt h cc tmr pr orj]|]; auto with queue.
    apply preserves_bind; [auto with queue|]. intros _.
    destruct h; [|auto with queue].
    unfold onopen. apply preserves_bind; [auto with queue|].
    intros [s'|]; auto 12 with queue.
  - apply preserves_bind; [auto with queue|].
    intros [[[] snt h cc tmr pr orj]|]; auto with queue;
      (apply preserves_bind; [auto with queue|]; intros _;
       cbn [handlers]; destruct h; [|auto with queue];
       unfold onclose; apply preserves_bind; [auto with queue|];
       intros [s'|]; auto 12 with queue).
  - apply preserves_bind; [auto with queue|]. intros [s|]; [|auto with queue].
    destruct (handlers s); [|auto with queue].
    unfold onerror. apply preserves_bind; [auto with queue|].
    intros [s'|]; auto 12 with queue.
  - apply preserves_bind; [auto with queue|]. intros [x|]; [|auto with queue].
    apply preserves_bind; [auto with queue|]. intros _.
    destruct (kind x).
    + apply preserves_bind; [auto with queue|]. intros [k|]; [|auto with queue].
      unfold ontimeout. apply preserves_bind; [auto with queue|]. intros c.
      destruct (ws c) as [cur|]; [|auto with queue].
      apply preserves_bind; [auto with queue|].
      intros [[[] ? ? ? ? ? ?]|]; auto 12 with queue.
    + unfold onreconnect. apply preserves_bind; [auto with queue|].
      intros [|k|e]; auto with queue.
Qed.

Lemma preserves_perform (c : Call) : preserves queue_holds_frames (perform c).
Proof.
  destruct c; simpl; auto using preserves_deliver with queue.
Qed.

Lemma queue_holds_frames_new (o : ClientOptions) (url_ok : bool) (now : Z)
  (gen : nat -> string) :
  queue_holds_frames (fst (new_NanoSocketClient o url_ok now gen)).
Proof.
  unfold new_NanoSocketClient.
  match goal with
  | |- context [if ?b then _ else _] => destruct b
  end.
  - apply (preserves_bind queue_holds_frames connect (fun _ => ret tt));
      [apply preserves_connect | intros; apply preserves_ret | constructor].
  - constructor.
Qed.

Lemma queue_holds_frames_history (cs : list Call) (w : World) :
  queue_holds_frames w -> queue_holds_frames (history cs w).
Proof.
  revert w. induction cs as [|c cs IH]; intros w H; simpl; [exact H|].
  apply IH. apply preserves_perform. exact H.
Qed.

Lemma queued_frame_nonempty (f : string) : queued_frame f -> f <> EmptyString.
Proof. intros (m & _ & ->). apply serializeMessage_nonempty. Qed.


Lemma frames_from_nonempty (w : World) (i : nat) (es : list (string * list value)) :
  Forall (fun f => f <> EmptyString) (frames_from w i es).
Proof.
  revert i. induction es as [|[event args] es IH]; intros i; simpl; constructor.
  - apply serializeMessage_nonempty.
  - apply IH.
Qed.

(** From any world whose queue holds no empty string: what is emitted while
    not connected is queued in order, and the open of the client's socket
    hands the whole queue to that socket. *)
Lemma queue_then_flush
  (w : World) (es : list (string * list value)) :
  state (client w) <> CONNECTED ->
  Forall (fun e => isValidEventName (fst e) = true) es ->
  Forall (fun f => f <> EmptyString) (messageQueue (client w)) ->
  let (w1, r1) := emit_all es w in
  r1 = Ok tt
  /\ messageQueue (client w1) = (messageQueue (client w) ++ frames_from w 0 es)%list
  /\ sockets w1 = sockets w
  /\ forall (w2 : World) (k : nat) (s : WebSocket),
       messageQueue (client w2) = messageQueue (client w1) ->
       ws (client w2) = Some k ->
       nth_error (sockets w2) k = Some s ->
       readyState s = WS_CONNECTING ->
       handlers s = true ->
       let (w3, r3) := deliver (TransportOpen k) w2 in
       r3 = Ok tt
       /\ state (client w3) = CONNECTED
       /\ messageQueue (client w3) = []
       /\ (exists s', nth_error (sockets w3) k = Some s'
                      /\ sent s' = (sent s ++ messageQueue (client w)
                                           ++ frames_from w 0 es)%list)
       /\ (forall j, j <> k -> nth_error (sockets w3) j = nth_error (sockets w2) j).
Proof.
  intros Hstate Hvalid Hq.
  rewrite (emit_all_not_connected es w Hstate Hvalid).
  cbn [client sockets messageQueue set_messageQueue].
  repeat split; try reflexivity.
  intros w2 k s Hq2 Hws Hs Hr Hh.
  unfold deliver. run_monad. rewrite Hs.
  destruct s as [r snt h cc tmr pr orj]. cbn [readyState handlers] in Hr, Hh. subst r h.
  unfold modify. cbv beta iota.
  match goal with
  | |- context [onopen k ?x] => set (w2' := x)
  end.
  set (s := mkWebSocket WS_CONNECTING snt true cc tmr pr orj) in *.
  destruct (onopen_flushes w2' k (set_readyState WS_OPEN s))
    as (w3 & E & Hst & _ & Hempty & _ & (s' & Hs' & Hsent) & Hother).
  - apply (nth_error_update_nth (set_readyState WS_OPEN)). exact Hs.
  - reflexivity.
  - exact Hws.
  - change (messageQueue (client w2')) with (messageQueue (client w2)).
    rewrite Hq2. apply Forall_app. split; [exact Hq | apply frames_from_nonempty].
  - rewrite E. repeat split; try assumption.
    + exists s'. split; [exact Hs'|].
      rewrite Hsent. change (messageQueue (client w2')) with (messageQueue (client w2)).
      rewrite Hq2. reflexivity.
    + intros j Hj. rewrite (Hother j Hj).
      apply nth_error_update_nth_other. exact Hj.
Qed.

(** C8: in every state the client reaches, application events emitted while
    it is not connected are appended to the queue, encoded, in the order of
    the calls, and nothing is sent; when the transport then opens the
    client's socket, the client is connected, the queue is empty and the
    socket has received the queued frames, each once, in the order they were
    queued, while no other socket receives anything. *)
Theorem queued_while_not_connected_then_flushed
  (o : ClientOptions) (url_ok : bool) (now : Z) (gen : nat -> string)
  (cs : list Call) (es : list (string * list value)) :
  let w := history cs (fst (new_NanoSocketClient o url_ok now gen)) in
  state (client w) <> CONNECTED ->
  Forall (fun e => isValidEventName (fst e) = true) es ->
  let (w1, r1) := emit_all es w in
  r1 = Ok tt
  /\ messageQueue (client w1) = (messageQueue (client w) ++ frames_from w 0 es)%list
  /\ sockets w1 = sockets w
  /\ forall (w2 : World) (k : nat) (s : WebSocket),
       messageQueue (client w2) = messageQueue (client w1) ->
       ws (client w2) = Some k ->
       nth_error (sockets w2) k = Some s ->
       readyState s = WS_CONNECTING ->
       handlers s = true ->
       let (w3, r3) := deliver (TransportOpen k) w2 in
       r3 = Ok tt
       /\ state (client w3) = CONNECTED
       /\ messageQueue (client w3) = []
       /\ (exists s', nth_error (sockets w3) k = Some s'
                      /\ sent s' = (sent s ++ messageQueue (client w)
                                           ++ frames_from w 0 es)%list)
       /\ (forall j, j <> k -> nth_error (sockets w3) j = nth_error (sockets w2) j).
Proof.
  intros w Hstate Hvalid.
  apply queue_then_flush; [exact Hstate | exact Hvalid |].
  assert (queue_holds_frames w) as Hq
    by (apply queue_holds_frames_history, queue_holds_frames_new).
  unfold queue_holds_frames in Hq. rewrite Forall_forall in *.
  intros f Hf. apply queued_frame_nonempty, Hq, Hf.
Qed.

Lemma queued_while_not_connected_then_flushed_witness :
  let o := mkClientOptions (Some false) None None None None in
  let gen := fun n => if (n =? 0)%nat then "a" else "b" in
  let es := [("x", [JNum 1]); ("y", [])] in
  let w := history [] (fst (new_NanoSocketClient o true 1700 gen)) in
  let w1 := fst (emit_all es w) in
  let w2 := fst (connect w1) in
  let w3 := fst (deliver (TransportOpen 0) w2) in
  (state (client w) <> CONNECTED
   /\ Forall (fun e => isValidEventName (fst e) = true) es)
  /\ messageQueue (client w1)
     = [js "{'event':'x','data':[1],'id':'a','timestamp':1700}";
        js "{'event':'y','data':[],'id':'b','timestamp':1700}"]
  /\ option_map sent (nth_error (sockets w1) 0) = None
  /\ option_map sent (nth_error (sockets w3) 0)
     = Some [js "{'event':'x','data':[1],'id':'a','timestamp':1700}";
             js "{'event':'y','data':[],'id':'b','timestamp':1700}"]
  /\ messageQueue (client w3) = []
  /\ state (client w3) = CONNECTED.
Proof.
  intros o gen es w w1 w2 w3.
  assert (state (client w) <> CONNECTED) as H1 by discriminate.
  assert (Forall (fun e => isValidEventName (fst e) = true) es) as H2
    by (repeat constructor).
  split; [auto|].
  pose proof (queued_while_not_connected_then_flushed o true 1700 gen [] es H1 H2) as T.
  assert (emit_all es w = (w1, Ok tt)) as E1 by (vm_compute; reflexivity).
  fold w in T. rewrite E1 in T. destruct T as (_ & Tq & Ts & Topen).
  specialize (Topen w2 0%nat (mkWebSocket WS_CONNECTING [] true [] 0 Unsettled false)
                    eq_refl eq_refl eq_refl eq_refl eq_refl).
  assert (deliver (TransportOpen 0) w2 = (w3, Ok tt)) as E3 by (vm_compute; reflexivity).
  rewrite E3 in Topen.
  destruct Topen as (_ & Tst & Tempty & (s' & Hs' & Hsent) & _).
  rewrite Tq, Ts, Hs', Tempty, Tst. cbn [option_map]. rewrite Hsent.
  repeat split; reflexivity.
Defined.

End ClientFacts.

(** ** The server *)

Module ServerFacts.
Import Server ServerSpec MonadFacts.

Ltac run_monad :=
  unfold bind, gets, modify, ret, throw, try_catch, modify_server, update_conn, ignore.

(** *** Backpressure *)

(** One turn of the fan-out loop of [broadcast] and [broadcastToRoom], on a
    channel that does not fail: under the ceiling the frame is handed over,
    at or over it nothing happens at all. *)
Lemma fan_out_turn (w : World) (a : nat) (c : Connection) (buffer : string) (limit : Z) :
  nth_error (heap w) a = Some c ->
  failing (ws c) = false ->
  try_catch
    (buffered <- ws_getBufferedAmount a ;;
     if (buffered <? limit)%Z then ws_send a buffer else ret tt)
    (fun error => Connection_emit a "error" [JObj []] ;; ret tt) w
  = if (bufferedAmount (ws c) <? limit)%Z
    then (set_heap
            (update_nth a
               (set_ws (mkChannel (bufferedAmount (ws c))
                                  (sentFrames (ws c) ++ [buffer])%list
                                  (closed (ws c)) (failing (ws c))))
               (heap w)) w,
          Ok tt)
    else (w, Ok tt).
Proof.
  intros Hc Hf. unfold try_catch, bind, ws_getBufferedAmount. rewrite Hc.
  destruct (bufferedAmount (ws c) <? limit)%Z; [|reflexivity].
  unfold ws_send, Channel_send. rewrite Hc, Hf. reflexivity.
Qed.

(** [send] of a connection that has an ['error'] listener, on a channel that
    does not fail: under 64 KiB the frame is handed over, at or over 64 KiB
    the error is notified to the connection's listeners and nothing is
    sent. *)
Lemma Connection_send_ceiling (w : World) (a : nat) (c : Connection) (data : string) :
  nth_error (heap w) a = Some c ->
  failing (ws c) = false ->
  listenerCount (conn_listeners c) "error" <> 0%nat ->
  Connection_send a data w
  = if (bufferedAmount (ws c) <? 64 * 1024)%Z
    then (set_heap
            (update_nth a
               (set_ws (mkChannel (bufferedAmount (ws c))
                                  (sentFrames (ws c) ++ [data])%list
                                  (closed (ws c)) (failing (ws c))))
               (heap w)) w,
          Ok tt)
    else (add_log (ConnectionEmit a "error"
                     [AError (Error "Backpressure limit exceeded")]) w,
          Ok tt).
Proof.
  intros Hc Hf Hl. unfold Connection_send, try_catch, bind, ws_getBufferedAmount.
  rewrite Hc.
  destruct (bufferedAmount (ws c) <? 64 * 1024)%Z.
  - unfold ws_send, Channel_send. rewrite Hc, Hf. reflexivity.
  - unfold Connection_super_emit, EventEmitter_emit. rewrite Hc.
    apply Nat.eqb_neq in Hl. cbn [String.eqb Ascii.eqb Bool.eqb andb]. rewrite Hl.
    reflexivity.
Qed.

(** C1, on the code.  With the default ceiling of 64 KiB and a connection
    whose channel holds exactly 64 KiB, [broadcast] and [broadcastToRoom] send
    nothing, report nothing and do not throw: the world is unchanged.  The
    connection's own [emit] does report the error.  And the connection's
    [send] compares with 64 KiB whatever [maxBackpressure] is: with a ceiling
    of 1 KiB and 2000 bytes buffered it sends, with a ceiling of 128 KiB and
    100000 bytes buffered it drops, where [broadcast] sends. *)
Theorem backpressure_on_the_code :
  (let w := server_with_one_connection None 65536 in
   broadcast "news" [JNum 1] w = (w, Ok tt))
  /\ (let w := run [Join 0 "lobby"] (server_with_one_connection None 65536) in
      members w "lobby" = ["a"]
      /\ broadcastToRoom "lobby" "news" [JNum 1] w = (w, Ok tt))
  /\ (let w := run [On 0 "error" 7] (server_with_one_connection None 65536) in
      let (w', r) := Connection_emit 0 "news" [JNum 1] w in
      r = Ok true
      /\ log w' = (log w ++ [ConnectionEmit 0 "error"
                               [AError (Error "Backpressure limit exceeded")]])%list
      /\ option_map (fun c => sentFrames (ws c)) (nth_error (heap w') 0) = Some [])
  /\ (let w := server_with_one_connection (Some 1024%Z) 2000 in
      let (w', r) := Connection_emit 0 "news" [JNum 1] w in
      maxBackpressure (options (server w)) = 1024%Z
      /\ r = Ok true
      /\ log w' = log w
      /\ option_map (fun c => sentFrames (ws c)) (nth_error (heap w') 0)
         = Some [js "{'event':'news','data':[1],'id':'b','timestamp':1700}"])
  /\ (let w := run [On 0 "error" 7]
                   (server_with_one_connection (Some 131072%Z) 100000) in
      let (w1, r1) := Connection_emit 0 "news" [JNum 1] w in
      let (w2, r2) := broadcast "news" [JNum 1] w in
      option_map (fun c => sentFrames (ws c)) (nth_error (heap w1) 0) = Some []
      /\ log w1 = (log w ++ [ConnectionEmit 0 "error"
                               [AError (Error "Backpressure limit exceeded")]])%list
      /\ option_map (fun c => sentFrames (ws c)) (nth_error (heap w2) 0)
         = Some [js "{'event':'news','data':[1],'timestamp':1700}"]).
Proof.
  vm_compute. repeat split; reflexivity.
Qed.

(** C3, on the code.  [broadcastToRoom] does not validate the event name: the
    name [$secret], which [broadcast] rejects with an exception before
    anything is sent, is encoded and sent to the member of the room.  A member
    id that is no longer registered is skipped and the members after it are
    served. *)
Theorem broadcastToRoom_does_not_validate :
  (let w := run [Join 0 "lobby"] (server_with_one_connection None 0) in
   isValidEventName "$secret" = false
   /\ broadcast "$secret" [] w = (w, Throw (Error "Invalid event name: $secret"))
   /\ let (w', r) := broadcastToRoom "lobby" "$secret" [] w in
      r = Ok tt
      /\ option_map (fun c => sentFrames (ws c)) (nth_error (heap w') 0)
         = Some [js "{'event':'$secret','data':[],'timestamp':1700}"])
  /\ (let w := run [Accept (mkChannel 0 [] false false);
                    Accept (mkChannel 0 [] false false);
                    TransportClosed "a" 1001;
                    Join 0 "other"; Join 1 "other"]
                   (init None 1700 letters) in
      members w "other" = ["a"; "b"]
      /\ JSMap.get (connections (server w)) "a" = None
      /\ let (w', r) := broadcastToRoom "other" "news" [] w in
         r = Ok tt
         /\ log w' = log w
         /\ option_map (fun c => sentFrames (ws c)) (nth_error (heap w') 0) = Some []
         /\ option_map (fun c => sentFrames (ws c)) (nth_error (heap w') 1)
            = Some [js "{'event':'news','data':[],'timestamp':1700}"]).
Proof.
  vm_compute. repeat split; reflexivity.
Qed.

(** The [catch] of the fan-out loops reports through the connection's [emit],
    which rejects the reserved name ['error']: the report itself throws. *)
Lemma Connection_emit_error_throws (a : nat) (args : list value) (w : World) :
  Connection_emit a "error" args w = (w, Throw (Error "Invalid event name: error")).
Proof. reflexivity. Qed.

(** So a channel whose [send] throws ends the fan-out: of two registered
    connections, the first with a failing channel, the second receives
    nothing and [broadcast] throws. *)
Example broadcast_stops_at_a_failing_channel :
  let w := run [Accept (mkChannel 0 [] false true);
                Accept (mkChannel 0 [] false false)]
               (init None 1700 letters) in
  let (w', r) := broadcast "news" [] w in
  r = Throw (Error "Invalid event name: error")
  /\ option_map (fun c => sentFrames (ws c)) (nth_error (heap w') 1) = Some []
  /\ log w' = log w.
Proof. vm_compute. repeat split; reflexivity. Qed.


(** *** The middleware gate *)

Ltac world_simpl :=
  cbn [heap server log clock ids fresh set_heap set_server add_log
       connections rooms middlewares options listeners set_connections set_rooms].

Lemma nth_error_app_length {A} (l : list A) (x : A) :
  nth_error (l ++ [x])%list (List.length l) = Some x.
Proof. induction l as [|y l IH]; simpl; [reflexivity | exact IH]. Qed.

Lemma update_nth_app_length {A} (f : A -> A) (l : list A) (x : A) :
  update_nth (List.length l) f (l ++ [x])%list = (l ++ [f x])%list.
Proof. induction l as [|y l IH]; simpl; [reflexivity | now rewrite IH]. Qed.

Lemma runMiddlewares_loop_abort (a : nat) (c : Connection) (m : Middleware)
  (after : list Middleware) (err : exn) (before : list Middleware) :
  forall (i : nat) (w : World),
    nth_error (heap w) a = Some c ->
    Forall (fun m' => m' c = Next None) before ->
    m c = Next (Some err) ->
    runMiddlewares_loop i (before ++ m :: after)%list a w
    = (mkWorld (heap w) (server w)
               (log w ++ map (fun j => MiddlewareInvoked j a)
                             (seq i (S (List.length before))))%list
               (clock w) (ids w) (fresh w),
       Throw err).
Proof.
  induction before as [|m' before IH]; intros i w Hc Hbefore Hm.
  - simpl. rewrite Hc, Hm. reflexivity.
  - inversion Hbefore as [|? ? Hm' Hrest]; subst.
    change (runMiddlewares_loop i ((m' :: before) ++ m :: after)%list a w)
      with (match nth_error (heap w) a with
            | Some socket =>
                let w := add_log (MiddlewareInvoked i a) w in
                match m' socket with
                | Next None => runMiddlewares_loop (S i) (before ++ m :: after)%list a w
                | Next (Some err) => (w, Throw err)
                | Throws e => (w, Throw e)
                | NeverCalls => (w, Ok Pending)
                end
            | None => (w, Throw TypeError)
            end).
    rewrite Hc, Hm'. cbv zeta.
    rewrite IH by assumption.
    cbn [heap server log clock ids fresh add_log List.length seq map].
    rewrite <- List.app_assoc. reflexivity.
Qed.

(** C9: when the middleware chain reaches a middleware that calls its
    continuation with an error, after middlewares that all called it without
    one, [handleConnection] invokes no later middleware, never notifies
    ['connection'], closes the channel of the new connection after its local
    ['disconnect'] notification, and notifies the error as a server ['error']
    event (which Node throws when the server has no ['error'] listener). *)
Theorem middleware_abort_tears_down
  (w : World) (channel : Channel) (before after : list Middleware)
  (m : Middleware) (err : exn) :
  middlewares (server w) = (before ++ m :: after)%list ->
  Forall (fun m' => m' (mkConnection (ids w (fresh w)) channel JSSet.empty JSMap.empty [])
                    = Next None) before ->
  m (mkConnection (ids w (fresh w)) channel JSSet.empty JSMap.empty []) = Next (Some err) ->
  let a := List.length (heap w) in
  let (w', r) := handleConnection channel w in
  log w' = (log w
            ++ map (fun i => MiddlewareInvoked i a) (seq 0 (S (List.length before)))
            ++ [ConnectionEmit a "disconnect" []; ServerEmit "error" [AError err]])%list
  /\ nth_error (heap w') a
     = Some (mkConnection (ids w (fresh w)) (Channel_close channel)
                          JSSet.empty JSMap.empty [])
  /\ closed (Channel_close channel) = true
  /\ r = match EventEmitter_emit (listeners (server w)) "error" [AError err] with
         | Ok _ => Ok (a, Finished)
         | Throw e => Throw e
         end.
Proof.
  intros Hms Hbefore Hm a.
  unfold handleConnection, generateId, runMiddlewares. run_monad. unfold modify.
  cbv beta iota. world_simpl.
  rewrite Hms.
  match goal with
  | |- context [runMiddlewares_loop 0 _ ?a0 ?w0] =>
      rewrite (runMiddlewares_loop_abort a0 _ m after err before 0 w0
                 (nth_error_app_length (heap w) _) Hbefore Hm)
  end.
  unfold Connection_disconnect. world_simpl.
  rewrite (nth_error_app_length (heap w) _).
  unfold ws_close, Connection_super_emit, NanoSocket_emit, NanoSocket_super_emit.
  run_monad. unfold modify.
  cbn [conn_rooms for_of JSSet.empty ret].
  cbv beta iota. world_simpl.
  rewrite !update_nth_app_length, nth_error_app_length.
  cbn [set_conn_rooms set_ws conn_listeners conn_id ws conn_rooms eventHandlers].
  change (EventEmitter_emit [] "disconnect" []) with (@Ok bool false).
  cbv beta iota. world_simpl.
  rewrite !update_nth_app_length.
  change (String.eqb "error" "broadcast") with false. cbv beta iota. world_simpl.
  destruct (EventEmitter_emit (listeners (server w)) "error" [AError err]) as [b|e];
    cbv beta iota; world_simpl;
    cbn [set_conn_listeners set_conn_rooms set_ws conn_id ws conn_rooms eventHandlers
         conn_listeners];
    (split; [rewrite <- !List.app_assoc; reflexivity
            | split; [apply nth_error_app_length | split; reflexivity]]).
Qed.

Lemma middleware_abort_tears_down_witness :
  let w := run [Use allow; Use (deny (Error "unauthorized")); Use stall;
                ServerOn "error" 1]
               (init None 1700 letters) in
  let channel := mkChannel 0 [] false false in
  (middlewares (server w) = ([allow] ++ deny (Error "unauthorized") :: [stall])%list
   /\ Forall (fun m' => m' (mkConnection (ids w (fresh w)) channel JSSet.empty JSMap.empty [])
                        = Next None) [allow]
   /\ deny (Error "unauthorized")
            (mkConnection (ids w (fresh w)) channel JSSet.empty JSMap.empty [])
      = Next (Some (Error "unauthorized")))
  /\ let (w', r) := handleConnection channel w in
     log w' = [MiddlewareInvoked 0 0; MiddlewareInvoked 1 0;
               ConnectionEmit 0 "disconnect" [];
               ServerEmit "error" [AError (Error "unauthorized")]]
     /\ nth_error (heap w') 0
        = Some (mkConnection "a" (mkChannel 0 [] true false) JSSet.empty JSMap.empty [])
     /\ closed (mkChannel 0 [] true false) = true
     /\ r = Ok (0%nat, Finished).
Proof.
  intros w channel.
  assert (middlewares (server w) = ([allow] ++ deny (Error "unauthorized") :: [stall])%list)
    as H1 by reflexivity.
  assert (Forall (fun m' => m' (mkConnection (ids w (fresh w)) channel
                                             JSSet.empty JSMap.empty []) = Next None)
                 [allow]) as H2 by (repeat constructor).
  assert (deny (Error "unauthorized")
               (mkConnection (ids w (fresh w)) channel JSSet.empty JSMap.empty [])
          = Next (Some (Error "unauthorized"))) as H3 by reflexivity.
  split; [auto|].
  exact (middleware_abort_tears_down w channel [allow] [stall]
           (deny (Error "unauthorized")) (Error "unauthorized") H1 H2 H3).
Defined.


(** *** The room directory *)

Lemma preserves_ignore {A} (I : World -> Prop) (m : St A) :
  preserves I m -> preserves I (ignore m).
Proof. intros H. apply preserves_bind; [exact H | intros; apply preserves_ret]. Qed.

Lemma keeps_server_preserves {A} (m : St A) :
  keeps_server m -> preserves no_empty_room m.
Proof. intros H w Hw. unfold no_empty_room. rewrite H. exact Hw. Qed.

Lemma keeps_ws_send a frame : keeps_server (ws_send a frame).
Proof.
  intros w. unfold ws_send. destruct (nth_error (heap w) a); [|reflexivity].
  destruct (Channel_send (ws c) frame). reflexivity.
Qed.

Lemma keeps_ws_getBufferedAmount a : keeps_server (ws_getBufferedAmount a).
Proof. intros w. unfold ws_getBufferedAmount. destruct (nth_error (heap w) a); reflexivity. Qed.

Lemma keeps_update_conn a f : keeps_server (update_conn a f).
Proof. intros w. reflexivity. Qed.

Lemma keeps_Connection_super_emit a name args :
  keeps_server (Connection_super_emit a name args).
Proof. intros w. unfold Connection_super_emit. destruct (nth_error (heap w) a); reflexivity. Qed.

Lemma keeps_NanoSocket_super_emit name args : keeps_server (NanoSocket_super_emit name args).
Proof. intros w. reflexivity. Qed.

Lemma keeps_generateId : keeps_server generateId.
Proof. intros w. reflexivity. Qed.

Create HintDb rooms.

#[local] Hint Resolve preserves_ret preserves_throw preserves_gets preserves_bind
  preserves_try_catch preserves_for_of preserves_ignore : rooms.
#[local] Hint Extern 1 (preserves no_empty_room (ws_send _ _)) =>
  apply keeps_server_preserves, keeps_ws_send : rooms.
#[local] Hint Extern 1 (preserves no_empty_room (ws_getBufferedAmount _)) =>
  apply keeps_server_preserves, keeps_ws_getBufferedAmount : rooms.
#[local] Hint Extern 1 (preserves no_empty_room (update_conn _ _)) =>
  apply keeps_server_preserves, keeps_update_conn : rooms.
#[local] Hint Extern 1 (preserves no_empty_room (ws_close _)) =>
  apply keeps_server_preserves, keeps_update_conn : rooms.
#[local] Hint Extern 1 (preserves no_empty_room (Connection_super_emit _ _ _)) =>
  apply keeps_server_preserves, keeps_Connection_super_emit : rooms.
#[local] Hint Extern 1 (preserves no_empty_room (NanoSocket_super_emit _ _)) =>
  apply keeps_server_preserves, keeps_NanoSocket_super_emit : rooms.
#[local] Hint Extern 1 (preserves no_empty_room generateId) =>
  apply keeps_server_preserves, keeps_generateId : rooms.
#[local] Hint Extern 1 (preserves no_empty_room Date_now) =>
  apply preserves_gets : rooms.
#[local] Hint Extern 2 (preserves no_empty_room (if ?b then _ else _)) =>
  destruct b : rooms.
#[local] Hint Extern 2 (preserves no_empty_room (match ?x with Some _ => _ | None => _ end)) =>
  destruct x : rooms.

Lemma preserves_Connection_send a data : preserves no_empty_room (Connection_send a data).
Proof. unfold Connection_send. auto 10 with rooms. Qed.

Lemma preserves_Connection_emit a event args :
  preserves no_empty_room (Connection_emit a event args).
Proof.
  unfold Connection_emit. pose proof preserves_Connection_send.
  destruct (negb (isValidEventName event)); auto 10 with rooms.
Qed.

Lemma preserves_broadcast event args : preserves no_empty_room (broadcast event args).
Proof.
  unfold broadcast. pose proof preserves_Connection_emit.
  destruct (negb (isValidEventName event)); auto 12 with rooms.
Qed.

Lemma preserves_broadcastToRoom room event args :
  preserves no_empty_room (broadcastToRoom room event args).
Proof.
  unfold broadcastToRoom. pose proof preserves_Connection_emit.
  apply preserves_bind; [auto with rooms|]. intros [r|]; [|auto with rooms].
  destruct (JSSet.size (sockets r) =? 0)%nat; [auto with rooms|].
  apply preserves_bind; [auto with rooms|]. intros now.
  apply preserves_bind; [auto with rooms|]. intros limit.
  apply preserves_for_of. intros socketId.
  apply preserves_bind; [auto with rooms|]. intros [a|]; auto 12 with rooms.
Qed.


Lemma JSSet_add_nonempty (s : JSSet.t) (x : string) : JSSet.add s x <> [].
Proof.
  unfold JSSet.add. destruct (JSSet.has s x) eqn:H.
  - destruct s; [discriminate H | discriminate].
  - destruct s; discriminate.
Qed.

Lemma JSSet_add_member (s : JSSet.t) (x : string) :
  JSSet.has s x = true -> JSSet.add s x = s.
Proof. intros H. unfold JSSet.add. now rewrite H. Qed.

Lemma JSSet_delete_not_member (s : JSSet.t) (x : string) :
  JSSet.has s x = false -> JSSet.delete s x = s.
Proof.
  unfold JSSet.has, JSSet.delete. induction s as [|y s IH]; simpl; [reflexivity|].
  intros H. apply orb_false_iff in H. destruct H as [H1 H2].
  rewrite String.eqb_sym, H1. simpl. now rewrite IH.
Qed.

Lemma Forall_JSMap_set {V} (P : string * V -> Prop) (m : JSMap.t V) (k : string) (v : V) :
  Forall P m -> (forall k', P (k', v)) -> Forall P (JSMap.set m k v).
Proof.
  intros Hm Hv. induction m as [|[k' v'] m IH]; simpl.
  - constructor; [apply Hv | constructor].
  - inversion Hm; subst. destruct (String.eqb k' k); constructor; auto.
Qed.

Lemma Forall_filter {A} (P : A -> Prop) (f : A -> bool) (l : list A) :
  Forall P l -> Forall P (filter f l).
Proof.
  induction 1 as [|x l Hx Hl IH]; simpl; [constructor|].
  destruct (f x); [constructor; assumption | assumption].
Qed.

Lemma JSMap_get_In {V} (m : JSMap.t V) (k : string) (v : V) :
  JSMap.get m k = Some v -> In (k, v) m.
Proof.
  induction m as [|[k' v'] m IH]; simpl; [discriminate|].
  destruct (String.eqb_spec k' k) as [->|Hne].
  - intros [= ->]. left. reflexivity.
  - intros H. right. apply IH. exact H.
Qed.

Lemma JSMap_set_same {V} (m : JSMap.t V) (k : string) (v : V) :
  JSMap.get m k = Some v -> JSMap.set m k v = m.
Proof.
  induction m as [|[k' v'] m IH]; simpl; [discriminate|].
  destruct (String.eqb_spec k' k) as [->|Hne].
  - intros [= ->]. reflexivity.
  - intros H. now rewrite IH.
Qed.

Lemma preserves_joinRoom socketId roomName :
  preserves no_empty_room (joinRoom socketId roomName).
Proof.
  intros w H. unfold no_empty_room in *. simpl.
  apply Forall_JSMap_set; [exact H|]. intros k'. simpl. apply JSSet_add_nonempty.
Qed.

Lemma preserves_leaveRoom socketId roomName :
  preserves no_empty_room (leaveRoom socketId roomName).
Proof.
  intros w H. unfold no_empty_room in *. simpl.
  destruct (JSMap.get (rooms (server w)) roomName) as [room|]; [|exact H].
  simpl. destruct (JSSet.delete (sockets room) socketId) as [|x s] eqn:E; simpl.
  - apply Forall_filter. exact H.
  - apply Forall_JSMap_set; [exact H|]. intros k'. simpl. discriminate.
Qed.

Lemma filter_drops_empty_rooms (l : JSMap.t Room) :
  Forall (fun kv => sockets (snd kv) <> [])
         (filter (fun kv => negb (JSSet.size (sockets (snd kv)) =? 0)%nat) l).
Proof.
  induction l as [|kv l IH]; simpl; [constructor|].
  destruct (sockets (snd kv)) as [|x s] eqn:E; simpl; [exact IH|].
  constructor; [rewrite E; discriminate | exact IH].
Qed.

Lemma preserves_removeConnection socketId :
  preserves no_empty_room (removeConnection socketId).
Proof. intros w _. apply filter_drops_empty_rooms. Qed.

#[local] Hint Resolve preserves_joinRoom preserves_leaveRoom preserves_removeConnection
  preserves_Connection_send preserves_Connection_emit preserves_broadcast
  preserves_broadcastToRoom : rooms.

Lemma preserves_Connection_join a room : preserves no_empty_room (Connection_join a room).
Proof.
  intros w H. unfold Connection_join.
  destruct (nth_error (heap w) a) as [c|]; [|exact H].
  destruct (negb (JSSet.has (conn_rooms c) room)); [|exact H].
  revert w H. change (preserves no_empty_room
    (update_conn a (fun c0 => set_conn_rooms (JSSet.add (conn_rooms c0) room) c0);;
     joinRoom (conn_id c) room;;
     Connection_super_emit a "join" [AValue (JStr room)];; ret tt)%monad).
  auto 10 with rooms.
Qed.

Lemma preserves_Connection_leave a room : preserves no_empty_room (Connection_leave a room).
Proof.
  intros w H. unfold Connection_leave.
  destruct (nth_error (heap w) a) as [c|]; [|exact H].
  destruct (JSSet.has (conn_rooms c) room); [|exact H].
  revert w H. change (preserves no_empty_room
    (update_conn a (fun c0 => set_conn_rooms (JSSet.delete (conn_rooms c0) room) c0);;
     leaveRoom (conn_id c) room;;
     Connection_super_emit a "leave" [AValue (JStr room)];; ret tt)%monad).
  auto 10 with rooms.
Qed.

Lemma preserves_Connection_disconnect a : preserves no_empty_room (Connection_disconnect a).
Proof.
  intros w H. unfold Connection_disconnect.
  destruct (nth_error (heap w) a) as [c|]; [|exact H].
  revert w H.
  match goal with
  | |- forall w, no_empty_room w -> no_empty_room (fst (?m w)) =>
      change (preserves no_empty_room m)
  end.
  auto 12 with rooms.
Qed.

Lemma preserves_NanoSocket_emit event args :
  preserves no_empty_room (NanoSocket_emit event args).
Proof.
  unfold NanoSocket_emit.
  destruct (String.eqb event "broadcast"); [|auto with rooms].
  destruct args as [|[[|b|z|ev|l|m]|e|a] rest]; auto with rooms;
    destruct (values_of rest); auto 10 with rooms.
Qed.

Lemma preserves_modify_server (f : NanoSocket -> NanoSocket) :
  (forall s, rooms (f s) = rooms s) -> preserves no_empty_room (modify_server f).
Proof. intros Hf w H. unfold no_empty_room in *. simpl. rewrite Hf. exact H. Qed.

Lemma preserves_runMiddlewares a : preserves no_empty_room (runMiddlewares a).
Proof.
  apply keeps_server_preserves. intros w. unfold runMiddlewares, bind, gets.
  generalize 0%nat. generalize (middlewares (server w)) as ms.
  intros ms. revert w. induction ms as [|m ms IH]; intros w i; simpl; [reflexivity|].
  destruct (nth_error (heap w) a) as [c|]; [|reflexivity].
  destruct (m c) as [[e|]|e|]; try reflexivity.
  rewrite IH. reflexivity.
Qed.

#[local] Hint Resolve preserves_Connection_join preserves_Connection_leave
  preserves_Connection_disconnect preserves_NanoSocket_emit preserves_runMiddlewares
  : rooms.

Lemma preserves_handleConnection channel :
  preserves no_empty_room (handleConnection channel).
Proof.
  unfold handleConnection.
  apply preserves_bind; [auto with rooms|]. intros socketId.
  apply preserves_bind; [auto with rooms|]. intros a.
  apply preserves_bind; [intros w H; exact H|]. intros _.
  apply preserves_bind; [apply preserves_modify_server; reflexivity|]. intros _.
  apply preserves_try_catch.
  - apply preserves_bind; [auto with rooms|]. intros [|]; auto 10 with rooms.
  - intros e. auto 10 with rooms.
Qed.

Lemma preserves_handleDisconnection socketId code :
  preserves no_empty_room (handleDisconnection socketId code).
Proof.
  unfold handleDisconnection.
  apply preserves_bind; [auto with rooms|]. intros [a|]; [|auto with rooms].
  apply preserves_bind; [auto with rooms|]. intros [c|]; auto 10 with rooms.
Qed.

Lemma preserves_close : preserves no_empty_room close.
Proof.
  unfold close.
  apply preserves_bind; [auto with rooms|]. intros cs.
  apply preserves_bind; [auto with rooms|]. intros _.
  apply preserves_bind; [|auto 10 with rooms].
  intros w _. unfold no_empty_room. simpl. constructor.
Qed.

Lemma preserves_step (o : Op) : preserves no_empty_room (step o).
Proof.
  destruct o; simpl;
    auto using preserves_handleConnection, preserves_handleDisconnection, preserves_close
      with rooms.
  - apply preserves_modify_server. reflexivity.
  - apply preserves_modify_server. reflexivity.
  - apply keeps_server_preserves, keeps_update_conn.
Qed.

Lemma no_empty_room_run (ops : list Op) (w : World) :
  no_empty_room w -> no_empty_room (run ops w).
Proof.
  revert w. induction ops as [|o ops IH]; intros w H; simpl; [exact H|].
  apply IH. apply preserves_step. exact H.
Qed.

Lemma no_empty_room_init limit now gen : no_empty_room (init limit now gen).
Proof. constructor. Qed.


Lemma world_eta (w : World) :
  set_server (set_rooms (rooms (server w)) (server w)) w = w.
Proof. destruct w as [h [c r m o l] lg ck i f]. reflexivity. Qed.

Lemma joinRoom_member (w : World) (socketId roomName : string) :
  JSSet.has (members w roomName) socketId = true ->
  joinRoom socketId roomName w = (w, Ok tt).
Proof.
  unfold members, joinRoom, modify_server, modify.
  destruct (JSMap.get (rooms (server w)) roomName) as [room|] eqn:E; [|discriminate].
  intros H. rewrite (JSSet_add_member _ _ H).
  replace (mkRoom (name room) (sockets room)) with room by (destruct room; reflexivity).
  rewrite (JSMap_set_same _ _ _ E), world_eta. reflexivity.
Qed.

Lemma leaveRoom_not_member (w : World) (socketId roomName : string) :
  no_empty_room w ->
  JSSet.has (members w roomName) socketId = false ->
  leaveRoom socketId roomName w = (w, Ok tt).
Proof.
  unfold members, leaveRoom, modify_server, modify. intros Hinv.
  destruct (JSMap.get (rooms (server w)) roomName) as [room|] eqn:E.
  - intros H. cbn [sockets]. rewrite (JSSet_delete_not_member _ _ H).
    assert (sockets room <> []) as Hne.
    { unfold no_empty_room in Hinv. rewrite Forall_forall in Hinv.
      apply (Hinv (roomName, room)). apply JSMap_get_In. exact E. }
    destruct (sockets room) as [|x s] eqn:Es; [congruence|]. cbn [JSSet.size List.length Nat.eqb].
    rewrite <- Es.
    replace (mkRoom (name room) (sockets room)) with room by (destruct room; reflexivity).
    rewrite (JSMap_set_same _ _ _ E), world_eta. reflexivity.
  - intros _. destruct w as [h [c r m o l] lg ck i f]. reflexivity.
Qed.

(** C4: in every state the server reaches from its construction through any
    sequence of operations (accepting and closing channels, [join], [leave],
    [disconnect], [removeConnection], [joinRoom], [leaveRoom], broadcasts,
    [close] and the rest), a room is in the directory exactly when its member
    set is not empty; [join] on a room the connection has joined, and
    [joinRoom] for an id that is a member, change nothing at all; [leave] on a
    room the connection has not joined, and [leaveRoom] for an id that is not
    a member, change nothing and raise nothing. *)
Theorem room_directory_invariants
  (limit : option Z) (now : Z) (gen : nat -> string) (ops : list Op) :
  let w := run ops (init limit now gen) in
  (forall room, JSMap.has (rooms (server w)) room = true <-> members w room <> [])
  /\ (forall a c room,
        nth_error (heap w) a = Some c ->
        JSSet.has (conn_rooms c) room = true ->
        Connection_join a room w = (w, Ok tt))
  /\ (forall socketId room,
        JSSet.has (members w room) socketId = true ->
        joinRoom socketId room w = (w, Ok tt))
  /\ (forall a c room,
        nth_error (heap w) a = Some c ->
        JSSet.has (conn_rooms c) room = false ->
        Connection_leave a room w = (w, Ok tt))
  /\ (forall socketId room,
        JSSet.has (members w room) socketId = false ->
        leaveRoom socketId room w = (w, Ok tt)).
Proof.
  intros w.
  assert (no_empty_room w) as Hinv
    by (apply no_empty_room_run, no_empty_room_init).
  split; [|split; [|split; [|split]]].
  - intros room. unfold JSMap.has, members.
    destruct (JSMap.get (rooms (server w)) room) as [r|] eqn:E.
    + split; [|reflexivity]. intros _.
      unfold no_empty_room in Hinv. rewrite Forall_forall in Hinv.
      apply (Hinv (room, r)). apply JSMap_get_In. exact E.
    + split; [discriminate | intros H; exfalso; apply H; reflexivity].
  - intros a c room Hc Hhas. unfold Connection_join. rewrite Hc, Hhas. reflexivity.
  - intros socketId room. apply joinRoom_member.
  - intros a c room Hc Hhas. unfold Connection_leave. rewrite Hc, Hhas. reflexivity.
  - intros socketId room. apply leaveRoom_not_member. exact Hinv.
Qed.

End ServerFacts.

(** ** The registry and the directory in the states a server reaches *)

Module RegistryFacts.
Import Server ServerSpec RegistrySpec MonadFacts ServerFacts.

Ltac run_monad :=
  unfold bind, gets, modify, ret, throw, try_catch, modify_server, update_conn, ignore.

Lemma map_update_nth {A B} (g : A -> B) (f : A -> A) (a : nat) (l : list A) :
  (forall x, g (f x) = g x) -> map g (update_nth a f l) = map g l.
Proof.
  intros H. revert a. induction l as [|x l IH]; intros [|a]; simpl; try reflexivity.
  - now rewrite H.
  - now rewrite IH.
Qed.

Lemma footprint_ws_send a frame : keeps_footprint (ws_send a frame).
Proof.
  intros w. unfold ws_send. destruct (nth_error (heap w) a); [|reflexivity].
  destruct (Channel_send (ws c) frame). unfold footprint. simpl.
  rewrite map_update_nth by reflexivity. reflexivity.
Qed.

Lemma footprint_ws_getBufferedAmount a : keeps_footprint (ws_getBufferedAmount a).
Proof. intros w. unfold ws_getBufferedAmount. destruct (nth_error (heap w) a); reflexivity. Qed.

Lemma footprint_update_conn a f :
  (forall c, conn_id (f c) = conn_id c) -> keeps_footprint (update_conn a f).
Proof.
  intros H w. unfold footprint. simpl. rewrite map_update_nth by exact H. reflexivity.
Qed.

Lemma footprint_Connection_super_emit a name args :
  keeps_footprint (Connection_super_emit a name args).
Proof. intros w. unfold Connection_super_emit. destruct (nth_error (heap w) a); reflexivity. Qed.

Lemma footprint_NanoSocket_super_emit name args :
  keeps_footprint (NanoSocket_super_emit name args).
Proof. intros w. reflexivity. Qed.

Lemma footprint_generateId : keeps_footprint generateId.
Proof. intros w. reflexivity. Qed.

Lemma footprint_runMiddlewares a : keeps_footprint (runMiddlewares a).
Proof.
  intros w. unfold runMiddlewares, bind, gets.
  generalize 0%nat. generalize (middlewares (server w)) as ms.
  intros ms. revert w. induction ms as [|m ms IH]; intros w i; simpl; [reflexivity|].
  destruct (nth_error (heap w) a) as [c|]; [|reflexivity].
  destruct (m c) as [[e|]|e|]; try reflexivity.
  rewrite IH. reflexivity.
Qed.

(** *** Every operation goes through the five mutators

    A property that reads only the footprint, and that [joinRoom],
    [leaveRoom], [removeConnection], the registration of a new connection and
    the clearing of [close] keep, holds in every state a server reaches. *)

Section InvariantRule.
Variable I : World -> Prop.
Hypothesis I_footprint : forall w w', footprint w' = footprint w -> I w -> I w'.
Hypothesis I_joinRoom : forall socketId room, preserves I (joinRoom socketId room).
Hypothesis I_leaveRoom : forall socketId room, preserves I (leaveRoom socketId room).
Hypothesis I_removeConnection : forall socketId, preserves I (removeConnection socketId).
Hypothesis I_register : forall w socketId channel,
  I w ->
  I (set_server
       (set_connections (JSMap.set (connections (server w)) socketId (List.length (heap w)))
                        (server w))
       (set_heap (heap w ++ [mkConnection socketId channel JSSet.empty JSMap.empty []])%list
                 w)).
Hypothesis I_clear : forall w,
  I w -> I (set_server (set_rooms JSMap.empty (set_connections JSMap.empty (server w))) w).

Lemma footprint_preserves {A} (m : St A) : keeps_footprint m -> preserves I m.
Proof. intros H w Hw. apply (I_footprint w); [apply H | exact Hw]. Qed.

#[local] Hint Resolve preserves_ret preserves_throw preserves_gets preserves_bind
  preserves_try_catch preserves_for_of preserves_ignore
  I_joinRoom I_leaveRoom I_removeConnection : core.
#[local] Hint Extern 1 (preserves _ (ws_send _ _)) =>
  apply footprint_preserves, footprint_ws_send : core.
#[local] Hint Extern 1 (preserves _ (ws_getBufferedAmount _)) =>
  apply footprint_preserves, footprint_ws_getBufferedAmount : core.
#[local] Hint Extern 1 (preserves _ (update_conn _ _)) =>
  apply footprint_preserves, footprint_update_conn; reflexivity : core.
#[local] Hint Extern 1 (preserves _ (ws_close _)) =>
  apply footprint_preserves, footprint_update_conn; reflexivity : core.
#[local] Hint Extern 1 (preserves _ (Connection_super_emit _ _ _)) =>
  apply footprint_preserves, footprint_Connection_super_emit : core.
#[local] Hint Extern 1 (preserves _ (NanoSocket_super_emit _ _)) =>
  apply footprint_preserves, footprint_NanoSocket_super_emit : core.
#[local] Hint Extern 1 (preserves _ generateId) =>
  apply footprint_preserves, footprint_generateId : core.
#[local] Hint Extern 1 (preserves _ (runMiddlewares _)) =>
  apply footprint_preserves, footprint_runMiddlewares : core.
#[local] Hint Extern 1 (preserves _ Date_now) => apply preserves_gets : core.
#[local] Hint Extern 2 (preserves _ (if ?b then _ else _)) => destruct b : core.
#[local] Hint Extern 2 (preserves _ (match ?x with Some _ => _ | None => _ end)) =>
  destruct x : core.

Lemma rule_Connection_send a data : preserves I (Connection_send a data).
Proof. unfold Connection_send. auto 10. Qed.

Lemma rule_Connection_emit a event args : preserves I (Connection_emit a event args).
Proof.
  unfold Connection_emit. pose proof rule_Connection_send.
  destruct (negb (isValidEventName event)); auto 10.
Qed.

Lemma rule_broadcast event args : preserves I (broadcast event args).
Proof.
  unfold broadcast. pose proof rule_Connection_emit.
  destruct (negb (isValidEventName event)); auto 12.
Qed.

Lemma rule_broadcastToRoom room event args : preserves I (broadcastToRoom room event args).
Proof.
  unfold broadcastToRoom. pose proof rule_Connection_emit.
  apply preserves_bind; [auto|]. intros [r|]; [|auto].
  destruct (JSSet.size (sockets r) =? 0)%nat; [auto|].
  apply preserves_bind; [auto|]. intros now.
  apply preserves_bind; [auto|]. intros limit.
  apply preserves_for_of. intros socketId.
  apply preserves_bind; [auto|]. intros [a|]; auto 12.
Qed.

Lemma rule_Connection_join a room : preserves I (Connection_join a room).
Proof.
  intros w H. unfold Connection_join.
  destruct (nth_error (heap w) a) as [c|]; [|exact H].
  destruct (negb (JSSet.has (conn_rooms c) room)); [|exact H].
  revert w H. change (preserves I
    (update_conn a (fun c0 => set_conn_rooms (JSSet.add (conn_rooms c0) room) c0);;
     joinRoom (conn_id c) room;;
     Connection_super_emit a "join" [AValue (JStr room)];; ret tt)%monad).
  auto 10.
Qed.

Lemma rule_Connection_leave a room : preserves I (Connection_leave a room).
Proof.
  intros w H. unfold Connection_leave.
  destruct (nth_error (heap w) a) as [c|]; [|exact H].
  destruct (JSSet.has (conn_rooms c) room); [|exact H].
  revert w H. change (preserves I
    (update_conn a (fun c0 => set_conn_rooms (JSSet.delete (conn_rooms c0) room) c0);;
     leaveRoom (conn_id c) room;;
     Connection_super_emit a "leave" [AValue (JStr room)];; ret tt)%monad).
  auto 10.
Qed.

Lemma rule_Connection_disconnect a : preserves I (Connection_disconnect a).
Proof.
  intros w H. unfold Connection_disconnect.
  destruct (nth_error (heap w) a) as [c|]; [|exact H].
  revert w H.
  match goal with
  | |- forall w, I w -> I (fst (?m w)) => change (preserves I m)
  end.
  auto 12.
Qed.

Lemma rule_NanoSocket_emit event args : preserves I (NanoSocket_emit event args).
Proof.
  unfold NanoSocket_emit. pose proof rule_broadcast.
  destruct (String.eqb event "broadcast"); [|auto].
  destruct args as [|[[|b|z|ev|l|m]|e|a] rest]; auto;
    destruct (values_of rest); auto 10.
Qed.

Lemma rule_handleConnection channel : preserves I (handleConnection channel).
Proof.
  pose proof rule_NanoSocket_emit. pose proof rule_Connection_disconnect.
  intros w Hw. unfold handleConnection.
  change (I (fst ((try_catch
    (done <- runMiddlewares (List.length (heap w)) ;;
     match done with
     | Finished => NanoSocket_emit "connection" [AConnection (List.length (heap w))] ;;
                   ret (List.length (heap w), Finished)
     | Pending => ret (List.length (heap w), Pending)
     end)
    (fun error =>
       Connection_disconnect (List.length (heap w)) ;;
       NanoSocket_emit "error" [AError error] ;;
       ret (List.length (heap w), Finished)))
    (set_server
       (set_connections (JSMap.set (connections (server w)) (ids w (fresh w))
                                   (List.length (heap w)))
                        (server w))
       (set_heap (heap w ++ [mkConnection (ids w (fresh w)) channel
                                          JSSet.empty JSMap.empty []])%list
                 (fst (generateId w))))))).
  match goal with
  | |- I (fst (try_catch ?body ?handler ?w0)) =>
      apply (preserves_try_catch I body handler)
  end.
  - apply preserves_bind; [auto|]. intros [|]; auto 10.
  - intros e. auto 10.
  - apply (I_register (fst (generateId w)) (ids w (fresh w)) channel).
    apply (footprint_preserves generateId footprint_generateId). exact Hw.
Qed.

Lemma rule_handleDisconnection socketId code :
  preserves I (handleDisconnection socketId code).
Proof.
  pose proof rule_NanoSocket_emit.
  unfold handleDisconnection.
  apply preserves_bind; [auto|]. intros [a|]; [|auto].
  apply preserves_bind; [auto|]. intros [c|]; auto 10.
Qed.

Lemma rule_close : preserves I close.
Proof.
  pose proof rule_NanoSocket_emit. pose proof rule_Connection_disconnect.
  unfold close.
  apply preserves_bind; [auto|]. intros cs.
  apply preserves_bind; [auto|]. intros _.
  apply preserves_bind; [|auto 10].
  intros w Hw. apply I_clear. exact Hw.
Qed.

Lemma rule_step (o : Op) : preserves I (step o).
Proof.
  pose proof rule_NanoSocket_emit. pose proof rule_Connection_disconnect.
  pose proof rule_Connection_emit. pose proof rule_broadcast.
  destruct o; simpl;
    auto using rule_handleConnection, rule_handleDisconnection, rule_close,
      rule_Connection_join, rule_Connection_leave, rule_broadcastToRoom.
  - apply footprint_preserves. intros w. reflexivity.
  - apply footprint_preserves. intros w. reflexivity.
  - apply footprint_preserves, footprint_update_conn. reflexivity.
Qed.

Lemma rule_run (ops : list Op) (w : World) : I w -> I (run ops w).
Proof.
  revert w. induction ops as [|o ops IH]; intros w H; simpl; [exact H|].
  apply IH. apply rule_step. exact H.
Qed.

End InvariantRule.

(** *** Maps and sets as lists *)

Lemma JSMap_keys_set {V} (m : JSMap.t V) (k : string) (v : V) :
  forall k', In k' (JSMap.keys (JSMap.set m k v)) -> k' = k \/ In k' (JSMap.keys m).
Proof.
  unfold JSMap.keys. induction m as [|[k0 v0] m IH]; simpl; intros k' H.
  - destruct H as [H|[]]. left. now symmetry.
  - destruct (String.eqb k0 k); simpl in H.
    + right. exact H.
    + destruct H as [H|H]; [right; left; exact H|].
      destruct (IH _ H) as [H'|H']; [left; exact H' | right; right; exact H'].
Qed.

Lemma NoDup_keys_set {V} (m : JSMap.t V) (k : string) (v : V) :
  NoDup (JSMap.keys m) -> NoDup (JSMap.keys (JSMap.set m k v)).
Proof.
  unfold JSMap.keys. induction m as [|[k0 v0] m IH]; simpl; intros H.
  - constructor; [intros [] | constructor].
  - inversion H as [|? ? Hnotin Hrest]; subst.
    destruct (String.eqb_spec k0 k) as [->|Hne]; simpl.
    + constructor; assumption.
    + constructor; [|apply IH; exact Hrest].
      intros Hin. destruct (JSMap_keys_set m k v _ Hin) as [->|Hin']; [congruence|].
      apply Hnotin. exact Hin'.
Qed.

Lemma In_JSMap_set {V} (m : JSMap.t V) (k : string) (v : V) (k' : string) (v' : V) :
  In (k', v') (JSMap.set m k v) -> (k', v') = (k, v) \/ In (k', v') m.
Proof.
  induction m as [|[k0 v0] m IH]; simpl; intros H.
  - destruct H as [H|[]]. left. now symmetry.
  - destruct (String.eqb_spec k0 k) as [->|Hne]; simpl in H.
    + destruct H as [H|H]; [left; now symmetry | right; right; exact H].
    + destruct H as [H|H]; [right; left; exact H|].
      destruct (IH H) as [H'|H']; [left; exact H' | right; right; exact H'].
Qed.

Lemma Forall_JSMap_set_at {V} (P : string * V -> Prop) (m : JSMap.t V) (k : string) (v : V) :
  Forall P m -> P (k, v) -> Forall P (JSMap.set m k v).
Proof.
  intros Hm Hv. induction m as [|[k' v'] m IH]; simpl.
  - constructor; [exact Hv | constructor].
  - inversion Hm; subst. destruct (String.eqb_spec k' k) as [->|Hne]; constructor; auto.
Qed.

Lemma NoDup_keys_filter {V} (f : string * V -> bool) (m : JSMap.t V) :
  NoDup (JSMap.keys m) -> NoDup (JSMap.keys (filter f m)).
Proof.
  unfold JSMap.keys. induction m as [|kv m IH]; simpl; intros H; [constructor|].
  inversion H as [|? ? Hnotin Hrest]; subst.
  destruct (f kv); simpl; [|apply IH; exact Hrest].
  constructor; [|apply IH; exact Hrest].
  intros Hin. apply Hnotin. apply in_map_iff in Hin. destruct Hin as [x [Hx Hin]].
  apply filter_In in Hin. apply in_map_iff. exists x. tauto.
Qed.

Lemma JSMap_get_not_key {V} (m : JSMap.t V) (k : string) :
  ~ In k (JSMap.keys m) -> JSMap.get m k = None.
Proof.
  unfold JSMap.keys. induction m as [|[k0 v0] m IH]; simpl; intros H; [reflexivity|].
  destruct (String.eqb_spec k0 k) as [->|Hne]; [exfalso; apply H; now left|].
  apply IH. intros Hin. apply H. now right.
Qed.

Lemma JSMap_In_get {V} (m : JSMap.t V) (k : string) (v : V) :
  NoDup (JSMap.keys m) -> In (k, v) m -> JSMap.get m k = Some v.
Proof.
  unfold JSMap.keys. induction m as [|[k0 v0] m IH]; simpl; intros Hnd H; [destruct H|].
  inversion Hnd as [|? ? Hnotin Hrest]; subst.
  destruct H as [H|H].
  - inversion H; subst. now rewrite String.eqb_refl.
  - destruct (String.eqb_spec k0 k) as [->|Hne].
    + exfalso. apply Hnotin. apply in_map_iff. exists (k, v). split; [reflexivity | exact H].
    + apply IH; assumption.
Qed.

Lemma JSMap_get_set {V} (m : JSMap.t V) (k : string) (v : V) (k' : string) :
  JSMap.get (JSMap.set m k v) k' = if String.eqb k' k then Some v else JSMap.get m k'.
Proof.
  induction m as [|[k0 v0] m IH]; simpl.
  - rewrite (String.eqb_sym k k'). reflexivity.
  - destruct (String.eqb_spec k0 k) as [->|Hne]; simpl.
    + rewrite (String.eqb_sym k k'). destruct (String.eqb k' k); reflexivity.
    + destruct (String.eqb_spec k0 k') as [->|Hne'].
      * destruct (String.eqb_spec k' k) as [E|_]; [congruence | reflexivity].
      * exact IH.
Qed.

Lemma JSMap_get_delete {V} (m : JSMap.t V) (k : string) (k' : string) :
  JSMap.get (JSMap.delete m k) k' = if String.eqb k' k then None else JSMap.get m k'.
Proof.
  unfold JSMap.delete. induction m as [|[k0 v0] m IH]; simpl.
  - destruct (String.eqb k' k); reflexivity.
  - destruct (String.eqb_spec k0 k) as [->|Hne]; simpl.
    + rewrite IH. rewrite (String.eqb_sym k k'). destruct (String.eqb k' k); reflexivity.
    + destruct (String.eqb_spec k0 k') as [->|Hne'].
      * destruct (String.eqb_spec k' k) as [E|_]; [congruence | reflexivity].
      * exact IH.
Qed.

Lemma JSSet_has_In (s : JSSet.t) (x : string) : JSSet.has s x = true <-> In x s.
Proof.
  unfold JSSet.has. rewrite existsb_exists. split.
  - intros [y [Hy He]]. apply String.eqb_eq in He. now subst.
  - intros H. exists x. split; [exact H | apply String.eqb_refl].
Qed.

Lemma NoDup_JSSet_add (s : JSSet.t) (x : string) : NoDup s -> NoDup (JSSet.add s x).
Proof.
  intros H. unfold JSSet.add. destruct (JSSet.has s x) eqn:E; [exact H|].
  apply NoDup_app; [exact H | constructor; [intros [] | constructor] |].
  intros y Hy [<-|[]]. apply JSSet_has_In in Hy. congruence.
Qed.

Lemma NoDup_JSSet_delete (s : JSSet.t) (x : string) : NoDup s -> NoDup (JSSet.delete s x).
Proof. intros H. apply NoDup_filter. exact H. Qed.

Lemma JSSet_has_delete (s : JSSet.t) (x y : string) :
  JSSet.has (JSSet.delete s x) y = JSSet.has s y && negb (String.eqb y x).
Proof.
  unfold JSSet.has, JSSet.delete. induction s as [|z s IH]; simpl; [reflexivity|].
  destruct (String.eqb_spec z x) as [Ezx|Hne]; simpl.
  - rewrite IH. destruct (String.eqb_spec y x) as [Eyx|Hyx]; simpl.
    + now rewrite !andb_false_r.
    + rewrite !andb_true_r. destruct (String.eqb_spec y z) as [Eyz|_]; [congruence | reflexivity].
  - rewrite IH. destruct (String.eqb_spec y z) as [Eyz|Hyz]; simpl; [|reflexivity].
    destruct (String.eqb_spec y x) as [Eyx|_]; [congruence | reflexivity].
Qed.

Lemma JSSet_has_add (s : JSSet.t) (x y : string) :
  JSSet.has (JSSet.add s x) y = JSSet.has s y || String.eqb y x.
Proof.
  unfold JSSet.add. destruct (JSSet.has s x) eqn:E.
  - destruct (String.eqb_spec y x) as [Eyx|Hne]; [|now rewrite orb_false_r].
    rewrite Eyx, E. reflexivity.
  - unfold JSSet.has. rewrite existsb_app. simpl. now rewrite orb_false_r.
Qed.

(** *** The two invariants *)

Lemma registry_consistent_run (ops : list Op) (w : World) :
  registry_consistent w -> registry_consistent (run ops w).
Proof.
  apply rule_run.
  - intros w0 w' Hf [H1 H2]. unfold footprint in Hf. inversion Hf as [[Hh Hc Hr]].
    unfold registry_consistent. rewrite Hh, Hc. split; assumption.
  - intros socketId room w0 H. exact H.
  - intros socketId room w0 H. unfold leaveRoom, modify_server, modify.
    unfold registry_consistent in *. cbn [fst].
    destruct (JSMap.get (rooms (server w0)) room) as [r|]; [|exact H].
    destruct (JSSet.size (sockets {| name := name r;
                                    sockets := JSSet.delete (sockets r) socketId |}) =? 0)%nat;
      exact H.
  - intros socketId w0 [H1 H2]. unfold registry_consistent. simpl. split.
    + apply NoDup_keys_filter. exact H1.
    + intros id a Hin. apply filter_In in Hin. apply H2. tauto.
  - intros w0 socketId channel [H1 H2]. unfold registry_consistent. simpl. split.
    + apply NoDup_keys_set. exact H1.
    + intros id a Hin. apply In_JSMap_set in Hin. destruct Hin as [Hin|Hin].
      * inversion Hin; subst. rewrite map_app. simpl.
        rewrite <- (length_map conn_id (heap w0)). apply nth_error_app_length.
      * specialize (H2 _ _ Hin). rewrite map_app.
        rewrite nth_error_app1; [exact H2|].
        apply nth_error_Some. congruence.
  - intros w0 _. split; [constructor | intros id a []].
Qed.

Lemma directory_well_formed_run (ops : list Op) (w : World) :
  directory_well_formed w -> directory_well_formed (run ops w).
Proof.
  apply rule_run.
  - intros w0 w' Hf [H1 H2]. unfold footprint in Hf. inversion Hf as [[Hh Hc Hr]].
    unfold directory_well_formed. rewrite Hr. split; assumption.
  - intros socketId room w0 [H1 H2]. unfold directory_well_formed. simpl. split.
    + apply NoDup_keys_set. exact H1.
    + apply Forall_JSMap_set_at; [exact H2|]. simpl.
      destruct (JSMap.get (rooms (server w0)) room) as [r|] eqn:E; simpl.
      * rewrite Forall_forall in H2. destruct (H2 _ (JSMap_get_In _ _ _ E)) as [Hn Hs].
        split; [exact Hn | apply NoDup_JSSet_add; exact Hs].
      * split; [reflexivity | constructor; [intros [] | constructor]].
  - intros socketId room w0 [H1 H2]. unfold directory_well_formed, leaveRoom, modify_server, modify.
    cbn [fst].
    destruct (JSMap.get (rooms (server w0)) room) as [r|] eqn:E; [|split; assumption].
    cbn [sockets name].
    destruct (JSSet.size (JSSet.delete (sockets r) socketId) =? 0)%nat; simpl.
    + split; [apply NoDup_keys_filter; exact H1 | apply Forall_filter; exact H2].
    + split; [apply NoDup_keys_set; exact H1|].
      apply Forall_JSMap_set_at; [exact H2|]. simpl.
      rewrite Forall_forall in H2. destruct (H2 _ (JSMap_get_In _ _ _ E)) as [Hn Hs].
      split; [exact Hn | apply NoDup_JSSet_delete; exact Hs].
  - intros socketId w0 [H1 H2]. unfold directory_well_formed. simpl. split.
    + apply NoDup_keys_filter. unfold JSMap.keys. rewrite map_map. exact H1.
    + apply Forall_filter. apply Forall_map. simpl.
      eapply Forall_impl; [|exact H2]. simpl. intros kv [Hn Hs].
      split; [exact Hn | apply NoDup_JSSet_delete; exact Hs].
  - intros w0 socketId channel H. exact H.
  - intros w0 _. split; constructor.
Qed.

Lemma reachable_registry (w : World) : reachable w -> registry_consistent w.
Proof.
  intros [limit [now [gen [ops ->]]]]. apply registry_consistent_run.
  split; [constructor | intros id a []].
Qed.

Lemma reachable_directory (w : World) : reachable w -> directory_well_formed w.
Proof.
  intros [limit [now [gen [ops ->]]]]. apply directory_well_formed_run.
  split; constructor.
Qed.

Lemma reachable_no_empty_room (w : World) : reachable w -> no_empty_room w.
Proof.
  intros [limit [now [gen [ops ->]]]]. apply no_empty_room_run, no_empty_room_init.
Qed.

Lemma reachable_run (ops : list Op) (limit : option Z) (now : Z) (gen : nat -> string) :
  reachable (run ops (init limit now gen)).
Proof. exists limit, now, gen, ops. reflexivity. Qed.

Lemma registered_object (w : World) (socketId : string) (a : nat) :
  registry_consistent w -> registered w socketId = Some a ->
  exists c, nth_error (heap w) a = Some c /\ conn_id c = socketId.
Proof.
  intros [H1 H2] H. apply JSMap_get_In in H. specialize (H2 _ _ H).
  rewrite nth_error_map in H2. destruct (nth_error (heap w) a) as [c|]; [|discriminate].
  exists c. split; [reflexivity|]. simpl in H2. congruence.
Qed.

(** X1.  In every state a server reaches, the registry files each connection
    object under the id the object itself holds, no connection object is
    filed under two ids, and every room of the directory is filed under its
    own name. *)
Theorem registry_files_objects_under_their_ids
  (limit : option Z) (now : Z) (gen : nat -> string) (ops : list Op) :
  let w := run ops (init limit now gen) in
  (forall socketId a,
      registered w socketId = Some a ->
      exists c, nth_error (heap w) a = Some c /\ conn_id c = socketId)
  /\ (forall id1 id2 a,
        registered w id1 = Some a -> registered w id2 = Some a -> id1 = id2)
  /\ (forall roomName room,
        JSMap.get (rooms (server w)) roomName = Some room -> name room = roomName).
Proof.
  intros w.
  pose proof (reachable_registry w (reachable_run ops limit now gen)) as Hreg.
  pose proof (reachable_directory w (reachable_run ops limit now gen)) as [_ Hdir].
  split; [|split].
  - intros socketId a. apply registered_object. exact Hreg.
  - intros id1 id2 a H1 H2.
    destruct (registered_object w id1 a Hreg H1) as [c1 [Hc1 Hi1]].
    destruct (registered_object w id2 a Hreg H2) as [c2 [Hc2 Hi2]].
    congruence.
  - intros roomName room H. rewrite Forall_forall in Hdir.
    apply (Hdir _ (JSMap_get_In _ _ _ H)).
Qed.

Lemma registry_files_objects_under_their_ids_witness :
  let w := run [Accept (mkChannel 0 [] false false); Join 0 "lobby"]
               (init None 1700 letters) in
  registered w "a" = Some 0%nat
  /\ (exists c, nth_error (heap w) 0 = Some c /\ conn_id c = "a")
  /\ JSMap.get (rooms (server w)) "lobby" = Some (mkRoom "lobby" ["a"])
  /\ name (mkRoom "lobby" ["a"]) = "lobby".
Proof.
  intros w.
  assert (registered w "a" = Some 0%nat) as H1 by reflexivity.
  assert (JSMap.get (rooms (server w)) "lobby" = Some (mkRoom "lobby" ["a"])) as H2
    by reflexivity.
  destruct (registry_files_objects_under_their_ids
              None 1700 letters [Accept (mkChannel 0 [] false false); Join 0 "lobby"])
    as (P1 & _ & P3).
  split; [exact H1|]. split; [exact (P1 "a" 0%nat H1)|].
  split; [exact H2 | exact (P3 "lobby" _ H2)].
Defined.


(** *** What the mutators do to the directory *)

Lemma members_joinRoom (w : World) (socketId roomName room : string) :
  members (fst (joinRoom socketId roomName w)) room
  = if String.eqb room roomName then JSSet.add (members w roomName) socketId
    else members w room.
Proof.
  unfold members, joinRoom, modify_server, modify. cbn [fst server set_server rooms set_rooms].
  rewrite JSMap_get_set.
  destruct (String.eqb room roomName); [|reflexivity].
  destruct (JSMap.get (rooms (server w)) roomName); reflexivity.
Qed.

Lemma members_leaveRoom (w : World) (socketId roomName room : string) :
  members (fst (leaveRoom socketId roomName w)) room
  = if String.eqb room roomName then JSSet.delete (members w roomName) socketId
    else members w room.
Proof.
  unfold members, leaveRoom, modify_server, modify. cbn [fst server set_server].
  destruct (JSMap.get (rooms (server w)) roomName) as [r|] eqn:E.
  - cbn [sockets name].
    destruct (JSSet.delete (sockets r) socketId) as [|x s] eqn:Ed;
      cbn [JSSet.size List.length Nat.eqb rooms set_rooms].
    + rewrite JSMap_get_delete. destruct (String.eqb room roomName); reflexivity.
    + rewrite JSMap_get_set. destruct (String.eqb room roomName); reflexivity.
  - destruct (String.eqb_spec room roomName) as [->|Hne]; [|reflexivity].
    rewrite E. reflexivity.
Qed.

Lemma JSMap_delete_absent {V} (m : JSMap.t V) (k : string) :
  JSMap.get m k = None -> JSMap.delete m k = m.
Proof.
  unfold JSMap.delete. induction m as [|[k0 v0] m IH]; simpl; [reflexivity|].
  destruct (String.eqb k0 k); [discriminate|]. intros H. simpl. now rewrite IH.
Qed.

Lemma JSMap_delete_set_absent {V} (m : JSMap.t V) (k : string) (v : V) :
  JSMap.get m k = None -> JSMap.delete (JSMap.set m k v) k = m.
Proof.
  unfold JSMap.delete. induction m as [|[k0 v0] m IH]; simpl.
  - intros _. now rewrite String.eqb_refl.
  - destruct (String.eqb k0 k) eqn:E; [discriminate|]. intros H. simpl. rewrite E. simpl.
    now rewrite IH.
Qed.

Lemma JSMap_set_set {V} (m : JSMap.t V) (k : string) (v v' : V) :
  JSMap.set (JSMap.set m k v) k v' = JSMap.set m k v'.
Proof.
  induction m as [|[k0 v0] m IH]; simpl.
  - now rewrite String.eqb_refl.
  - destruct (String.eqb k0 k) eqn:E; simpl; rewrite E; [reflexivity | now rewrite IH].
Qed.

Lemma JSSet_delete_add (s : JSSet.t) (x : string) :
  JSSet.has s x = false -> JSSet.delete (JSSet.add s x) x = s.
Proof.
  intros H. unfold JSSet.add. rewrite H. unfold JSSet.delete. rewrite filter_app. simpl.
  rewrite String.eqb_refl. simpl. rewrite List.app_nil_r.
  apply (JSSet_delete_not_member s x H).
Qed.

(** X2.  [joinRoom] and [leaveRoom] touch one room only: after [joinRoom]
    the member set of the named room is the old one with the id added (at the
    end, when it is new), after [leaveRoom] it is the old one without the id,
    and every other room has the members it had.  In a state the server
    reaches, [leaveRoom] after [joinRoom] of an id that was not a member
    gives back the very state [joinRoom] started from. *)
Theorem joinRoom_leaveRoom_one_room
  (limit : option Z) (now : Z) (gen : nat -> string) (ops : list Op)
  (socketId roomName : string) :
  let w := run ops (init limit now gen) in
  (forall room,
      members (fst (joinRoom socketId roomName w)) room
      = if String.eqb room roomName then JSSet.add (members w roomName) socketId
        else members w room)
  /\ (forall room,
        members (fst (leaveRoom socketId roomName w)) room
        = if String.eqb room roomName then JSSet.delete (members w roomName) socketId
          else members w room)
  /\ (JSSet.has (members w roomName) socketId = false ->
      leaveRoom socketId roomName (fst (joinRoom socketId roomName w)) = (w, Ok tt)).
Proof.
  intros w. split; [|split].
  - intros room. apply members_joinRoom.
  - intros room. apply members_leaveRoom.
  - intros Hnot.
    pose proof (reachable_no_empty_room w (reachable_run ops limit now gen)) as Hne.
    unfold members in Hnot. unfold joinRoom, leaveRoom, modify_server, modify.
    cbn [fst server set_server rooms set_rooms].
    rewrite JSMap_get_set, String.eqb_refl. cbn [sockets name].
    destruct (JSMap.get (rooms (server w)) roomName) as [r|] eqn:E.
    + rewrite (JSSet_delete_add _ _ Hnot).
      assert (sockets r <> []) as Hr.
      { unfold no_empty_room in Hne. rewrite Forall_forall in Hne.
        apply (Hne (roomName, r)). apply JSMap_get_In. exact E. }
      destruct (sockets r) as [|x s] eqn:Es; [congruence|].
      cbn [JSSet.size List.length Nat.eqb]. rewrite <- Es.
      rewrite JSMap_set_set.
      replace (mkRoom (name r) (sockets r)) with r by (destruct r; reflexivity).
      rewrite (JSMap_set_same _ _ _ E).
      destruct w as [h [c rs m o l] lg ck i f]. reflexivity.
    + unfold JSSet.add, JSSet.has, JSSet.delete, JSSet.empty.
      cbn [sockets name existsb Datatypes.app filter].
      rewrite String.eqb_refl. cbn [negb JSSet.size List.length Nat.eqb].
      rewrite (JSMap_delete_set_absent _ _ _ E).
      destruct w as [h [c rs m o l] lg ck i f]. reflexivity.
Qed.

Lemma joinRoom_leaveRoom_one_room_witness :
  let w := run [Accept (mkChannel 0 [] false false); Join 0 "lobby"]
               (init None 1700 letters) in
  JSSet.has (members w "lobby") "z" = false
  /\ members (fst (joinRoom "z" "lobby" w)) "lobby" = ["a"; "z"]
  /\ leaveRoom "z" "lobby" (fst (joinRoom "z" "lobby" w)) = (w, Ok tt).
Proof.
  intros w.
  assert (JSSet.has (members w "lobby") "z" = false) as H by reflexivity.
  destruct (joinRoom_leaveRoom_one_room
              None 1700 letters [Accept (mkChannel 0 [] false false); Join 0 "lobby"]
              "z" "lobby") as (P1 & _ & P3).
  split; [exact H|]. split; [reflexivity | exact (P3 H)].
Defined.

(** The members of a room after [removeConnection], when no room is filed
    twice. *)
Lemma members_removeConnection (rs : JSMap.t Room) (socketId room : string) :
  NoDup (JSMap.keys rs) ->
  match JSMap.get
          (filter (fun kv => negb (JSSet.size (sockets (snd kv)) =? 0)%nat)
             (map (fun kv => (fst kv, mkRoom (name (snd kv))
                                        (JSSet.delete (sockets (snd kv)) socketId))) rs))
          room with
  | Some r => sockets r
  | None => JSSet.empty
  end
  = JSSet.delete (match JSMap.get rs room with
                  | Some r => sockets r
                  | None => JSSet.empty
                  end) socketId.
Proof.
  unfold JSMap.keys. induction rs as [|[k r] rs IH]; intros Hnd; [reflexivity|].
  inversion Hnd as [|? ? Hnotin Hrest]; subst.
  cbn [map filter fst snd sockets name JSMap.get].
  destruct (JSSet.delete (sockets r) socketId) as [|x s] eqn:Ed;
    cbn [JSSet.size List.length Nat.eqb negb JSMap.get fst snd].
  - destruct (String.eqb_spec k room) as [Ek|Hne]; [|apply IH; exact Hrest].
    rewrite JSMap_get_not_key; [now rewrite Ed|].
    intros Hin. apply Hnotin. subst k. unfold JSMap.keys in Hin.
    apply in_map_iff in Hin. destruct Hin as [kv [Hk Hin]]. apply filter_In in Hin.
    destruct Hin as [Hin _]. apply in_map_iff in Hin. destruct Hin as [kv' [Hk' Hin]].
    apply in_map_iff. exists kv'. subst kv. simpl in Hk. split; assumption.
  - destruct (String.eqb_spec k room) as [Ek|Hne]; [|apply IH; exact Hrest].
    cbn [sockets]. now rewrite Ed.
Qed.

(** X3.  In a state the server reaches, [removeConnection] takes the id out
    of the registry and out of every room at once (a room that becomes empty
    leaves the directory), keeps every other id and member, and does not
    touch any connection object: the channel of the removed connection is not
    closed and nothing is notified. *)
Theorem removeConnection_forgets_the_id
  (limit : option Z) (now : Z) (gen : nat -> string) (ops : list Op)
  (socketId : string) :
  let w := run ops (init limit now gen) in
  let (w', r) := removeConnection socketId w in
  r = Ok tt
  /\ registered w' socketId = None
  /\ (forall other, other <> socketId -> registered w' other = registered w other)
  /\ (forall room, members w' room = JSSet.delete (members w room) socketId)
  /\ (forall room, JSSet.has (members w' room) socketId = false)
  /\ heap w' = heap w
  /\ log w' = log w.
Proof.
  intros w.
  pose proof (reachable_directory w (reachable_run ops limit now gen)) as [Hnd _].
  unfold removeConnection, modify_server, modify.
  assert (forall room,
             members (set_server
                        (set_rooms
                           (filter (fun kv => negb (JSSet.size (sockets (snd kv)) =? 0)%nat)
                              (map (fun kv => (fst kv,
                                      mkRoom (name (snd kv))
                                             (JSSet.delete (sockets (snd kv)) socketId)))
                                   (rooms (server w))))
                           (set_connections (JSMap.delete (connections (server w)) socketId)
                                            (server w))) w) room
             = JSSet.delete (members w room) socketId) as Hm.
  { intros room. unfold members. cbn [server set_server rooms set_rooms].
    apply members_removeConnection. exact Hnd. }
  split; [reflexivity|]. split; [|split; [|split; [|split; [|split]]]].
  - unfold registered. cbn [server set_server connections set_rooms set_connections].
    rewrite JSMap_get_delete, String.eqb_refl. reflexivity.
  - intros other Hne. unfold registered.
    cbn [server set_server connections set_rooms set_connections].
    rewrite JSMap_get_delete. apply String.eqb_neq in Hne. now rewrite Hne.
  - exact Hm.
  - intros room. rewrite Hm, JSSet_has_delete, String.eqb_refl. apply andb_false_r.
  - reflexivity.
  - reflexivity.
Qed.

Lemma removeConnection_forgets_the_id_witness :
  let w := run [Accept (mkChannel 0 [] false false);
                Accept (mkChannel 0 [] false false);
                Join 0 "lobby"; Join 1 "lobby"; Join 0 "solo"]
               (init None 1700 letters) in
  let w' := fst (removeConnection "a" w) in
  "b" <> "a"
  /\ registered w' "b" = registered w "b"
  /\ registered w' "a" = None
  /\ members w' "lobby" = ["b"]
  /\ JSMap.keys (rooms (server w')) = ["lobby"].
Proof.
  intros w w'.
  assert ("b" <> "a") as H by discriminate.
  pose proof (removeConnection_forgets_the_id
                None 1700 letters
                [Accept (mkChannel 0 [] false false);
                 Accept (mkChannel 0 [] false false);
                 Join 0 "lobby"; Join 1 "lobby"; Join 0 "solo"] "a") as P.
  cbv zeta in P. fold w in P.
  assert (removeConnection "a" w = (w', Ok tt)) as E by reflexivity.
  rewrite E in P. destruct P as (_ & P2 & P3 & P4 & _).
  split; [exact H|]. split; [exact (P3 "b" H)|]. split; [exact P2|].
  split; reflexivity.
Defined.

(** X4.  When the transport reports that a channel has closed, in a state
    the server reaches: for an id that is registered, the id is removed as
    [removeConnection] removes it and the server's own listeners are notified
    of ['disconnect'] with the connection and the close code; the connection
    object is not notified and not changed, and nothing is thrown.  For an id
    that is not registered nothing happens. *)
Theorem handleDisconnection_unregisters
  (limit : option Z) (now : Z) (gen : nat -> string) (ops : list Op)
  (socketId : string) (code : Z) :
  let w := run ops (init limit now gen) in
  handleDisconnection socketId code w
  = match registered w socketId with
    | Some a =>
        (add_log (ServerEmit "disconnect" [AConnection a; AValue (JNum code)])
                 (fst (removeConnection socketId w)),
         Ok tt)
    | None => (w, Ok tt)
    end.
Proof.
  intros w.
  pose proof (reachable_registry w (reachable_run ops limit now gen)) as Hreg.
  unfold handleDisconnection. unfold bind at 1. unfold gets at 1.
  fold (registered w socketId).
  destruct (registered w socketId) as [a|] eqn:E; [|reflexivity].
  destruct (registered_object w socketId a Hreg E) as [c [Hc Hid]].
  unfold bind at 1. unfold gets at 1. rewrite Hc, Hid.
  unfold bind, removeConnection, modify_server, modify, NanoSocket_emit.
  change (String.eqb "disconnect" "broadcast") with false. cbv iota.
  unfold NanoSocket_super_emit, EventEmitter_emit.
  change (String.eqb "disconnect" "error") with false. reflexivity.
Qed.

(** *** The fan-out of [broadcast] *)

Lemma nth_error_update_nth_at {A} (f : A -> A) (a : nat) (l : list A) (a' : nat) :
  nth_error (update_nth a f l) a'
  = option_map (fun x => if Nat.eqb a' a then f x else x) (nth_error l a').
Proof.
  revert a a'. induction l as [|x l IH]; intros [|a] [|a']; simpl; try reflexivity.
  - destruct (nth_error l a'); reflexivity.
  - apply IH.
Qed.

Lemma update_nth_fix {A} (f : A -> A) (a : nat) (l : list A) (x : A) :
  nth_error l a = Some x -> f x = x -> update_nth a f l = l.
Proof.
  revert a. induction l as [|y l IH]; intros [|a]; simpl; try discriminate.
  - intros [= ->] ->. reflexivity.
  - intros H Hf. now rewrite (IH a H Hf).
Qed.

Lemma set_heap_same (w : World) : set_heap (heap w) w = w.
Proof. destruct w; reflexivity. Qed.

Lemma channels_work_In (w : World) (targets : list nat) (a : nat) (c : Connection) :
  channels_work w targets = true -> In a targets -> nth_error (heap w) a = Some c ->
  failing (ws c) = false.
Proof.
  unfold channels_work. rewrite forallb_forall. intros H Hin Hc.
  specialize (H a Hin). rewrite Hc in H. now apply negb_true_iff in H.
Qed.

(** One turn of the loop on a channel that works, in one piece. *)
Lemma fan_out_turn_served (w : World) (a : nat) (c : Connection) (buffer : string) (limit : Z) :
  nth_error (heap w) a = Some c ->
  failing (ws c) = false ->
  try_catch
    (buffered <- ws_getBufferedAmount a ;;
     if (buffered <? limit)%Z then ws_send a buffer else ret tt)
    (fun error => Connection_emit a "error" [JObj []] ;; ret tt) w
  = (set_heap (update_nth a (served buffer limit) (heap w)) w, Ok tt).
Proof.
  intros Hc Hf. rewrite (fan_out_turn w a c buffer limit Hc Hf).
  destruct (bufferedAmount (ws c) <? limit)%Z eqn:E.
  - f_equal. f_equal.
    assert (forall l a0, nth_error l a0 = Some c ->
              update_nth a0 (set_ws (mkChannel (bufferedAmount (ws c))
                                               (sentFrames (ws c) ++ [buffer])%list
                                               (closed (ws c)) (failing (ws c)))) l
              = update_nth a0 (served buffer limit) l) as H.
    { induction l as [|y l IH]; intros [|a0]; simpl; try discriminate.
      - intros [= ->]. unfold served, with_frame. now rewrite E.
      - intros H. now rewrite (IH a0 H). }
    apply H. exact Hc.
  - rewrite (update_nth_fix (served buffer limit) a (heap w) c Hc).
    + now rewrite set_heap_same.
    + unfold served. now rewrite E.
Qed.

(** The loop over addresses that all hold a connection object whose channel
    works. *)
Lemma fan_out_loop (buffer : string) (limit : Z) (cs : list nat) :
  forall w,
    (forall a, In a cs -> exists c, nth_error (heap w) a = Some c) ->
    channels_work w cs = true ->
    for_of cs (fun a =>
      try_catch
        (buffered <- ws_getBufferedAmount a ;;
         if (buffered <? limit)%Z then ws_send a buffer else ret tt)
        (fun error => Connection_emit a "error" [JObj []] ;; ret tt)) w
    = (set_heap (fold_left (fun h a => update_nth a (served buffer limit) h) cs (heap w)) w,
       Ok tt).
Proof.
  induction cs as [|a cs IH]; intros w Hvalid Hwork.
  - simpl. unfold ret. now rewrite set_heap_same.
  - cbn [for_of fold_left]. unfold bind at 1.
    destruct (Hvalid a (or_introl eq_refl)) as [c Hc].
    rewrite (fan_out_turn_served w a c buffer limit Hc
               (channels_work_In w (a :: cs) a c Hwork (or_introl eq_refl) Hc)).
    rewrite IH.
    + reflexivity.
    + intros a' Hin. cbn [heap set_heap]. rewrite nth_error_update_nth_at.
      destruct (Hvalid a' (or_intror Hin)) as [c' Hc']. rewrite Hc'. simpl. eauto.
    + unfold channels_work in *. cbn [forallb] in Hwork.
      apply andb_true_iff in Hwork. destruct Hwork as [_ Hwork].
      rewrite forallb_forall in *. intros a' Hin. specialize (Hwork a' Hin).
      cbn [heap set_heap]. rewrite nth_error_update_nth_at.
      destruct (nth_error (heap w) a') as [c'|]; [|reflexivity]. simpl.
      destruct (Nat.eqb a' a); [|exact Hwork].
      unfold served, with_frame. destruct (bufferedAmount (ws c') <? limit)%Z; exact Hwork.
Qed.

(** What the loop leaves at each address, when no address is visited twice. *)
Lemma fan_out_pointwise (f : Connection -> Connection) (cs : list nat) :
  forall h a,
    NoDup cs ->
    nth_error (fold_left (fun h a => update_nth a f h) cs h) a
    = option_map (fun c => if existsb (Nat.eqb a) cs then f c else c) (nth_error h a).
Proof.
  induction cs as [|a0 cs IH]; intros h a Hnd.
  - simpl. destruct (nth_error h a); reflexivity.
  - inversion Hnd as [|? ? Hnotin Hrest]; subst. cbn [fold_left existsb].
    rewrite (IH _ a Hrest), nth_error_update_nth_at.
    destruct (nth_error h a) as [c|]; [|reflexivity]. simpl. f_equal.
    destruct (Nat.eqb_spec a a0) as [E|Hne]; [|reflexivity].
    subst a0. simpl.
    destruct (existsb (Nat.eqb a) cs) eqn:Ex; [|reflexivity].
    exfalso. apply Hnotin. apply existsb_exists in Ex. destruct Ex as [x [Hx He]].
    apply Nat.eqb_eq in He. now subst.
Qed.

Lemma registry_values_NoDup (w : World) :
  registry_consistent w -> NoDup (JSMap.values (connections (server w))).
Proof.
  intros [H1 H2].
  assert (forall k v k', In (k, v) (connections (server w)) ->
                         In (k', v) (connections (server w)) -> k = k') as Hinj.
  { intros k v k' Hk Hk'. pose proof (H2 _ _ Hk). pose proof (H2 _ _ Hk'). congruence. }
  clear H2. revert H1 Hinj. unfold JSMap.keys, JSMap.values.
  generalize (connections (server w)) as m.
  induction m as [|[k v] m IH]; simpl; intros Hnd Hinj; [constructor|].
  inversion Hnd as [|? ? Hnotin Hrest]; subst. constructor.
  - intros Hin. apply in_map_iff in Hin. destruct Hin as [[k' v'] [Hv Hin]].
    simpl in Hv. subst v'. apply Hnotin.
    assert (k = k') as -> by (apply (Hinj k v k'); [now left | now right]).
    apply in_map_iff. exists (k', v). split; [reflexivity | exact Hin].
  - apply IH; [exact Hrest|]. intros k0 v0 k0' Hk Hk'.
    apply (Hinj k0 v0 k0'); now right.
Qed.

Lemma registry_values_valid (w : World) (a : nat) :
  registry_consistent w -> In a (JSMap.values (connections (server w))) ->
  exists c, nth_error (heap w) a = Some c.
Proof.
  intros [_ H2] Hin. unfold JSMap.values in Hin. apply in_map_iff in Hin.
  destruct Hin as [[id a'] [Ha Hin]]. simpl in Ha. subst a'.
  specialize (H2 _ _ Hin). rewrite nth_error_map in H2.
  destruct (nth_error (heap w) a) as [c|]; [eauto | discriminate].
Qed.

(** X5.  [broadcast] of a valid event name, in a state the server reaches
    and with channels that take frames: every registered connection whose
    channel holds less than [maxBackpressure] bytes is handed the one encoded
    frame once, each other connection object is left as it is, the server is
    unchanged, nothing is notified and nothing is thrown. *)
Theorem broadcast_serves_every_registered_connection
  (limit : option Z) (now : Z) (gen : nat -> string) (ops : list Op)
  (event : string) (args : list value) :
  let w := run ops (init limit now gen) in
  isValidEventName event = true ->
  channels_work w (JSMap.values (connections (server w))) = true ->
  let (w', r) := broadcast event args w in
  r = Ok tt
  /\ server w' = server w
  /\ log w' = log w
  /\ forall a,
       nth_error (heap w') a
       = option_map
           (fun c => if is_registered w a
                     then served (fan_out_frame w event args)
                                 (maxBackpressure (options (server w))) c
                     else c)
           (nth_error (heap w) a).
Proof.
  intros w Hvalid Hwork.
  pose proof (reachable_registry w (reachable_run ops limit now gen)) as Hreg.
  unfold broadcast. rewrite Hvalid. cbn [negb].
  unfold bind at 1. unfold Date_now, gets at 1.
  unfold bind at 1. unfold gets at 1.
  unfold bind at 1. unfold gets at 1.
  rewrite fan_out_loop; [| intros a Hin; apply registry_values_valid; assumption | exact Hwork].
  split; [reflexivity|]. split; [reflexivity|]. split; [reflexivity|].
  intros a. cbn [heap set_heap].
  apply fan_out_pointwise. apply registry_values_NoDup. exact Hreg.
Qed.

Lemma broadcast_serves_every_registered_connection_witness :
  let w := run [Accept (mkChannel 0 [] false false);
                Accept (mkChannel 70000 [] false false);
                Accept (mkChannel 10 [] false false);
                Unregister "c"]
               (init None 1700 letters) in
  (isValidEventName "news" = true
   /\ channels_work w (JSMap.values (connections (server w))) = true)
  /\ let (w', r) := broadcast "news" [JNum 1] w in
     r = Ok tt
     /\ server w' = server w
     /\ log w' = log w
     /\ forall a,
          nth_error (heap w') a
          = option_map
              (fun c => if is_registered w a
                        then served (fan_out_frame w "news" [JNum 1])
                                    (maxBackpressure (options (server w))) c
                        else c)
              (nth_error (heap w) a).
Proof.
  intros w.
  assert (isValidEventName "news" = true) as H1 by reflexivity.
  assert (channels_work w (JSMap.values (connections (server w))) = true) as H2
    by (vm_compute; reflexivity).
  split; [split; assumption|].
  exact (broadcast_serves_every_registered_connection
           None 1700 letters
           [Accept (mkChannel 0 [] false false);
            Accept (mkChannel 70000 [] false false);
            Accept (mkChannel 10 [] false false);
            Unregister "c"] "news" [JNum 1] H1 H2).
Defined.

(** The loop up to the first channel whose [send] throws. *)
Lemma fan_out_loop_abort (buffer : string) (limit : Z) (a : nat) (c : Connection)
  (after : list nat) (before : list nat) :
  forall w,
    (forall a', In a' before -> exists c', nth_error (heap w) a' = Some c') ->
    channels_work w before = true ->
    ~ In a before ->
    nth_error (heap w) a = Some c ->
    failing (ws c) = true ->
    (bufferedAmount (ws c) <? limit)%Z = true ->
    for_of (before ++ a :: after)%list (fun a =>
      try_catch
        (buffered <- ws_getBufferedAmount a ;;
         if (buffered <? limit)%Z then ws_send a buffer else ret tt)
        (fun error => Connection_emit a "error" [JObj []] ;; ret tt)) w
    = (set_heap (fold_left (fun h a => update_nth a (served buffer limit) h) before (heap w)) w,
       Throw (Error "Invalid event name: error")).
Proof.
  induction before as [|a0 before IH]; intros w Hvalid Hwork Hnotin Hc Hf Hu.
  - cbn [Datatypes.app for_of fold_left]. unfold bind at 1.
    unfold try_catch, bind, ws_getBufferedAmount. rewrite Hc, Hu.
    unfold ws_send, Channel_send. rewrite Hc, Hf.
    rewrite Connection_emit_error_throws.
    rewrite (update_nth_fix (set_ws (ws c)) a (heap w) c Hc) by (destruct c; reflexivity).
    reflexivity.
  - change ((a0 :: before) ++ a :: after)%list with (a0 :: (before ++ a :: after))%list.
    cbn [for_of fold_left]. unfold bind at 1.
    destruct (Hvalid a0 (or_introl eq_refl)) as [c0 Hc0].
    rewrite (fan_out_turn_served w a0 c0 buffer limit Hc0
               (channels_work_In w (a0 :: before) a0 c0 Hwork (or_introl eq_refl) Hc0)).
    assert (a <> a0) as Hne by (intros ->; apply Hnotin; now left).
    rewrite IH.
    + reflexivity.
    + intros a' Hin. cbn [heap set_heap]. rewrite nth_error_update_nth_at.
      destruct (Hvalid a' (or_intror Hin)) as [c' Hc']. rewrite Hc'. simpl. eauto.
    + unfold channels_work in *. cbn [forallb] in Hwork.
      apply andb_true_iff in Hwork. destruct Hwork as [_ Hwork].
      rewrite forallb_forall in *. intros a' Hin. specialize (Hwork a' Hin).
      cbn [heap set_heap]. rewrite nth_error_update_nth_at.
      destruct (nth_error (heap w) a') as [c'|]; [|reflexivity]. simpl.
      destruct (Nat.eqb a' a0); [|exact Hwork].
      unfold served, with_frame. destruct (bufferedAmount (ws c') <? limit)%Z; exact Hwork.
    + intros Hin. apply Hnotin. now right.
    + cbn [heap set_heap]. rewrite nth_error_update_nth_at, Hc. simpl.
      apply Nat.eqb_neq in Hne. now rewrite Hne.
    + exact Hf.
    + exact Hu.
Qed.

(** X6.  A channel whose [send] throws ends [broadcast]: when the registry
    lists, in order, connections whose channels take frames, then one under
    the ceiling whose channel throws, then others, [broadcast] serves the
    connections before it and throws [Invalid event name: error]; the
    connections after it are handed nothing, and no ['error'] is notified to
    anybody. *)
Theorem broadcast_stops_at_the_first_failing_channel
  (limit : option Z) (now : Z) (gen : nat -> string) (ops : list Op)
  (event : string) (args : list value)
  (before after : list nat) (a : nat) (c : Connection) :
  let w := run ops (init limit now gen) in
  isValidEventName event = true ->
  JSMap.values (connections (server w)) = (before ++ a :: after)%list ->
  channels_work w before = true ->
  nth_error (heap w) a = Some c ->
  failing (ws c) = true ->
  (bufferedAmount (ws c) <? maxBackpressure (options (server w)))%Z = true ->
  let (w', r) := broadcast event args w in
  r = Throw (Error "Invalid event name: error")
  /\ server w' = server w
  /\ log w' = log w
  /\ forall a',
       nth_error (heap w') a'
       = option_map
           (fun c' => if existsb (Nat.eqb a') before
                      then served (fan_out_frame w event args)
                                  (maxBackpressure (options (server w))) c'
                      else c')
           (nth_error (heap w) a').
Proof.
  intros w Hvalid Hvalues Hwork Hc Hf Hu.
  pose proof (reachable_registry w (reachable_run ops limit now gen)) as Hreg.
  pose proof (registry_values_NoDup w Hreg) as Hnd. rewrite Hvalues in Hnd.
  unfold broadcast. rewrite Hvalid. cbn [negb].
  unfold bind at 1. unfold Date_now, gets at 1.
  unfold bind at 1. unfold gets at 1.
  unfold bind at 1. unfold gets at 1.
  rewrite Hvalues.
  rewrite (fan_out_loop_abort _ _ a c after before w); try assumption.
  - split; [reflexivity|]. split; [reflexivity|]. split; [reflexivity|].
    intros a'. cbn [heap set_heap]. apply fan_out_pointwise.
    apply NoDup_app_remove_r in Hnd. exact Hnd.
  - intros a' Hin. apply registry_values_valid; [exact Hreg|].
    rewrite Hvalues. apply in_or_app. now left.
  - apply NoDup_remove_2 in Hnd. intros Hin. apply Hnd. apply in_or_app. now left.
Qed.

Lemma broadcast_stops_at_the_first_failing_channel_witness :
  let w := run [Accept (mkChannel 0 [] false false);
                Accept (mkChannel 0 [] false true);
                Accept (mkChannel 0 [] false false)]
               (init None 1700 letters) in
  (isValidEventName "news" = true
   /\ JSMap.values (connections (server w)) = ([0] ++ 1 :: [2])%list
   /\ channels_work w [0%nat] = true
   /\ nth_error (heap w) 1 = Some (mkConnection "b" (mkChannel 0 [] false true) [] [] [])
   /\ failing (mkChannel 0 [] false true) = true
   /\ (0 <? maxBackpressure (options (server w)))%Z = true)
  /\ let (w', r) := broadcast "news" [] w in
     r = Throw (Error "Invalid event name: error")
     /\ server w' = server w
     /\ log w' = log w
     /\ forall a',
          nth_error (heap w') a'
          = option_map
              (fun c' => if existsb (Nat.eqb a') [0%nat]
                         then served (fan_out_frame w "news" [])
                                     (maxBackpressure (options (server w))) c'
                         else c')
              (nth_error (heap w) a').
Proof.
  intros w.
  assert (isValidEventName "news" = true) as H1 by reflexivity.
  assert (JSMap.values (connections (server w)) = ([0] ++ 1 :: [2])%list) as H2
    by reflexivity.
  assert (channels_work w [0%nat] = true) as H3 by reflexivity.
  assert (nth_error (heap w) 1
          = Some (mkConnection "b" (mkChannel 0 [] false true) [] [] [])) as H4
    by reflexivity.
  assert (failing (ws (mkConnection "b" (mkChannel 0 [] false true) [] [] [])) = true) as H5
    by reflexivity.
  assert ((bufferedAmount (ws (mkConnection "b" (mkChannel 0 [] false true) [] [] []))
           <? maxBackpressure (options (server w)))%Z = true) as H6 by reflexivity.
  split; [repeat split; assumption|].
  exact (broadcast_stops_at_the_first_failing_channel
           None 1700 letters
           [Accept (mkChannel 0 [] false false);
            Accept (mkChannel 0 [] false true);
            Accept (mkChannel 0 [] false false)]
           "news" [] [0%nat] [2%nat] 1%nat
           (mkConnection "b" (mkChannel 0 [] false true) [] [] [])
           H1 H2 H3 H4 H5 H6).
Defined.

(** *** [disconnect()] of a connection and [close()] of the server *)

Lemma leave_all_run (socketId : string) (rs : list string) :
  forall w,
    for_of rs (fun room => leaveRoom socketId room) w
    = (fold_left (fun w r => fst (leaveRoom socketId r w)) rs w, Ok tt).
Proof.
  induction rs as [|r rs IH]; intros w; [reflexivity|].
  cbn [for_of fold_left]. unfold bind at 1.
  change (leaveRoom socketId r w) with (fst (leaveRoom socketId r w), @Ok unit tt).
  apply IH.
Qed.

Lemma leave_all_shape (socketId : string) (rs : list string) :
  forall w, exists rms,
    fold_left (fun w r => fst (leaveRoom socketId r w)) rs w
    = set_server (set_rooms rms (server w)) w.
Proof.
  induction rs as [|r rs IH]; intros w.
  - exists (rooms (server w)). symmetry. apply world_eta.
  - cbn [fold_left]. destruct (IH (fst (leaveRoom socketId r w))) as [rms H].
    exists rms. rewrite H. unfold leaveRoom, modify_server, modify. cbn [fst].
    destruct (JSMap.get (rooms (server w)) r) as [room|]; [|reflexivity].
    destruct (JSSet.size (sockets {| name := name room;
                                    sockets := JSSet.delete (sockets room) socketId |}) =? 0)%nat;
      reflexivity.
Qed.

Lemma JSSet_delete_delete (s : JSSet.t) (x : string) :
  JSSet.delete (JSSet.delete s x) x = JSSet.delete s x.
Proof.
  apply JSSet_delete_not_member. rewrite JSSet_has_delete, String.eqb_refl.
  apply andb_false_r.
Qed.

Lemma members_leave_all (socketId : string) (rs : list string) (room : string) :
  forall w,
    members (fold_left (fun w r => fst (leaveRoom socketId r w)) rs w) room
    = if JSSet.has rs room then JSSet.delete (members w room) socketId
      else members w room.
Proof.
  induction rs as [|r rs IH]; intros w; [reflexivity|].
  cbn [fold_left]. rewrite IH, members_leaveRoom.
  unfold JSSet.has. cbn [existsb]. fold (JSSet.has rs room).
  destruct (String.eqb_spec room r) as [E|Hne]; cbn [orb].
  - subst r. destruct (JSSet.has rs room); [apply JSSet_delete_delete | reflexivity].
  - reflexivity.
Qed.

Lemma update_nth_compose {A} (f g : A -> A) (a : nat) (l : list A) :
  update_nth a f (update_nth a g l) = update_nth a (fun x => f (g x)) l.
Proof.
  revert a. induction l as [|x l IH]; intros [|a]; simpl; try reflexivity.
  now rewrite IH.
Qed.

(** [disconnect()] in one piece. *)
Lemma Connection_disconnect_run (w : World) (a : nat) (c : Connection) :
  nth_error (heap w) a = Some c ->
  Connection_disconnect a w
  = (mkWorld (update_nth a torn_down (heap w))
             (server (fold_left (fun w r => fst (leaveRoom (conn_id c) r w))
                                (conn_rooms c) w))
             (log w ++ [ConnectionEmit a "disconnect" []])%list
             (clock w) (ids w) (fresh w),
     Ok tt).
Proof.
  intros Hc. unfold Connection_disconnect. rewrite Hc.
  unfold try_catch. unfold bind at 1. rewrite leave_all_run.
  destruct (leave_all_shape (conn_id c) (conn_rooms c) w) as [rms Hshape].
  rewrite Hshape.
  unfold ws_close, Connection_super_emit. run_monad. unfold modify.
  cbv beta iota. world_simpl. cbn [fst snd].
  rewrite !update_nth_compose, nth_error_update_nth_at, Hc.
  cbn [option_map]. rewrite Nat.eqb_refl.
  unfold EventEmitter_emit. change (String.eqb "disconnect" "error") with false.
  cbn [andb]. cbv beta iota. world_simpl.
  rewrite !update_nth_compose. reflexivity.
Qed.

(** X7.  [disconnect()] of a connection object: the connection leaves, in
    the directory, exactly the rooms its own set lists; its set is emptied,
    its channel closed, its listeners removed after they were notified of
    ['disconnect']; nothing is thrown.  The registry keeps the connection:
    [disconnect()] does not unregister it. *)
Theorem Connection_disconnect_tears_down (w : World) (a : nat) (c : Connection) :
  nth_error (heap w) a = Some c ->
  let (w', r) := Connection_disconnect a w in
  r = Ok tt
  /\ log w' = (log w ++ [ConnectionEmit a "disconnect" []])%list
  /\ (forall a',
        nth_error (heap w') a'
        = option_map (fun c' => if Nat.eqb a' a then torn_down c' else c')
                     (nth_error (heap w) a'))
  /\ (forall room,
        members w' room
        = if JSSet.has (conn_rooms c) room
          then JSSet.delete (members w room) (conn_id c)
          else members w room)
  /\ connections (server w') = connections (server w).
Proof.
  intros Hc. rewrite (Connection_disconnect_run w a c Hc).
  split; [reflexivity|]. split; [reflexivity|]. split; [|split].
  - intros a'. cbn [heap]. apply nth_error_update_nth_at.
  - intros room. unfold members at 1. cbn [server].
    apply (members_leave_all (conn_id c) (conn_rooms c) room w).
  - cbn [server]. destruct (leave_all_shape (conn_id c) (conn_rooms c) w) as [rms ->].
    reflexivity.
Qed.

Lemma Connection_disconnect_tears_down_witness :
  let w := run [Accept (mkChannel 0 [] false false);
                Accept (mkChannel 0 [] false false);
                Join 0 "lobby"; Join 1 "lobby"; Join 0 "games"; On 0 "chat" 3]
               (init None 1700 letters) in
  let c := mkConnection "a" (mkChannel 0 [] false false) ["lobby"; "games"]
                        [("chat", [3%nat])] [("chat", 3%nat)] in
  nth_error (heap w) 0 = Some c
  /\ let (w', r) := Connection_disconnect 0 w in
     r = Ok tt
     /\ log w' = (log w ++ [ConnectionEmit 0 "disconnect" []])%list
     /\ (forall a',
           nth_error (heap w') a'
           = option_map (fun c' => if Nat.eqb a' 0 then torn_down c' else c')
                        (nth_error (heap w) a'))
     /\ (forall room,
           members w' room
           = if JSSet.has (conn_rooms c) room
             then JSSet.delete (members w room) (conn_id c)
             else members w room)
     /\ connections (server w') = connections (server w).
Proof.
  intros w c.
  assert (nth_error (heap w) 0 = Some c) as H by reflexivity.
  split; [exact H|].
  exact (Connection_disconnect_tears_down w 0 c H).
Defined.

Lemma disconnect_all_run (cs : list nat) :
  forall w,
    (forall a, In a cs -> exists c, nth_error (heap w) a = Some c) ->
    exists rms,
      for_of cs Connection_disconnect w
      = (mkWorld (fold_left (fun h a => update_nth a torn_down h) cs (heap w))
                 (set_rooms rms (server w))
                 (log w ++ map (fun a => ConnectionEmit a "disconnect" []) cs)%list
                 (clock w) (ids w) (fresh w),
         Ok tt).
Proof.
  induction cs as [|a cs IH]; intros w Hvalid.
  - exists (rooms (server w)). cbn [for_of fold_left map]. unfold ret.
    rewrite List.app_nil_r. destruct w as [h [cn rs m o l] lg ck i f]. reflexivity.
  - destruct (Hvalid a (or_introl eq_refl)) as [c Hc].
    cbn [for_of fold_left map]. unfold bind at 1.
    rewrite (Connection_disconnect_run w a c Hc).
    destruct (leave_all_shape (conn_id c) (conn_rooms c) w) as [rms0 ->].
    match goal with
    | |- context [for_of cs Connection_disconnect ?w0] =>
        destruct (IH w0) as [rms H]
    end.
    + intros a' Hin. cbn [heap]. rewrite nth_error_update_nth_at.
      destruct (Hvalid a' (or_intror Hin)) as [c' ->]. simpl. eauto.
    + exists rms. rewrite H. world_simpl. rewrite <- List.app_assoc. reflexivity.
Qed.

(** X8.  [close()] in a state the server reaches: every registered
    connection is torn down as [disconnect()] does it, in the order of the
    registry, each after a local ['disconnect'] notification; then the
    registry and the directory are empty and the server's listeners are
    notified of ['close'].  Nothing is thrown, and a connection object that
    is no longer registered is not touched: its channel stays as it was. *)
Theorem close_tears_down_registered_connections
  (limit : option Z) (now : Z) (gen : nat -> string) (ops : list Op) :
  let w := run ops (init limit now gen) in
  let (w', r) := close w in
  r = Ok tt
  /\ connections (server w') = JSMap.empty
  /\ rooms (server w') = JSMap.empty
  /\ log w' = (log w
               ++ map (fun a => ConnectionEmit a "disconnect" [])
                      (JSMap.values (connections (server w)))
               ++ [ServerEmit "close" []])%list
  /\ forall a,
       nth_error (heap w') a
       = option_map (fun c => if is_registered w a then torn_down c else c)
                    (nth_error (heap w) a).
Proof.
  intros w.
  pose proof (reachable_registry w (reachable_run ops limit now gen)) as Hreg.
  unfold close. unfold bind at 1. unfold gets at 1.
  unfold bind at 1.
  destruct (disconnect_all_run (JSMap.values (connections (server w))) w) as [rms ->].
  { intros a Hin. apply registry_values_valid; assumption. }
  unfold NanoSocket_emit. change (String.eqb "close" "broadcast") with false. cbv iota.
  unfold NanoSocket_super_emit, EventEmitter_emit.
  change (String.eqb "close" "error") with false. cbn [andb].
  run_monad. unfold modify. cbv beta iota. world_simpl.
  split; [reflexivity|]. split; [reflexivity|]. split; [reflexivity|].
  split; [rewrite <- List.app_assoc; reflexivity|].
  intros a. apply fan_out_pointwise. apply registry_values_NoDup. exact Hreg.
Qed.

(** *** Accepting a connection *)

(** X9.  [handleConnection] files the new connection in the registry
    before it runs the middlewares, and nothing it does afterwards takes it
    out: whatever the middlewares do (pass, reject, throw, or never call
    their continuation), the connection object is registered under its id
    when [handleConnection] is done. *)
Theorem handleConnection_always_registers (w : World) (channel : Channel) :
  let socketId := ids w (fresh w) in
  let a := List.length (heap w) in
  let w' := fst (handleConnection channel w) in
  registered w' socketId = Some a
  /\ exists c', nth_error (heap w') a = Some c' /\ conn_id c' = socketId.
Proof.
  intros socketId a w'.
  set (I := fun w0 : World =>
              registered w0 socketId = Some a
              /\ nth_error (map conn_id (heap w0)) a = Some socketId).
  assert (forall w0 w1, footprint w1 = footprint w0 -> I w0 -> I w1) as Hfoot.
  { intros w0 w1 Hf [H1 H2]. unfold footprint in Hf. inversion Hf as [[Hh Hc Hr]].
    unfold I, registered. rewrite Hh, Hc. split; assumption. }
  assert (forall id room, preserves I (leaveRoom id room)) as Hleave.
  { intros id room w0 H. unfold leaveRoom, modify_server, modify. cbn [fst].
    destruct (JSMap.get (rooms (server w0)) room) as [r|]; [|exact H].
    destruct (JSSet.size (sockets {| name := name r;
                                    sockets := JSSet.delete (sockets r) id |}) =? 0)%nat;
      exact H. }
  assert (I w') as [H1 H2].
  { unfold w', handleConnection.
    change (I (fst ((try_catch
      (done <- runMiddlewares a ;;
       match done with
       | Finished => NanoSocket_emit "connection" [AConnection a] ;; ret (a, Finished)
       | Pending => ret (a, Pending)
       end)
      (fun error =>
         Connection_disconnect a ;;
         NanoSocket_emit "error" [AError error] ;;
         ret (a, Finished)))
      (set_server
         (set_connections (JSMap.set (connections (server w)) socketId a) (server w))
         (set_heap (heap w ++ [mkConnection socketId channel JSSet.empty JSMap.empty []])%list
                   (fst (generateId w))))))).
    match goal with
    | |- I (fst (try_catch ?body ?handler ?w0)) =>
        apply (preserves_try_catch I body handler)
    end.
    - apply preserves_bind;
        [apply (footprint_preserves I Hfoot), footprint_runMiddlewares|].
      intros [|]; [|apply preserves_ret].
      apply preserves_bind; [apply (rule_NanoSocket_emit I Hfoot)|].
      intros _. apply preserves_ret.
    - intros e. apply preserves_bind; [apply (rule_Connection_disconnect I Hfoot Hleave)|].
      intros _. apply preserves_bind; [apply (rule_NanoSocket_emit I Hfoot)|].
      intros _. apply preserves_ret.
    - unfold I, registered. cbn [server set_server connections set_connections heap set_heap].
      split.
      + rewrite JSMap_get_set, String.eqb_refl. reflexivity.
      + rewrite map_app. cbn [map conn_id]. unfold a.
        rewrite <- (length_map conn_id (heap w)). apply nth_error_app_length. }
  split; [exact H1|].
  rewrite nth_error_map in H2. destruct (nth_error (heap w') a) as [c'|]; [|discriminate].
  exists c'. split; [reflexivity|]. cbn in H2. congruence.
Qed.

Lemma runMiddlewares_loop_pass (a : nat) (c : Connection) (ms : list Middleware) :
  forall (i : nat) (w : World),
    nth_error (heap w) a = Some c ->
    Forall (fun m => m c = Next None) ms ->
    runMiddlewares_loop i ms a w
    = (mkWorld (heap w) (server w)
               (log w ++ map (fun j => MiddlewareInvoked j a) (seq i (List.length ms)))%list
               (clock w) (ids w) (fresh w),
       Ok Finished).
Proof.
  induction ms as [|m ms IH]; intros i w Hc Hpass.
  - cbn [runMiddlewares_loop List.length seq map]. unfold ret. rewrite List.app_nil_r.
    destruct w; reflexivity.
  - inversion Hpass as [|? ? Hm Hrest]; subst.
    cbn [runMiddlewares_loop]. rewrite Hc, Hm. cbv zeta.
    rewrite IH by assumption.
    cbn [heap server log clock ids fresh add_log List.length seq map].
    rewrite <- List.app_assoc. reflexivity.
Qed.

Lemma runMiddlewares_loop_stall (a : nat) (c : Connection) (m : Middleware)
  (after : list Middleware) (before : list Middleware) :
  forall (i : nat) (w : World),
    nth_error (heap w) a = Some c ->
    Forall (fun m' => m' c = Next None) before ->
    m c = NeverCalls ->
    runMiddlewares_loop i (before ++ m :: after)%list a w
    = (mkWorld (heap w) (server w)
               (log w ++ map (fun j => MiddlewareInvoked j a)
                             (seq i (S (List.length before))))%list
               (clock w) (ids w) (fresh w),
       Ok Pending).
Proof.
  induction before as [|m' before IH]; intros i w Hc Hbefore Hm.
  - cbn [Datatypes.app runMiddlewares_loop]. rewrite Hc, Hm. reflexivity.
  - inversion Hbefore as [|? ? Hm' Hrest]; subst.
    change ((m' :: before) ++ m :: after)%list with (m' :: (before ++ m :: after))%list.
    cbn [runMiddlewares_loop]. rewrite Hc, Hm'. cbv zeta.
    rewrite IH by assumption.
    cbn [heap server log clock ids fresh add_log List.length seq map].
    rewrite <- List.app_assoc. reflexivity.
Qed.

(** X10.  When every middleware calls its continuation without an error,
    [handleConnection] calls each of them once, in order, with the new
    connection, and then notifies the server's listeners of ['connection']
    with it; the connection is registered, its channel is untouched, it is in
    no room, and nothing is thrown. *)
Theorem handleConnection_passing_middlewares (w : World) (channel : Channel) :
  let socketId := ids w (fresh w) in
  let a := List.length (heap w) in
  let c := mkConnection socketId channel JSSet.empty JSMap.empty [] in
  Forall (fun m => m c = Next None) (middlewares (server w)) ->
  handleConnection channel w
  = (mkWorld (heap w ++ [c])%list
             (set_connections (JSMap.set (connections (server w)) socketId a) (server w))
             (log w
              ++ map (fun i => MiddlewareInvoked i a)
                     (seq 0 (List.length (middlewares (server w))))
              ++ [ServerEmit "connection" [AConnection a]])%list
             (clock w) (ids w) (S (fresh w)),
     Ok (a, Finished)).
Proof.
  intros socketId a c Hpass.
  unfold handleConnection, generateId, runMiddlewares. run_monad. unfold modify.
  cbv beta iota. world_simpl.
  match goal with
  | |- context [runMiddlewares_loop 0 ?ms0 ?a0 ?w0] =>
      rewrite (runMiddlewares_loop_pass a0 c ms0 0 w0
                 (nth_error_app_length (heap w) _) Hpass)
  end.
  unfold NanoSocket_emit. change (String.eqb "connection" "broadcast") with false.
  cbv iota. unfold NanoSocket_super_emit, EventEmitter_emit.
  change (String.eqb "connection" "error") with false. cbn [andb].
  unfold add_log. world_simpl. rewrite <- List.app_assoc. reflexivity.
Qed.

Lemma handleConnection_passing_middlewares_witness :
  let w := run [Use allow; Use allow] (init None 1700 letters) in
  let channel := mkChannel 0 [] false false in
  let c := mkConnection "a" channel JSSet.empty JSMap.empty [] in
  Forall (fun m => m c = Next None) (middlewares (server w))
  /\ handleConnection channel w
     = (mkWorld [c]
                (set_connections [("a", 0%nat)] (server w))
                [MiddlewareInvoked 0 0; MiddlewareInvoked 1 0;
                 ServerEmit "connection" [AConnection 0]]
                1700 letters 1,
        Ok (0%nat, Finished)).
Proof.
  intros w channel c.
  assert (Forall (fun m => m c = Next None) (middlewares (server w))) as H
    by (repeat constructor).
  split; [exact H|].
  exact (handleConnection_passing_middlewares w channel H).
Defined.

(** X11.  When the middleware chain reaches a middleware that never calls
    its continuation, after middlewares that all passed: [handleConnection]
    does not finish, ['connection'] is never notified and nothing is torn
    down, but the connection stays registered with its channel open, so the
    fan-out of [broadcast] serves it. *)
Theorem handleConnection_stalled_middleware
  (w : World) (channel : Channel) (before after : list Middleware) (m : Middleware) :
  let socketId := ids w (fresh w) in
  let a := List.length (heap w) in
  let c := mkConnection socketId channel JSSet.empty JSMap.empty [] in
  middlewares (server w) = (before ++ m :: after)%list ->
  Forall (fun m' => m' c = Next None) before ->
  m c = NeverCalls ->
  let (w', r) := handleConnection channel w in
  r = Ok (a, Pending)
  /\ log w' = (log w ++ map (fun i => MiddlewareInvoked i a)
                            (seq 0 (S (List.length before))))%list
  /\ heap w' = (heap w ++ [c])%list
  /\ registered w' socketId = Some a
  /\ is_registered w' a = true.
Proof.
  intros socketId a c Hms Hbefore Hm.
  unfold handleConnection, generateId, runMiddlewares. run_monad. unfold modify.
  cbv beta iota. world_simpl. rewrite Hms.
  match goal with
  | |- context [runMiddlewares_loop 0 _ ?a0 ?w0] =>
      rewrite (runMiddlewares_loop_stall a0 c m after before 0 w0
                 (nth_error_app_length (heap w) _) Hbefore Hm)
  end.
  world_simpl.
  assert (JSMap.get (JSMap.set (connections (server w)) socketId a) socketId = Some a) as Hg
    by (rewrite JSMap_get_set, String.eqb_refl; reflexivity).
  split; [reflexivity|]. split; [reflexivity|]. split; [reflexivity|].
  split; [exact Hg|].
  unfold is_registered. world_simpl. apply existsb_exists. exists a.
  split; [|apply Nat.eqb_refl].
  unfold JSMap.values. apply in_map_iff. exists (socketId, a).
  split; [reflexivity | apply JSMap_get_In; exact Hg].
Qed.

Lemma handleConnection_stalled_middleware_witness :
  let w := run [Use allow; Use stall; Use (deny (Error "no"))] (init None 1700 letters) in
  let channel := mkChannel 0 [] false false in
  let c := mkConnection "a" channel JSSet.empty JSMap.empty [] in
  (middlewares (server w) = ([allow] ++ stall :: [deny (Error "no")])%list
   /\ Forall (fun m' => m' c = Next None) [allow]
   /\ stall c = NeverCalls)
  /\ let (w', r) := handleConnection channel w in
     r = Ok (0%nat, Pending)
     /\ log w' = [MiddlewareInvoked 0 0; MiddlewareInvoked 1 0]
     /\ heap w' = [c]
     /\ registered w' "a" = Some 0%nat
     /\ is_registered w' 0 = true.
Proof.
  intros w channel c.
  assert (middlewares (server w) = ([allow] ++ stall :: [deny (Error "no")])%list) as H1
    by reflexivity.
  assert (Forall (fun m' => m' c = Next None) [allow]) as H2 by (repeat constructor).
  assert (stall c = NeverCalls) as H3 by reflexivity.
  split; [repeat split; assumption|].
  exact (handleConnection_stalled_middleware w channel [allow] [deny (Error "no")] stall
           H1 H2 H3).
Defined.

(** *** The fan-out of [broadcastToRoom] *)

Lemma fan_out_turn_keeps_server (a : nat) (buffer : string) (limit : Z) (w : World) :
  server (fst (try_catch
                 (buffered <- ws_getBufferedAmount a ;;
                  if (buffered <? limit)%Z then ws_send a buffer else ret tt)
                 (fun error => Connection_emit a "error" [JObj []] ;; ret tt) w))
  = server w.
Proof.
  unfold try_catch, bind, ws_getBufferedAmount.
  destruct (nth_error (heap w) a) as [c|] eqn:Hc; [|reflexivity].
  destruct (bufferedAmount (ws c) <? limit)%Z; [|reflexivity].
  unfold ws_send. rewrite Hc. destruct (Channel_send (ws c) buffer) as [ch [u|e]];
    reflexivity.
Qed.

Lemma bind_apply {S A B} (m : M S A) (k : A -> M S B) (s : S) :
  bind m k s = match m s with
               | (s', Ok a) => k a s'
               | (s', Throw e) => (s', Throw e)
               end.
Proof. reflexivity. Qed.

(** The loop over the member ids is the loop over the connection objects
    that the registry holds for them. *)
Lemma room_loop_is_fan_out (turn : nat -> St unit) (socketIds : list string) :
  (forall a w, server (fst (turn a w)) = server w) ->
  forall w,
    for_of socketIds (fun socketId =>
      connection <- gets (fun w => JSMap.get (connections (server w)) socketId) ;;
      match connection with
      | Some a => turn a
      | None => ret tt
      end) w
    = for_of (targets_of (connections (server w)) socketIds) turn w.
Proof.
  intros Hturn. induction socketIds as [|socketId rest IH]; intros w; [reflexivity|].
  cbn [for_of targets_of flat_map]. fold (targets_of (connections (server w)) rest).
  rewrite bind_apply, bind_apply. unfold gets at 1.
  destruct (JSMap.get (connections (server w)) socketId) as [a|].
  - cbn [Datatypes.app for_of]. rewrite (bind_apply (turn a)).
    pose proof (Hturn a w) as Hk.
    destruct (turn a w) as [w1 [u|e]]; [|reflexivity].
    cbn [fst] in Hk. rewrite IH, Hk. reflexivity.
  - cbn [Datatypes.app]. unfold ret at 1. apply IH.
Qed.

Lemma In_targets_of (registry : JSMap.t nat) (socketIds : list string) (a : nat) :
  In a (targets_of registry socketIds) <->
  exists socketId, In socketId socketIds /\ JSMap.get registry socketId = Some a.
Proof.
  unfold targets_of. rewrite in_flat_map. split.
  - intros [id [Hin Ha]]. exists id. split; [exact Hin|].
    destruct (JSMap.get registry id) as [a'|]; [|destruct Ha].
    destruct Ha as [->|[]]. reflexivity.
  - intros [id [Hin Hg]]. exists id. split; [exact Hin|]. rewrite Hg. now left.
Qed.

Lemma NoDup_targets_of (w : World) (socketIds : list string) :
  registry_consistent w -> NoDup socketIds ->
  NoDup (targets_of (connections (server w)) socketIds).
Proof.
  intros Hreg. induction socketIds as [|sid rest IH]; intros Hnd; [constructor|].
  inversion Hnd as [|? ? Hnotin Hrest]; subst.
  cbn [targets_of flat_map]. fold (targets_of (connections (server w)) rest).
  destruct (JSMap.get (connections (server w)) sid) as [a|] eqn:Hg;
    cbn [Datatypes.app]; [|apply IH; exact Hrest].
  constructor; [|apply IH; exact Hrest].
  intros Hin. apply In_targets_of in Hin. destruct Hin as [sid' [Hin' Hg']].
  destruct (registered_object w sid a Hreg Hg) as [c [Hc Hid]].
  destruct (registered_object w sid' a Hreg Hg') as [c' [Hc' Hid']].
  apply Hnotin. replace sid with sid' by congruence. exact Hin'.
Qed.

(** X12.  [broadcastToRoom] in a state the server reaches, with channels
    that take frames: every member of the room that is registered and whose
    channel holds less than [maxBackpressure] bytes is handed the one encoded
    frame once; member ids that are not registered are skipped, every other
    connection object is left as it is, nothing is notified and nothing is
    thrown.  The event name is not looked at: this holds for reserved and
    empty names too. *)
Theorem broadcastToRoom_serves_the_registered_members
  (limit : option Z) (now : Z) (gen : nat -> string) (ops : list Op)
  (roomName event0 : string) (args : list value) :
  let w := run ops (init limit now gen) in
  channels_work w (room_targets w roomName) = true ->
  let (w', r) := broadcastToRoom roomName event0 args w in
  r = Ok tt
  /\ server w' = server w
  /\ log w' = log w
  /\ forall a,
       nth_error (heap w') a
       = option_map
           (fun c => if existsb (Nat.eqb a) (room_targets w roomName)
                     then served (fan_out_frame w event0 args)
                                 (maxBackpressure (options (server w))) c
                     else c)
           (nth_error (heap w) a).
Proof.
  intros w Hwork.
  pose proof (reachable_registry w (reachable_run ops limit now gen)) as Hreg.
  pose proof (reachable_directory w (reachable_run ops limit now gen)) as [_ Hdir].
  unfold room_targets, members in *.
  unfold broadcastToRoom. unfold bind at 1. unfold gets at 1.
  destruct (JSMap.get (rooms (server w)) roomName) as [room|] eqn:Hroom.
  - destruct (sockets room) as [|x s] eqn:Hs.
    + cbn [JSSet.size List.length Nat.eqb]. unfold ret.
      repeat split; try reflexivity. intros a. cbn [targets_of flat_map existsb].
      destruct (nth_error (heap w) a); reflexivity.
    + cbn [JSSet.size List.length Nat.eqb]. rewrite <- Hs in *.
      unfold bind at 1. unfold Date_now, gets at 1.
      unfold bind at 1. unfold gets at 1.
      rewrite (room_loop_is_fan_out
                 (fun a =>
                    try_catch
                      (buffered <- ws_getBufferedAmount a ;;
                       if (buffered <? maxBackpressure (options (server w)))%Z
                       then ws_send a (serializeMessage
                                         (mkMessage event0 (Some (JArr args)) None
                                                    (Some (JNum (clock w)))))
                       else ret tt)
                      (fun error => Connection_emit a "error" [JObj []] ;; ret tt)))
        by (intros a0 w0; apply fan_out_turn_keeps_server).
      rewrite fan_out_loop; [| | exact Hwork].
      * split; [reflexivity|]. split; [reflexivity|]. split; [reflexivity|].
        intros a. cbn [heap set_heap]. apply fan_out_pointwise.
        apply NoDup_targets_of; [exact Hreg|].
        rewrite Forall_forall in Hdir.
        apply (Hdir _ (JSMap_get_In _ _ _ Hroom)).
      * intros a Hin. apply In_targets_of in Hin. destruct Hin as [id [_ Hg]].
        destruct (registered_object w id a Hreg Hg) as [c [Hc _]]. eauto.
  - unfold ret. repeat split; try reflexivity. intros a.
    cbn [JSSet.empty targets_of flat_map existsb].
    destruct (nth_error (heap w) a); reflexivity.
Qed.

Lemma broadcastToRoom_serves_the_registered_members_witness :
  let w := run [Accept (mkChannel 0 [] false false);
                Accept (mkChannel 0 [] false false);
                Accept (mkChannel 0 [] false false);
                Join 0 "lobby"; Join 2 "lobby"; JoinRoom "ghost" "lobby"]
               (init None 1700 letters) in
  (channels_work w (room_targets w "lobby") = true
   /\ room_targets w "lobby" = [0; 2]%nat
   /\ members w "lobby" = ["a"; "c"; "ghost"])
  /\ let (w', r) := broadcastToRoom "lobby" "error" [] w in
     r = Ok tt
     /\ server w' = server w
     /\ log w' = log w
     /\ forall a,
          nth_error (heap w') a
          = option_map
              (fun c => if existsb (Nat.eqb a) (room_targets w "lobby")
                        then served (fan_out_frame w "error" [])
                                    (maxBackpressure (options (server w))) c
                        else c)
              (nth_error (heap w) a).
Proof.
  intros w.
  assert (channels_work w (room_targets w "lobby") = true) as H by (vm_compute; reflexivity).
  split; [split; [exact H | split; reflexivity]|].
  exact (broadcastToRoom_serves_the_registered_members
           None 1700 letters
           [Accept (mkChannel 0 [] false false);
            Accept (mkChannel 0 [] false false);
            Accept (mkChannel 0 [] false false);
            Join 0 "lobby"; Join 2 "lobby"; JoinRoom "ghost" "lobby"]
           "lobby" "error" [] H).
Defined.

End RegistryFacts.

(** ** Inbound messages on the server *)

Module InboundFacts.
Import Server ServerSpec RegistrySpec Inbound InboundSpec MonadFacts ServerFacts RegistryFacts.

Ltac run_monad :=
  unfold bind, gets, modify, ret, throw, try_catch, modify_server, update_conn, ignore.

Lemma call_all (beh : Behaviour) (args : list arg) (hs : list nat) :
  forall s,
    (forall h, In h hs -> beh h args = None) ->
    for_of hs (fun h => call beh h args) s
    = (mkState (world s) (calls s ++ called_with args hs)%list, Ok tt).
Proof.
  induction hs as [|h hs IH]; intros s Hq.
  - cbn [for_of called_with map]. unfold ret. rewrite List.app_nil_r.
    destruct s; reflexivity.
  - cbn [for_of]. unfold bind at 1. unfold call at 1.
    rewrite (Hq h (or_introl eq_refl)). rewrite IH by (intros h' Hin; apply Hq; now right).
    cbn [world calls called_with map]. rewrite <- List.app_assoc. reflexivity.
Qed.

Lemma call_until (beh : Behaviour) (args : list arg) (h : nat) (e : exn)
  (after : list nat) (before : list nat) :
  forall s,
    (forall h', In h' before -> beh h' args = None) ->
    beh h args = Some e ->
    for_of (before ++ h :: after)%list (fun h => call beh h args) s
    = (mkState (world s) (calls s ++ called_with args (before ++ [h]))%list, Throw e).
Proof.
  induction before as [|h0 before IH]; intros s Hq Hh.
  - cbn [Datatypes.app for_of]. unfold bind at 1. unfold call at 1. rewrite Hh. reflexivity.
  - change ((h0 :: before) ++ h :: after)%list with (h0 :: (before ++ h :: after))%list.
    cbn [for_of]. unfold bind at 1. unfold call at 1.
    rewrite (Hq h0 (or_introl eq_refl)).
    rewrite IH by (try (intros h' Hin; apply Hq; now right); assumption).
    cbn [world calls called_with map Datatypes.app]. rewrite <- List.app_assoc. reflexivity.
Qed.

Lemma call_all_guarded (beh : Behaviour) (a : nat) (args : list arg) (hs : list nat) :
  forall s,
    (forall h, In h hs -> beh h args = None) ->
    for_of hs (fun handler =>
      try_catch (call beh handler args)
                (fun error => Connection_super_emit_run beh a "error" [AError error] ;; ret tt)) s
    = (mkState (world s) (calls s ++ called_with args hs)%list, Ok tt).
Proof.
  induction hs as [|h hs IH]; intros s Hq.
  - cbn [for_of called_with map]. unfold ret. rewrite List.app_nil_r.
    destruct s; reflexivity.
  - cbn [for_of]. unfold bind at 1. unfold try_catch at 1. unfold call at 1.
    rewrite (Hq h (or_introl eq_refl)). rewrite IH by (intros h' Hin; apply Hq; now right).
    cbn [world calls called_with map]. rewrite <- List.app_assoc. reflexivity.
Qed.

Lemma listenerCount_listeners_for (ls : Listeners) (name : string) :
  listenerCount ls name = List.length (listeners_for ls name).
Proof. unfold listenerCount, listeners_for. now rewrite length_map. Qed.

(** [super.emit] up to the calls of the listeners. *)
Lemma Connection_super_emit_run_start (beh : Behaviour) (a : nat) (c : Connection)
  (name : string) (args : list arg) (w : World) (cs : list (nat * list arg)) :
  nth_error (heap w) a = Some c ->
  Connection_super_emit_run beh a name args (mkState w cs)
  = match EventEmitter_emit (conn_listeners c) name args with
    | Ok fired =>
        match for_of (listeners_for (conn_listeners c) name) (fun h => call beh h args)
                     (mkState (add_log (ConnectionEmit a name args) w) cs) with
        | (s', Ok _) => (s', Ok fired)
        | (s', Throw e) => (s', Throw e)
        end
    | Throw e => (mkState (add_log (ConnectionEmit a name args) w) cs, Throw e)
    end.
Proof.
  intros Hc. unfold Connection_super_emit_run.
  unfold bind at 1. unfold lift at 1. unfold gets at 1. cbn [world calls]. rewrite Hc.
  unfold bind at 1. unfold lift at 1. unfold Connection_super_emit at 1.
  cbn [world calls]. rewrite Hc.
  destruct (EventEmitter_emit (conn_listeners c) name args) as [fired|e]; [|reflexivity].
  unfold bind at 1.
  destruct (for_of (listeners_for (conn_listeners c) name) (fun h => call beh h args)
                   (mkState (add_log (ConnectionEmit a name args) w) cs)) as [s' [u|e]];
    reflexivity.
Qed.

Lemma EventEmitter_emit_plain (ls : Listeners) (name : string) (args : list arg) :
  String.eqb name "error" = false ->
  EventEmitter_emit ls name args = Ok (negb (listenerCount ls name =? 0)%nat).
Proof. intros H. unfold EventEmitter_emit. rewrite H. reflexivity. Qed.

(** A message all of whose listeners and handlers return. *)
Lemma Connection_handleMessage_quiet (beh : Behaviour) (a : nat) (c : Connection)
  (m : Message) (args : list arg) (w : World) (cs : list (nat * list arg)) :
  nth_error (heap w) a = Some c ->
  spread (data m) = Ok args ->
  String.eqb (event m) "error" = false ->
  (forall h, In h (listeners_for (conn_listeners c) (event m)) -> beh h args = None) ->
  (forall h, In h (handlers_for c (event m)) -> beh h args = None) ->
  Connection_handleMessage beh a m (mkState w cs)
  = (mkState (add_log (ConnectionEmit a (event m) args) w)
             (cs ++ called_with args (listeners_for (conn_listeners c) (event m)
                                      ++ handlers_for c (event m)))%list,
     Ok tt).
Proof.
  intros Hc Hs Hev Hl Hh. unfold Connection_handleMessage. rewrite Hs.
  unfold try_catch at 1. unfold bind at 1.
  rewrite (Connection_super_emit_run_start beh a c _ _ w cs Hc).
  rewrite (EventEmitter_emit_plain _ _ _ Hev).
  rewrite (call_all beh args _ _ Hl). cbn [world calls].
  unfold bind at 1. unfold lift at 1. unfold gets at 1. cbn [world calls heap add_log].
  rewrite Hc. unfold handlers_for in *.
  unfold called_with. rewrite map_app, List.app_assoc.
  destruct (JSMap.get (eventHandlers c) (event m)) as [hs|].
  - rewrite (call_all_guarded beh a args hs _ Hh). reflexivity.
  - cbn [map]. rewrite List.app_nil_r. reflexivity.
Qed.

Lemma listeners_for_app (ls ls' : Listeners) (name : string) :
  listeners_for (ls ++ ls')%list name
  = (listeners_for ls name ++ listeners_for ls' name)%list.
Proof. unfold listeners_for. now rewrite filter_app, map_app. Qed.

(** X13.  A handler registered with [on] is run twice for each inbound
    message of its event: [handleMessage] of the connection first notifies
    the listeners of the event, among which [on] has put the handler, and
    then calls the handlers of its own table, where [on] has put it too.
    With handlers that all return, the calls are the listeners of the event
    followed by the handlers of the table, each with the data of the message,
    and the handler just registered is the last of both. *)
Theorem handler_registered_with_on_runs_twice
  (beh : Behaviour) (w : World) (a : nat) (c : Connection) (event0 : string) (h : nat)
  (m : Message) (l : list value) (cs : list (nat * list arg)) :
  nth_error (heap w) a = Some c ->
  quiet beh ->
  event m = event0 ->
  data m = Some (JArr l) ->
  String.eqb event0 "error" = false ->
  let w1 := fst (Connection_on a event0 h w) in
  Connection_handleMessage beh a m (mkState w1 cs)
  = (mkState (add_log (ConnectionEmit a event0 (map AValue l)) w1)
             (cs ++ called_with (map AValue l)
                      ((listeners_for (conn_listeners c) event0 ++ [h])
                       ++ (handlers_for c event0 ++ [h])))%list,
     Ok tt).
Proof.
  intros Hc Hq Hev Hd Herr w1.
  assert (nth_error (heap w1) a
          = Some (set_conn_listeners (conn_listeners c ++ [(event0, h)])%list
                    (set_eventHandlers
                       (JSMap.set (eventHandlers c) event0 (handlers_for c event0 ++ [h])%list)
                       c))) as Hc1.
  { unfold w1, Connection_on, update_conn, modify. cbn [fst heap set_heap].
    rewrite nth_error_update_nth_at, Hc. cbn [option_map]. rewrite Nat.eqb_refl.
    reflexivity. }
  rewrite (Connection_handleMessage_quiet beh a _ m (map AValue l) w1 cs Hc1).
  - rewrite Hev. cbn [conn_listeners set_conn_listeners set_eventHandlers].
    rewrite listeners_for_app. unfold listeners_for at 2. cbn [filter fst].
    rewrite String.eqb_refl. cbn [map snd].
    unfold handlers_for. cbn [eventHandlers set_conn_listeners set_eventHandlers].
    rewrite JSMap_get_set, String.eqb_refl. reflexivity.
  - unfold spread. rewrite Hd. reflexivity.
  - rewrite Hev. exact Herr.
  - intros h' _. apply Hq.
  - intros h' _. apply Hq.
Qed.

Lemma handler_registered_with_on_runs_twice_witness :
  let w := run [Accept (mkChannel 0 [] false false)] (init None 1700 letters) in
  let c := mkConnection "a" (mkChannel 0 [] false false) [] [] [] in
  let m := mkMessage "chat" (Some (JArr [JStr "hi"])) None None in
  let w1 := fst (Connection_on 0 "chat" 5 w) in
  (nth_error (heap w) 0 = Some c
   /\ quiet (fun _ _ => None)
   /\ event m = "chat"
   /\ data m = Some (JArr [JStr "hi"])
   /\ String.eqb "chat" "error" = false)
  /\ Connection_handleMessage (fun _ _ => None) 0 m (mkState w1 [])
     = (mkState (add_log (ConnectionEmit 0 "chat" [AValue (JStr "hi")]) w1)
                [(5%nat, [AValue (JStr "hi")]); (5%nat, [AValue (JStr "hi")])],
        Ok tt).
Proof.
  intros w c m w1.
  assert (nth_error (heap w) 0 = Some c) as H1 by reflexivity.
  assert (quiet (fun _ _ => None)) as H2 by (intros h args; reflexivity).
  assert (event m = "chat") as H3 by reflexivity.
  assert (data m = Some (JArr [JStr "hi"])) as H4 by reflexivity.
  assert (String.eqb "chat" "error" = false) as H5 by reflexivity.
  split; [repeat split; assumption|].
  exact (handler_registered_with_on_runs_twice
           (fun _ _ => None) w 0 c "chat" 5 m [JStr "hi"] [] H1 H2 H3 H4 H5).
Defined.

(** X14.  A listener of the event that throws ends the dispatch of the
    message: the listeners after it are not called and the handlers of the
    connection's table are not called at all.  The exception is notified as
    an ['error'] of the connection; with no ['error'] listener it leaves
    [handleMessage]. *)
Theorem throwing_listener_ends_the_dispatch
  (beh : Behaviour) (w : World) (a : nat) (c : Connection) (m : Message)
  (args : list arg) (before after : list nat) (h : nat) (e : exn)
  (cs : list (nat * list arg)) :
  nth_error (heap w) a = Some c ->
  spread (data m) = Ok args ->
  String.eqb (event m) "error" = false ->
  listeners_for (conn_listeners c) (event m) = (before ++ h :: after)%list ->
  (forall h', In h' before -> beh h' args = None) ->
  beh h args = Some e ->
  (forall h', In h' (listeners_for (conn_listeners c) "error") ->
              beh h' [AError e] = None) ->
  Connection_handleMessage beh a m (mkState w cs)
  = (mkState (add_log (ConnectionEmit a "error" [AError e])
                (add_log (ConnectionEmit a (event m) args) w))
             (cs ++ called_with args (before ++ [h])
                 ++ called_with [AError e] (listeners_for (conn_listeners c) "error"))%list,
     match listeners_for (conn_listeners c) "error" with
     | [] => Throw e
     | _ :: _ => Ok tt
     end).
Proof.
  intros Hc Hs Hev Hls Hbefore Hh Herr.
  unfold Connection_handleMessage. rewrite Hs.
  unfold try_catch at 1. unfold bind at 1.
  rewrite (Connection_super_emit_run_start beh a c _ _ w cs Hc).
  rewrite (EventEmitter_emit_plain _ _ _ Hev). rewrite Hls.
  rewrite (call_until beh args h e after before _ Hbefore Hh). cbn [world calls].
  unfold bind at 1.
  assert (nth_error (heap (add_log (ConnectionEmit a (event m) args) w)) a = Some c) as Hc'
    by exact Hc.
  rewrite (Connection_super_emit_run_start beh a c _ _ _ _ Hc').
  unfold EventEmitter_emit. cbn [String.eqb Ascii.eqb Bool.eqb andb].
  rewrite listenerCount_listeners_for.
  destruct (listeners_for (conn_listeners c) "error") as [|h0 hs] eqn:El.
  - cbn [List.length Nat.eqb called_with map]. rewrite List.app_nil_r. reflexivity.
  - cbn [List.length Nat.eqb]. rewrite (call_all beh [AError e] (h0 :: hs) _ Herr).
    cbn [world calls]. rewrite <- List.app_assoc. reflexivity.
Qed.

Lemma throwing_listener_ends_the_dispatch_witness :
  let w := run [Accept (mkChannel 0 [] false false);
                On 0 "chat" 1; On 0 "chat" 9; On 0 "chat" 2; On 0 "error" 7]
               (init None 1700 letters) in
  let m := mkMessage "chat" (Some (JArr [])) None None in
  let c := mkConnection "a" (mkChannel 0 [] false false) []
             [("chat", [1; 9; 2]%nat); ("error", [7%nat])]
             [("chat", 1%nat); ("chat", 9%nat); ("chat", 2%nat); ("error", 7%nat)] in
  (nth_error (heap w) 0 = Some c
   /\ spread (data m) = Ok []
   /\ String.eqb (event m) "error" = false
   /\ listeners_for (conn_listeners c) (event m) = ([1] ++ 9 :: [2])%list
   /\ (forall h', In h' [1%nat] -> nine_throws h' [] = None)
   /\ nine_throws 9 [] = Some (Error "boom")
   /\ (forall h', In h' (listeners_for (conn_listeners c) "error") ->
                  nine_throws h' [AError (Error "boom")] = None))
  /\ Connection_handleMessage nine_throws 0 m (mkState w [])
     = (mkState (add_log (ConnectionEmit 0 "error" [AError (Error "boom")])
                   (add_log (ConnectionEmit 0 "chat" []) w))
                [(1%nat, []); (9%nat, []); (7%nat, [AError (Error "boom")])],
        Ok tt).
Proof.
  intros w m c.
  assert (nth_error (heap w) 0 = Some c) as H1 by reflexivity.
  assert (spread (data m) = Ok []) as H2 by reflexivity.
  assert (String.eqb (event m) "error" = false) as H3 by reflexivity.
  assert (listeners_for (conn_listeners c) (event m) = ([1] ++ 9 :: [2])%list) as H4
    by reflexivity.
  assert (forall h', In h' [1%nat] -> nine_throws h' [] = None) as H5.
  { intros h' [<-|[]]. reflexivity. }
  assert (nine_throws 9 [] = Some (Error "boom")) as H6 by reflexivity.
  assert (forall h', In h' (listeners_for (conn_listeners c) "error") ->
                     nine_throws h' [AError (Error "boom")] = None) as H7.
  { intros h' [<-|[]]. reflexivity. }
  split; [repeat split; assumption|].
  exact (throwing_listener_ends_the_dispatch
           nine_throws w 0 c m [] [1%nat] [2%nat] 9%nat (Error "boom") []
           H1 H2 H3 H4 H5 H6 H7).
Defined.

(** X15.  An inbound payload that [deserializeMessage] rejects, on the
    channel of a registered connection: the server's [handleMessage] reports
    through the connection's [emit], which rejects the reserved name
    ['error'], so [Invalid event name: error] is thrown into the transport's
    callback, nobody is notified, no handler is called and nothing changes.
    On a channel that is not registered, the server's ['error'] listeners are
    notified of the decoding error.  An empty payload is ignored. *)
Theorem handleMessage_rejected_payload
  (beh : Behaviour) (s : State) (socketId payload : string) (e : exn) :
  deserializeMessage payload = Throw e ->
  (payload = EmptyString -> handleMessage beh socketId payload s = (s, Ok tt))
  /\ (payload <> EmptyString ->
      handleMessage beh socketId payload s
      = match registered (world s) socketId with
        | Some a => (s, Throw (Error "Invalid event name: error"))
        | None =>
            (mkState (add_log (ServerEmit "error" [AError e]) (world s)) (calls s),
             match EventEmitter_emit (listeners (server (world s))) "error" [AError e] with
             | Ok _ => Ok tt
             | Throw e' => Throw e'
             end)
        end).
Proof.
  intros Hd. split.
  - intros ->. reflexivity.
  - intros Hne. unfold handleMessage.
    destruct payload as [|ch payload]; [congruence|].
    cbn [String.length Nat.eqb]. rewrite Hd. destruct s as [w cs].
    unfold try_catch at 1. unfold throw at 1.
    unfold bind at 1. unfold bind at 1. unfold lift at 1. unfold getConnectionByWs, gets.
    cbn [world calls]. fold (registered w socketId).
    destruct (registered w socketId) as [a|].
    + unfold bind at 1. unfold lift at 1. cbn [world calls].
      rewrite Connection_emit_error_throws. reflexivity.
    + unfold ret at 1. unfold bind at 1. unfold lift at 1. cbn [world calls].
      unfold NanoSocket_emit. change (String.eqb "error" "broadcast") with false.
      cbv iota. unfold NanoSocket_super_emit.
      destruct (EventEmitter_emit (listeners (server w)) "error" [AError e]);
        reflexivity.
Qed.

Lemma handleMessage_rejected_payload_witness :
  let w := run [Accept (mkChannel 0 [] false false); On 0 "error" 7; ServerOn "error" 8]
               (init None 1700 letters) in
  let payload := js "{'event':'connect','data':[]}" in
  let e := Wrapped "Failed to deserialize message: " (Error "Invalid event name: connect") in
  deserializeMessage payload = Throw e
  /\ payload <> EmptyString
  /\ handleMessage (fun _ _ => None) "a" payload (mkState w [])
     = (mkState w [], Throw (Error "Invalid event name: error")).
Proof.
  intros w payload e.
  assert (deserializeMessage payload = Throw e) as H1 by (vm_compute; reflexivity).
  assert (payload <> EmptyString) as H2 by discriminate.
  split; [exact H1|]. split; [exact H2|].
  exact (proj2 (handleMessage_rejected_payload (fun _ _ => None) (mkState w []) "a"
                  payload e H1) H2).
Defined.

(** *** [on] and [off] *)

Lemma remove_first_last (h : nat) (hs : list nat) :
  ~ In h hs -> remove_first h (hs ++ [h])%list = hs.
Proof.
  induction hs as [|x hs IH]; intros Hnot; cbn [Datatypes.app remove_first].
  - now rewrite Nat.eqb_refl.
  - destruct (Nat.eqb_spec x h) as [E|Hne]; [exfalso; apply Hnot; now left|].
    rewrite IH; [reflexivity|]. intros Hin. apply Hnot. now right.
Qed.

Lemma removeListener_last (ls : Listeners) (event : string) (h : nat) :
  removeListener (ls ++ [(event, h)])%list event h = ls.
Proof.
  unfold removeListener. rewrite rev_app_distr. cbn [List.rev Datatypes.app remove_first_listener fst snd].
  rewrite String.eqb_refl, Nat.eqb_refl. cbn [andb]. apply rev_involutive.
Qed.

Lemma listeners_for_removeAll (ls : Listeners) (event name : string) :
  listeners_for (removeAllListeners ls event) name
  = if String.eqb name event then [] else listeners_for ls name.
Proof.
  unfold listeners_for, removeAllListeners. induction ls as [|[k x] ls IH]; cbn [filter fst].
  - destruct (String.eqb name event); reflexivity.
  - destruct (String.eqb_spec k event) as [Ek|Hk]; cbn [negb filter fst].
    + rewrite IH. destruct (String.eqb_spec name event) as [En|Hn]; [reflexivity|].
      destruct (String.eqb_spec k name) as [Ekn|_]; [congruence | reflexivity].
    + destruct (String.eqb_spec k name) as [Ekn|Hkn]; cbn [map snd].
      * rewrite IH. destruct (String.eqb_spec name event) as [En|_]; [congruence | reflexivity].
      * exact IH.
Qed.

(** X16.  [off(event, handler)] after [on(event, handler)] gives back the
    connection as it was, when the handler was not in the table for the
    event before; and [off(event)] with no handler leaves no listener and no
    handler for the event and keeps those of every other event. *)
Theorem Connection_off_undoes_on
  (w : World) (a : nat) (c : Connection) (event0 : string) (h : nat) :
  nth_error (heap w) a = Some c ->
  (~ In h (handlers_for c event0) ->
   JSMap.get (eventHandlers c) event0 <> Some [] ->
   Connection_off a event0 (Some h) (fst (Connection_on a event0 h w)) = (w, Ok tt))
  /\ (let (w', r) := Connection_off a event0 None w in
      r = Ok tt
      /\ exists c',
           nth_error (heap w') a = Some c'
           /\ forall name,
                listeners_for (conn_listeners c') name
                = (if String.eqb name event0 then []
                   else listeners_for (conn_listeners c) name)
                /\ handlers_for c' name
                   = (if String.eqb name event0 then [] else handlers_for c name)).
Proof.
  intros Hc. split.
  - intros Hnot Hne.
    unfold Connection_off, Connection_on, update_conn, modify. cbn [fst heap set_heap].
    rewrite update_nth_compose.
    rewrite (update_nth_fix _ a (heap w) c Hc).
    + destruct w; reflexivity.
    + cbn [eventHandlers set_conn_listeners set_eventHandlers conn_listeners].
      rewrite JSMap_get_set, String.eqb_refl.
      unfold handlers_for in Hnot.
      destruct (JSMap.get (eventHandlers c) event0) as [hs|] eqn:E.
      * rewrite (remove_first_last h hs Hnot).
        destruct hs as [|x hs]; [congruence|]. cbn [List.length Nat.eqb].
        cbn [eventHandlers set_conn_listeners set_eventHandlers conn_listeners
             conn_id ws conn_rooms].
        rewrite JSMap_set_set, (JSMap_set_same _ _ _ E), removeListener_last.
        destruct c; reflexivity.
      * cbn [Datatypes.app remove_first]. rewrite Nat.eqb_refl. cbn [List.length Nat.eqb].
        cbn [eventHandlers set_conn_listeners set_eventHandlers conn_listeners
             conn_id ws conn_rooms].
        rewrite (JSMap_delete_set_absent _ _ _ E), removeListener_last.
        destruct c; reflexivity.
  - unfold Connection_off, update_conn, modify. split; [reflexivity|].
    cbn [heap set_heap]. rewrite nth_error_update_nth_at, Hc. cbn [option_map].
    rewrite Nat.eqb_refl. eexists. split; [reflexivity|].
    intros name. cbn [conn_listeners set_conn_listeners set_eventHandlers]. split.
    + apply listeners_for_removeAll.
    + unfold handlers_for. cbn [eventHandlers set_conn_listeners set_eventHandlers].
      rewrite JSMap_get_delete.
      destruct (String.eqb name event0); reflexivity.
Qed.

Lemma Connection_off_undoes_on_witness :
  let w := run [Accept (mkChannel 0 [] false false); On 0 "chat" 1]
               (init None 1700 letters) in
  let c := mkConnection "a" (mkChannel 0 [] false false) []
             [("chat", [1%nat])] [("chat", 1%nat)] in
  nth_error (heap w) 0 = Some c
  /\ ~ In 2%nat (handlers_for c "chat")
  /\ JSMap.get (eventHandlers c) "chat" <> Some []
  /\ Connection_off 0 "chat" (Some 2%nat) (fst (Connection_on 0 "chat" 2 w)) = (w, Ok tt).
Proof.
  intros w c.
  assert (nth_error (heap w) 0 = Some c) as H1 by reflexivity.
  assert (~ In 2%nat (handlers_for c "chat")) as H2.
  { intros [H|[]]. discriminate H. }
  assert (JSMap.get (eventHandlers c) "chat" <> Some []) as H3 by discriminate.
  split; [exact H1|]. split; [exact H2|]. split; [exact H3|].
  exact (proj1 (Connection_off_undoes_on w 0 c "chat" 2 H1) H2 H3).
Defined.

End InboundFacts.

(** ** The codec, beyond the round trip *)

Module CodecFacts.
Import JSON JSONSpec JSONFacts.








(** Decoding an encoding, for an envelope that [JSON.stringify] prints. *)
Lemma deserialize_serialize (m : Message) :
  isValidEventName (event m) = true ->
  serializable m = true ->
  (Z.of_nat (String.length (serializeMessage m)) <= MAX_MESSAGE_LENGTH)%Z ->
  deserializeMessage (serializeMessage m)
  = Ok (mkMessage (event m) (Some (JArr (normalizeData (data m)))) (id m) (timestamp m)).
Proof.
  intros Hvalid Hser Hlen.
  unfold deserializeMessage, deserializeMessage_body.
  replace (Z.of_nat (String.length (serializeMessage m)) >? MAX_MESSAGE_LENGTH)%Z
    with false by (symmetry; rewrite Z.gtb_ltb; apply Z.ltb_ge; exact Hlen).
  unfold serializeMessage. rewrite (parse_stringify _ Hser).
  rewrite toObject_get_event.
  replace (truthy (Some (JStr (event m)))) with true
    by (simpl; now rewrite (valid_event_nonempty _ Hvalid)).
  rewrite Hvalid. cbn [negb].
  rewrite toObject_get_data, asMessage_toObject. reflexivity.
Qed.



(** X17.  [deserializeMessage] accepts exactly the payloads of at most 1 MiB
    (in characters) that parse to an object whose [event] is a string that
    is a valid event name; the result has that name, the normalized [data]
    and the [id] and [timestamp] of the object.  So an accepted message
    always has a valid event name and a sequence as [data], and every
    failure carries the prefix [Failed to deserialize message: ]. *)
Theorem deserializeMessage_accepts_exactly (payload : string) :
  (forall m,
      deserializeMessage payload = Ok m <->
      (Z.of_nat (String.length payload) <= MAX_MESSAGE_LENGTH)%Z
      /\ exists o name,
           JSON.parse payload = Some (JObj o)
           /\ obj_get o "event" = Some (JStr name)
           /\ isValidEventName name = true
           /\ m = mkMessage name
                    (Some (JArr (normalization_of_the_code (obj_get o "data"))))
                    (obj_get o "id") (obj_get o "timestamp"))
  /\ (forall m, deserializeMessage payload = Ok m ->
                isValidEventName (event m) = true
                /\ exists l, data m = Some (JArr l))
  /\ (forall e, deserializeMessage payload = Throw e ->
                exists cause, e = Wrapped "Failed to deserialize message: " cause).
Proof.
  split; [|split].
  - intros m. split.
    + intros H. apply deserializeMessage_Ok in H.
      destruct H as (o & name & Hp & He & Hv & Hlen & ->).
      split; [exact Hlen|]. exists o, name.
      rewrite <- normalization_of_the_code_ok. repeat split; assumption.
    + intros [Hlen (o & name & Hp & He & Hv & ->)].
      unfold deserializeMessage, deserializeMessage_body.
      replace (Z.of_nat (String.length payload) >? MAX_MESSAGE_LENGTH)%Z
        with false by (symmetry; rewrite Z.gtb_ltb; apply Z.ltb_ge; exact Hlen).
      rewrite Hp. cbn [get_prop]. rewrite He.
      replace (truthy (Some (JStr name))) with true
        by (simpl; now rewrite (valid_event_nonempty _ Hv)).
      rewrite Hv. cbn [negb asMessage].
      rewrite normalization_of_the_code_ok. reflexivity.
  - intros m H. apply deserializeMessage_Ok in H.
    destruct H as (o & name & Hp & He & Hv & Hlen & ->).
    split; [exact Hv | eexists; reflexivity].
  - intros e. unfold deserializeMessage.
    destruct (deserializeMessage_body payload) as [m|cause]; [discriminate|].
    intros [= <-]. exists cause. reflexivity.
Qed.

Lemma deserializeMessage_accepts_exactly_witness :
  let payload := js "{'event':'chat','data':7,'id':'m1'}" in
  let m := mkMessage "chat" (Some (JArr [JNum 7])) (Some (JStr "m1")) None in
  deserializeMessage payload = Ok m
  /\ isValidEventName (event m) = true
  /\ (exists l, data m = Some (JArr l))
  /\ (exists cause,
        Wrapped "Failed to deserialize message: " SyntaxError
        = Wrapped "Failed to deserialize message: " cause).
Proof.
  intros payload m.
  assert (deserializeMessage payload = Ok m) as H by (vm_compute; reflexivity).
  assert (deserializeMessage "{" = Throw (Wrapped "Failed to deserialize message: " SyntaxError))
    as H' by (vm_compute; reflexivity).
  destruct (deserializeMessage_accepts_exactly payload) as (_ & P2 & _).
  destruct (deserializeMessage_accepts_exactly "{") as (_ & _ & P3).
  destruct (P2 m H) as [Q1 Q2].
  split; [exact H|]. split; [exact Q1|]. split; [exact Q2 | exact (P3 _ H')].
Defined.




End CodecFacts.

(** ** From [emit] to the handlers of the peer *)

Module WireFacts.
Import JSON JSONSpec JSONFacts CodecFacts.

Lemma envelope_serializable (event0 : string) (args : list value) (i t : option value) :
  forallb well_formed args = true ->
  (forall v, i = Some v -> well_formed v = true) ->
  (forall v, t = Some v -> well_formed v = true) ->
  serializable (mkMessage event0 (Some (JArr args)) i t) = true.
Proof.
  intros Ha Hi Ht. unfold serializable, toObject. cbn [event data id timestamp member].
  destruct i as [i|]; destruct t as [t|];
    cbn [member Datatypes.app map fst well_formed forallb snd];
    rewrite Ha; rewrite ?(Hi _ eq_refl), ?(Ht _ eq_refl); reflexivity.
Qed.

(** An envelope as the senders build it decodes to itself. *)
Lemma sent_envelope_decodes (event0 : string) (args : list value) (i t : option value) :
  isValidEventName event0 = true ->
  forallb well_formed args = true ->
  (forall v, i = Some v -> well_formed v = true) ->
  (forall v, t = Some v -> well_formed v = true) ->
  (Z.of_nat (String.length (serializeMessage (mkMessage event0 (Some (JArr args)) i t)))
   <= MAX_MESSAGE_LENGTH)%Z ->
  deserializeMessage (serializeMessage (mkMessage event0 (Some (JArr args)) i t))
  = Ok (mkMessage event0 (Some (JArr args)) i t).
Proof.
  intros Hv Ha Hi Ht Hlen.
  rewrite deserialize_serialize;
    [reflexivity | exact Hv | apply envelope_serializable; assumption | exact Hlen].
Qed.

Section ServerSide.
Import Server ServerSpec RegistrySpec ServerFacts RegistryFacts.

(** X19.  [emit] of a connection whose channel takes frames and holds less
    than 64 KiB: the channel is handed one frame, nothing else changes and
    nothing is notified; and the frame is one that [deserializeMessage]
    decodes to the event, the arguments, the id and the time of the call,
    when the arguments are values of JS and the frame is within 1 MiB. *)
Theorem Connection_emit_frame_decodes
  (w : World) (a : nat) (c : Connection) (event0 : string) (args : list value) :
  nth_error (heap w) a = Some c ->
  failing (ws c) = false ->
  (bufferedAmount (ws c) <? 64 * 1024)%Z = true ->
  isValidEventName event0 = true ->
  forallb well_formed args = true ->
  let m := mkMessage event0 (Some (JArr args)) (Some (JStr (ids w (fresh w))))
                     (Some (JNum (clock w))) in
  (Z.of_nat (String.length (serializeMessage m)) <= MAX_MESSAGE_LENGTH)%Z ->
  let (w', r) := Connection_emit a event0 args w in
  r = Ok true
  /\ log w' = log w
  /\ server w' = server w
  /\ (forall a',
        nth_error (heap w') a'
        = option_map (fun c' => if Nat.eqb a' a then with_frame (serializeMessage m) c'
                                else c')
                     (nth_error (heap w) a'))
  /\ deserializeMessage (serializeMessage m) = Ok m.
Proof.
  intros Hc Hf Hu Hv Ha m Hlen.
  unfold Connection_emit. rewrite Hv. cbn [negb].
  unfold bind at 1. unfold generateId at 1.
  unfold bind at 1. unfold Date_now, gets at 1. cbn [clock].
  unfold bind at 1. unfold Connection_send, try_catch.
  unfold bind at 1. unfold ws_getBufferedAmount. cbn [heap]. rewrite Hc, Hu.
  unfold ws_send, Channel_send. cbn [heap]. rewrite Hc, Hf.
  split; [reflexivity|]. split; [reflexivity|]. split; [reflexivity|]. split.
  - intros a'. cbn [heap set_heap]. rewrite nth_error_update_nth_at.
    destruct (nth_error (heap w) a') as [c'|] eqn:Hc'; [|reflexivity].
    cbn [option_map]. destruct (Nat.eqb_spec a' a) as [E|_]; [|reflexivity].
    subst a'. rewrite Hc in Hc'. injection Hc' as <-.
    unfold with_frame. rewrite Hf. reflexivity.
  - apply sent_envelope_decodes; try assumption.
    + intros v [= <-]. reflexivity.
    + intros v [= <-]. reflexivity.
Qed.

Lemma Connection_emit_frame_decodes_witness :
  let w := server_with_one_connection None 0 in
  let c := mkConnection "a" (mkChannel 0 [] false false) [] [] [] in
  let m := mkMessage "news" (Some (JArr [JNum 1; JStr "x"])) (Some (JStr "b"))
                     (Some (JNum 1700)) in
  (nth_error (heap w) 0 = Some c
   /\ failing (ws c) = false
   /\ (bufferedAmount (ws c) <? 64 * 1024)%Z = true
   /\ isValidEventName "news" = true
   /\ forallb well_formed [JNum 1; JStr "x"] = true
   /\ (Z.of_nat (String.length (serializeMessage m)) <= MAX_MESSAGE_LENGTH)%Z)
  /\ let (w', r) := Connection_emit 0 "news" [JNum 1; JStr "x"] w in
     r = Ok true
     /\ log w' = log w
     /\ server w' = server w
     /\ (forall a',
           nth_error (heap w') a'
           = option_map (fun c' => if Nat.eqb a' 0 then with_frame (serializeMessage m) c'
                                   else c')
                        (nth_error (heap w) a'))
     /\ deserializeMessage (serializeMessage m) = Ok m.
Proof.
  intros w c m.
  assert (nth_error (heap w) 0 = Some c) as H1 by reflexivity.
  assert (failing (ws c) = false) as H2 by reflexivity.
  assert ((bufferedAmount (ws c) <? 64 * 1024)%Z = true) as H3 by reflexivity.
  assert (isValidEventName "news" = true) as H4 by reflexivity.
  assert (forallb well_formed [JNum 1; JStr "x"] = true) as H5 by reflexivity.
  assert (Z.of_nat (String.length (serializeMessage m)) <= MAX_MESSAGE_LENGTH)%Z as H6
    by (vm_compute; discriminate).
  split; [repeat split; assumption|].
  exact (Connection_emit_frame_decodes w 0 c "news" [JNum 1; JStr "x"] H1 H2 H3 H4 H5 H6).
Defined.

End ServerSide.

Section ClientSide.
Import Client ClientSpec ClientFacts.

(** [emit] of an application event on a connected client whose socket is
    open, in one piece. *)
Lemma emit_connected_run (w : World) (k : nat) (s : WebSocket) (event0 : string)
  (args : list value) :
  state (client w) = CONNECTED ->
  ws (client w) = Some k ->
  nth_error (sockets w) k = Some s ->
  readyState s = WS_OPEN ->
  isValidEventName event0 = true ->
  emit event0 (map AValue args) w
  = (mkWorld (client w)
             (update_nth k
                (fun s => with_sent s
                   [serializeMessage
                      (mkMessage event0 (Some (JArr args))
                                 (Some (JStr (ids w (fresh w))))
                                 (Some (JNum (clock w))))])
                (sockets w))
             (timers w) (nextTimer w) (log w) (urlValid w)
             (clock w) (ids w) (S (fresh w)),
     Ok true).
Proof.
  intros Hst Hws Hs Hopen Hvalid. unfold emit.
  rewrite (valid_event_is_not_passed_through _ Hvalid), Hvalid. cbn [negb].
  unfold generateId, Date_now. run_monad. cbn [clock ids fresh client].
  rewrite values_of_AValue. cbn [client]. rewrite Hst, Hws.
  cbn [ConnectionState_eqb]. unfold WebSocket_send. cbn [sockets]. rewrite Hs, Hopen.
  reflexivity.
Qed.

(** X20.  [emit] of an application event on a connected client whose socket
    is open hands the encoded envelope to the socket at once: the queue and
    the rest of the client are untouched, nothing is notified, and the socket
    has been sent exactly one more frame. *)
Theorem emit_while_connected_sends_at_once
  (w : World) (k : nat) (s : WebSocket) (event0 : string) (args : list value) :
  state (client w) = CONNECTED ->
  ws (client w) = Some k ->
  nth_error (sockets w) k = Some s ->
  readyState s = WS_OPEN ->
  isValidEventName event0 = true ->
  let frame := serializeMessage
                 (mkMessage event0 (Some (JArr args)) (Some (JStr (ids w (fresh w))))
                            (Some (JNum (clock w)))) in
  let (w', r) := emit event0 (map AValue args) w in
  r = Ok true
  /\ client w' = client w
  /\ log w' = log w
  /\ timers w' = timers w
  /\ nth_error (sockets w') k = Some (with_sent s [frame])
  /\ (forall j, j <> k -> nth_error (sockets w') j = nth_error (sockets w) j).
Proof.
  intros Hst Hws Hs Hopen Hvalid frame.
  rewrite (emit_connected_run w k s event0 args Hst Hws Hs Hopen Hvalid).
  split; [reflexivity|]. split; [reflexivity|]. split; [reflexivity|].
  split; [reflexivity|]. cbn [sockets]. split.
  - apply (nth_error_update_nth (fun s => with_sent s [frame])). exact Hs.
  - intros j Hj. apply nth_error_update_nth_other. exact Hj.
Qed.

Lemma emit_while_connected_sends_at_once_witness :
  let w := history [Happens (TransportOpen 0)]
                   (fst (new_NanoSocketClient (mkClientOptions None None None None None)
                                              true 1700 (fun _ => "id"))) in
  let s := mkWebSocket WS_OPEN [] true [] 0 Resolved false in
  (state (client w) = CONNECTED
   /\ ws (client w) = Some 0%nat
   /\ nth_error (sockets w) 0 = Some s
   /\ readyState s = WS_OPEN
   /\ isValidEventName "chat" = true)
  /\ let (w', r) := emit "chat" (map AValue [JStr "hi"]) w in
     r = Ok true
     /\ client w' = client w
     /\ log w' = log w
     /\ timers w' = timers w
     /\ nth_error (sockets w') 0
        = Some (with_sent s [js "{'event':'chat','data':['hi'],'id':'id','timestamp':1700}"])
     /\ (forall j, j <> 0%nat -> nth_error (sockets w') j = nth_error (sockets w) j).
Proof.
  intros w s.
  assert (state (client w) = CONNECTED) as H1 by reflexivity.
  assert (ws (client w) = Some 0%nat) as H2 by reflexivity.
  assert (nth_error (sockets w) 0 = Some s) as H3 by reflexivity.
  assert (readyState s = WS_OPEN) as H4 by reflexivity.
  assert (isValidEventName "chat" = true) as H5 by reflexivity.
  split; [repeat split; assumption|].
  exact (emit_while_connected_sends_at_once w 0 s "chat" [JStr "hi"] H1 H2 H3 H4 H5).
Defined.

End ClientSide.

Section EndToEnd.
Import Server RegistrySpec Inbound InboundSpec InboundFacts.

Lemma valid_event_not_error (event0 : string) :
  isValidEventName event0 = true -> String.eqb event0 "error" = false.
Proof.
  intros H. destruct (String.eqb_spec event0 "error") as [->|_]; [discriminate H | reflexivity].
Qed.

(** X21.  From the client's [emit] to the server's handlers: the frame that
    a connected client sends for an application event, handed to the
    server's [handleMessage] on the channel of a registered connection, is
    decoded and dispatched to the listeners and the handlers that the
    connection holds for that event, each called with exactly the arguments
    the client emitted, when these are values of JS and the frame is within
    1 MiB. *)
Theorem emitted_frame_reaches_the_handlers
  (cw : Client.World) (k : nat) (s : Client.WebSocket)
  (event0 : string) (args : list value)
  (beh : Behaviour) (sw : World) (socketId : string) (a : nat) (c : Connection)
  (cs : list (nat * list arg)) :
  Client.state (Client.client cw) = Client.CONNECTED ->
  Client.ws (Client.client cw) = Some k ->
  nth_error (Client.sockets cw) k = Some s ->
  Client.readyState s = Client.WS_OPEN ->
  isValidEventName event0 = true ->
  forallb well_formed args = true ->
  let frame := serializeMessage
                 (mkMessage event0 (Some (JArr args))
                            (Some (JStr (Client.ids cw (Client.fresh cw))))
                            (Some (JNum (Client.clock cw)))) in
  (Z.of_nat (String.length frame) <= MAX_MESSAGE_LENGTH)%Z ->
  registered sw socketId = Some a ->
  nth_error (heap sw) a = Some c ->
  quiet beh ->
  (let (cw', r) := Client.emit event0 (map AValue args) cw in
   r = Ok true
   /\ option_map Client.sent (nth_error (Client.sockets cw') k)
      = Some (Client.sent s ++ [frame])%list)
  /\ handleMessage beh socketId frame (mkState sw cs)
     = (mkState (add_log (ConnectionEmit a event0 (map AValue args)) sw)
                (cs ++ called_with (map AValue args)
                         (listeners_for (conn_listeners c) event0
                          ++ handlers_for c event0))%list,
        Ok tt).
Proof.
  intros Hst Hws Hs Hopen Hvalid Hwf frame Hlen Hreg Hc Hq. split.
  - rewrite (emit_connected_run cw k s event0 args Hst Hws Hs Hopen Hvalid).
    split; [reflexivity|]. cbn [Client.sockets].
    rewrite (ClientFacts.nth_error_update_nth _ k _ s Hs). reflexivity.
  - unfold handleMessage.
    assert ((String.length frame =? 0)%nat = false) as Hne.
    { reflexivity. }
    rewrite Hne.
    assert (deserializeMessage frame
            = Ok (mkMessage event0 (Some (JArr args))
                            (Some (JStr (Client.ids cw (Client.fresh cw))))
                            (Some (JNum (Client.clock cw))))) as Hd.
    { apply sent_envelope_decodes; try assumption.
      - intros v [= <-]. reflexivity.
      - intros v [= <-]. reflexivity. }
    rewrite Hd. unfold try_catch at 1. unfold bind at 1. unfold lift at 1.
    unfold getConnectionByWs, gets. cbn [world calls].
    fold (registered sw socketId). rewrite Hreg.
    rewrite (Connection_handleMessage_quiet beh a c _ (map AValue args) sw cs Hc).
    + reflexivity.
    + reflexivity.
    + apply valid_event_not_error. exact Hvalid.
    + intros h _. apply Hq.
    + intros h _. apply Hq.
Qed.

Lemma emitted_frame_reaches_the_handlers_witness :
  let cw := ClientSpec.history [ClientSpec.Happens (Client.TransportOpen 0)]
              (fst (Client.new_NanoSocketClient
                      (Client.mkClientOptions None None None None None)
                      true 1700 (fun _ => "id"))) in
  let s := Client.mkWebSocket Client.WS_OPEN [] true [] 0 Client.Resolved false in
  let sw := ServerSpec.run [ServerSpec.Accept (mkChannel 0 [] false false);
                            ServerSpec.On 0 "chat" 4]
              (init None 1700 ServerSpec.letters) in
  let c := mkConnection "a" (mkChannel 0 [] false false) []
             [("chat", [4%nat])] [("chat", 4%nat)] in
  let frame := js "{'event':'chat','data':['hi'],'id':'id','timestamp':1700}" in
  (Client.state (Client.client cw) = Client.CONNECTED
   /\ Client.ws (Client.client cw) = Some 0%nat
   /\ nth_error (Client.sockets cw) 0 = Some s
   /\ Client.readyState s = Client.WS_OPEN
   /\ isValidEventName "chat" = true
   /\ forallb well_formed [JStr "hi"] = true
   /\ (Z.of_nat (String.length frame) <= MAX_MESSAGE_LENGTH)%Z
   /\ registered sw "a" = Some 0%nat
   /\ nth_error (heap sw) 0 = Some c
   /\ quiet (fun _ _ => None))
  /\ (let (cw', r) := Client.emit "chat" (map AValue [JStr "hi"]) cw in
      r = Ok true
      /\ option_map Client.sent (nth_error (Client.sockets cw') 0)
         = Some ([] ++ [frame])%list)
  /\ handleMessage (fun _ _ => None) "a" frame (mkState sw [])
     = (mkState (add_log (ConnectionEmit 0 "chat" [AValue (JStr "hi")]) sw)
                [(4%nat, [AValue (JStr "hi")]); (4%nat, [AValue (JStr "hi")])],
        Ok tt).
Proof.
  intros cw s sw c frame.
  assert (Client.state (Client.client cw) = Client.CONNECTED) as H1 by reflexivity.
  assert (Client.ws (Client.client cw) = Some 0%nat) as H2 by reflexivity.
  assert (nth_error (Client.sockets cw) 0 = Some s) as H3 by reflexivity.
  assert (Client.readyState s = Client.WS_OPEN) as H4 by reflexivity.
  assert (isValidEventName "chat" = true) as H5 by reflexivity.
  assert (forallb well_formed [JStr "hi"] = true) as H6 by reflexivity.
  assert (Z.of_nat (String.length
            (serializeMessage
               (mkMessage "chat" (Some (JArr [JStr "hi"]))
                          (Some (JStr (Client.ids cw (Client.fresh cw))))
                          (Some (JNum (Client.clock cw))))))
          <= MAX_MESSAGE_LENGTH)%Z as H7 by (vm_compute; discriminate).
  assert (registered sw "a" = Some 0%nat) as H8 by reflexivity.
  assert (nth_error (heap sw) 0 = Some c) as H9 by reflexivity.
  assert (quiet (fun _ _ => None)) as H10 by (intros h args; reflexivity).
  split; [repeat split; try assumption; vm_compute; discriminate|].
  exact (emitted_frame_reaches_the_handlers
           cw 0 s "chat" [JStr "hi"] (fun _ _ => None) sw "a" 0 c []
           H1 H2 H3 H4 H5 H6 H7 H8 H9 H10).
Defined.

End EndToEnd.

End WireFacts.

(** ** Reconnection of the client *)

Module ReconnectFacts.
Import Client ClientSpec ReconnectSpec MonadFacts ClientFacts.

Ltac run_monad :=
  unfold bind, gets, modify, ret, throw, try_catch, modify_client, update_socket.

(** *** Every call goes through a few mutations of the client

    A property that reads only the client object and the pending timers, and
    that the mutations below keep, holds after every call and every
    stimulus. *)

Section ClientRule.
Variable I : World -> Prop.
Hypothesis I_reads : forall w w',
  client w' = client w -> timers w' = timers w -> I w -> I w'.
Hypothesis I_state : forall w x,
  x <> RECONNECTING -> I w -> I (set_client (set_state x (client w)) w).
Hypothesis I_ws : forall w x, I w -> I (set_client (set_ws x (client w)) w).
Hypothesis I_queue : forall w q, I w -> I (set_client (set_messageQueue q (client w)) w).
Hypothesis I_reset : forall w, I w -> I (set_client (set_reconnectAttempts 0 (client w)) w).
Hypothesis I_clearTimeout : forall t, preserves I (clearTimeout t).
Hypothesis I_connectTimeout : forall ms, preserves I (setTimeout ConnectTimeout ms).
Hypothesis I_attempt : forall w,
  I w ->
  reconnection (options (client w)) = true ->
  (reconnectAttempts (client w) < reconnectionAttempts (options (client w)))%Z ->
  I (fst (attemptReconnection w)).
Hypothesis I_disconnect : preserves I disconnect.

Lemma reads_preserves {A} (m : St A) :
  (forall w, client (fst (m w)) = client w /\ timers (fst (m w)) = timers w) ->
  preserves I m.
Proof. intros H w Hw. destruct (H w) as [H1 H2]. apply (I_reads w); assumption. Qed.

Lemma client_rule_update_socket k f : preserves I (update_socket k f).
Proof. apply reads_preserves. intros w. split; reflexivity. Qed.

Lemma client_rule_WebSocket_send k data0 : preserves I (WebSocket_send k data0).
Proof.
  apply reads_preserves. intros w. unfold WebSocket_send.
  destruct (nth_error (sockets w) k) as [s|]; [|split; reflexivity].
  destruct (readyState s); split; reflexivity.
Qed.

Lemma client_rule_super_emit event0 args : preserves I (super_emit event0 args).
Proof. apply reads_preserves. intros w. split; reflexivity. Qed.

Lemma client_rule_generateId : preserves I generateId.
Proof. apply reads_preserves. intros w. split; reflexivity. Qed.

Lemma client_rule_set_state x : x <> RECONNECTING -> preserves I (modify_client (set_state x)).
Proof. intros Hx w Hw. apply I_state; assumption. Qed.

Lemma client_rule_set_ws x : preserves I (modify_client (set_ws x)).
Proof. intros w Hw. apply I_ws. exact Hw. Qed.

Lemma client_rule_set_messageQueue (f : NanoSocketClient -> list string) :
  preserves I (modify_client (fun c => set_messageQueue (f c) c)).
Proof. intros w Hw. apply (I_queue w (f (client w))). exact Hw. Qed.

#[local] Hint Resolve preserves_ret preserves_throw preserves_gets preserves_bind
  preserves_try_catch client_rule_update_socket client_rule_WebSocket_send client_rule_super_emit
  client_rule_generateId client_rule_set_ws I_clearTimeout I_connectTimeout : core.
#[local] Hint Extern 1 (preserves _ (WebSocket_close _ _)) => apply client_rule_update_socket : core.
#[local] Hint Extern 1 (preserves _ (resolve _)) => apply client_rule_update_socket : core.
#[local] Hint Extern 1 (preserves _ Date_now) => apply preserves_gets : core.
#[local] Hint Extern 1 (preserves _ (modify_client (set_state _))) =>
  apply client_rule_set_state; discriminate : core.
#[local] Hint Extern 1 (preserves _ (modify_client (set_messageQueue ?q))) =>
  apply (client_rule_set_messageQueue (fun _ => q)) : core.
#[local] Hint Extern 2 (preserves _ (if ?b then _ else _)) => destruct b : core.
#[local] Hint Extern 2 (preserves _ (match ?x with Some _ => _ | None => _ end)) =>
  destruct x : core.

Lemma client_rule_emit event0 args : preserves I (emit event0 args).
Proof.
  unfold emit.
  destruct (String.eqb event0 "connect" || String.eqb event0 "disconnect"
            || String.eqb event0 "error" || String.eqb event0 "connecting"
            || String.eqb event0 "reconnecting"); [auto|].
  destruct (isValidEventName event0); cbn [negb]; [|auto].
  apply preserves_bind; [auto|]. intros gid.
  apply preserves_bind; [auto|]. intros now.
  destruct (values_of args) as [vs|]; [|auto].
  apply preserves_bind; [auto|]. intros c.
  apply preserves_bind; [|auto].
  destruct (ConnectionState_eqb (state c) CONNECTED); [destruct (ws c)|];
    auto; apply (client_rule_set_messageQueue (fun c => messageQueue c ++ _)%list).
Qed.

Lemma client_rule_flushMessageQueue_loop n : preserves I (flushMessageQueue_loop n).
Proof.
  induction n as [|n IH]; [apply preserves_ret|].
  cbn [flushMessageQueue_loop]. apply preserves_bind; [auto|]. intros c.
  destruct (messageQueue c) as [|m rest]; [auto|].
  destruct (ws c) as [k|]; [|auto].
  destruct (ConnectionState_eqb (state c) CONNECTED); [|auto].
  apply preserves_bind; [auto|]. intros _.
  apply preserves_bind; [auto|]. intros _. exact IH.
Qed.

Lemma client_rule_flushMessageQueue : preserves I flushMessageQueue.
Proof.
  unfold flushMessageQueue. apply preserves_bind; [auto|].
  intros n. apply client_rule_flushMessageQueue_loop.
Qed.

#[local] Hint Resolve client_rule_emit client_rule_flushMessageQueue : core.

Lemma client_rule_reconnect_catch : preserves I reconnect_catch.
Proof. unfold reconnect_catch. auto 10. Qed.

#[local] Hint Resolve client_rule_reconnect_catch : core.

Lemma client_rule_reject k error : preserves I (reject k error).
Proof.
  unfold reject. apply preserves_bind; [auto|].
  intros [s|]; [|auto].
  destruct (promise s); auto 10.
Qed.

#[local] Hint Resolve client_rule_reject : core.

Lemma client_rule_connect : preserves I connect.
Proof.
  unfold connect. apply preserves_bind; [auto|]. intros c.
  destruct (ConnectionState_eqb (state c) CONNECTED
            || ConnectionState_eqb (state c) CONNECTING); [auto|].
  apply preserves_bind; [auto|]. intros _.
  apply preserves_bind; [auto|]. intros _.
  intros w H.
  match goal with
  | |- I (fst (match ?m w with _ => _ end)) => assert (preserves I m) as Hm
  end.
  { apply preserves_try_catch; [|intros e; auto 10].
    destruct (urlValid w); [|auto].
    apply preserves_bind; [auto|]. intros k.
    apply preserves_bind; [auto|]. intros t.
    apply preserves_bind;
      [apply reads_preserves; intros w1; split; reflexivity|]. intros _.
    auto 10. }
  specialize (Hm w H).
  match goal with
  | |- context [match ?x with _ => _ end] => destruct x as [w' [p|e]]
  end; exact Hm.
Qed.

#[local] Hint Resolve client_rule_connect : core.

Lemma client_rule_handleDisconnection code reason :
  preserves I (handleDisconnection code reason).
Proof.
  unfold handleDisconnection.
  apply preserves_bind; [auto|]. intros _.
  apply preserves_bind; [auto|]. intros c.
  apply preserves_bind; [destruct (ws c); auto 10|]. intros _.
  apply preserves_bind; [auto|]. intros _.
  intros w Hw. unfold bind at 1. unfold gets at 1.
  destruct (reconnection (options (client w))) eqn:Hr; cbn [andb].
  - destruct (reconnectAttempts (client w) <? reconnectionAttempts (options (client w)))%Z
      eqn:Hlt; cbn [andb].
    + destruct (negb (code =? 1000)%Z).
      * apply I_attempt; [exact Hw | exact Hr | apply Z.ltb_lt; exact Hlt].
      * destruct (reconnectAttempts (client w)
                  >=? reconnectionAttempts (options (client w)))%Z;
          [|exact Hw].
        revert w Hw Hr Hlt. 
        assert (preserves I (emit "reconnect_failed" [];; ret tt)%monad) as Hp by auto.
        intros w Hw _ _. apply Hp. exact Hw.
    + destruct (reconnectAttempts (client w)
                >=? reconnectionAttempts (options (client w)))%Z;
        [|exact Hw].
      assert (preserves I (emit "reconnect_failed" [];; ret tt)%monad) as Hp by auto.
      apply Hp. exact Hw.
  - destruct (reconnectAttempts (client w)
              >=? reconnectionAttempts (options (client w)))%Z;
      [|exact Hw].
    assert (preserves I (emit "reconnect_failed" [];; ret tt)%monad) as Hp by auto.
    apply Hp. exact Hw.
Qed.

#[local] Hint Resolve client_rule_handleDisconnection I_disconnect : core.

Lemma client_rule_deliver (e : Stimulus) : preserves I (deliver e).
Proof.
  destruct e as [k|k code reason|k error|t]; unfold deliver.
  - apply preserves_bind; [auto|].
    intros [[[] snt h cc tmr pr orj]|]; auto.
    apply preserves_bind; [auto|]. intros _.
    destruct h; [|auto].
    unfold onopen. apply preserves_bind; [auto|].
    intros [s'|]; [|auto].
    apply preserves_bind; [auto|]. intros _.
    apply preserves_bind; [auto|]. intros _.
    apply preserves_bind; [intros w Hw; apply I_reset; exact Hw|]. intros _.
    auto 10.
  - apply preserves_bind; [auto|].
    intros [[[] snt h cc tmr pr orj]|]; auto;
      (apply preserves_bind; [auto|]; intros _;
       cbn [handlers]; destruct h; [|auto];
       unfold onclose; apply preserves_bind; [auto|];
       intros [s'|]; auto 12).
  - apply preserves_bind; [auto|]. intros [s|]; [|auto].
    destruct (handlers s); [|auto].
    unfold onerror. apply preserves_bind; [auto|].
    intros [s'|]; auto 12.
  - apply preserves_bind; [auto|]. intros [x|]; [|auto].
    apply preserves_bind; [auto|]. intros _.
    destruct (kind x).
    + apply preserves_bind; [auto|]. intros [k|]; [|auto].
      unfold ontimeout. apply preserves_bind; [auto|]. intros c.
      destruct (ws c) as [cur|]; [|auto].
      apply preserves_bind; [auto|].
      intros [[[] ? ? ? ? ? ?]|]; auto 12.
    + unfold onreconnect. apply preserves_bind; [auto|].
      intros [|k|e]; auto.
Qed.

Lemma client_rule_perform (c : Call) : preserves I (perform c).
Proof. destruct c; simpl; auto using client_rule_deliver. Qed.

Lemma client_rule_history (cs : list Call) (w : World) : I w -> I (history cs w).
Proof.
  revert w. induction cs as [|c cs IH]; intros w H; simpl; [exact H|].
  apply IH. apply client_rule_perform. exact H.
Qed.

Lemma client_rule_new (o : ClientOptions) (url_ok : bool) (now : Z) (gen : nat -> string) :
  I (mkWorld (mkClient None (kept_options o) DISCONNECTED None 0 [] [])
             [] [] 0 [] url_ok now gen 0) ->
  I (fst (new_NanoSocketClient o url_ok now gen)).
Proof.
  intros H. unfold new_NanoSocketClient. fold (kept_options o).
  cbv zeta. destruct (autoConnect (kept_options o)); [|exact H].
  apply (preserves_bind I connect (fun _ => ret tt));
    [apply client_rule_connect | intros; apply preserves_ret | exact H].
Qed.

End ClientRule.

(** *** The attempt counter and the backoff *)

Lemma attemptReconnection_run (w : World) :
  attemptReconnection w
  = (mkWorld
       (set_reconnectTimer (Some (nextTimer w))
          (set_reconnectAttempts (reconnectAttempts (client w) + 1)
             (set_state RECONNECTING (client w))))
       (sockets w)
       (timers w ++ [mkTimer (nextTimer w)
                             (reconnectionDelay (options (client w))
                              * (reconnectAttempts (client w) + 1))
                             ReconnectTimer])%list
       (S (nextTimer w))
       (log w ++ [("reconnecting", [AValue (JNum (reconnectAttempts (client w) + 1))])])%list
       (urlValid w) (clock w) (ids w) (fresh w),
     Ok tt).
Proof. reflexivity. Qed.

Lemma reconnect_bounded_history (limit unit : Z) (cs : list Call) (w : World) :
  reconnect_bounded limit unit w -> reconnect_bounded limit unit (history cs w).
Proof.
  apply client_rule_history.
  - intros w0 w' Hc Ht H. unfold reconnect_bounded in *. rewrite Hc, Ht. exact H.
  - intros w0 x _ H. exact H.
  - intros w0 x H. exact H.
  - intros w0 q H. exact H.
  - intros w0 (H1 & H2 & H3 & H4). unfold reconnect_bounded. cbn.
    repeat split; try assumption; lia.
  - intros t w0 (H1 & H2 & H3 & H4). unfold reconnect_bounded. cbn.
    repeat split; try assumption; try lia. apply ServerFacts.Forall_filter. exact H4.
  - intros ms w0 (H1 & H2 & H3 & H4). unfold reconnect_bounded. cbn.
    repeat split; try assumption; try lia.
    apply Forall_app. split; [exact H4|]. constructor; [|constructor].
    intros Hk. discriminate Hk.
  - intros w0 (H1 & H2 & H3 & H4) Hr Hlt. rewrite attemptReconnection_run.
    unfold reconnect_bounded. cbn. repeat split; try assumption; try lia.
    apply Forall_app. split; [exact H4|]. constructor; [|constructor].
    intros _. exists (reconnectAttempts (client w0) + 1)%Z. cbn.
    rewrite H2. split; [lia | reflexivity].
  - intros [[wsk opts st rt ra q ls] ss ts nt lg uv ck gn fr] (H1 & H2 & H3 & H4).
    unfold reconnect_bounded, disconnect in *. cbn in H1, H2, H3, H4.
    destruct rt as [t|]; destruct wsk as [k|];
      cbn; repeat split; try assumption; try lia;
      apply ServerFacts.Forall_filter; exact H4.
Qed.

(** X22.  In every state a client reaches from its construction, through
    any calls of [connect], [disconnect] and [emit] and anything the
    transport and the timers do: the attempt counter is between 0 and
    [reconnectionAttempts], and every pending backoff timer waits
    [reconnectionDelay] times the number of an attempt between 1 and
    [reconnectionAttempts]: the backoff is linear and never longer than the
    delay times the limit. *)
Theorem reconnect_attempts_are_bounded_and_backoff_is_linear
  (o : ClientOptions) (url_ok : bool) (now : Z) (gen : nat -> string) (cs : list Call) :
  let w := history cs (fst (new_NanoSocketClient o url_ok now gen)) in
  let limit := or_default (opt_reconnectionAttempts o) 5 in
  let unit := or_default (opt_reconnectionDelay o) 1000 in
  reconnectionAttempts (options (client w)) = limit
  /\ reconnectionDelay (options (client w)) = unit
  /\ (0 <= reconnectAttempts (client w) <= Z.max 0 limit)%Z
  /\ forall t, In t (timers w) -> kind t = ReconnectTimer ->
               exists k, (1 <= k <= limit)%Z /\ delay t = (unit * k)%Z.
Proof.
  intros w limit unit.
  assert (reconnect_bounded limit unit w) as (H1 & H2 & H3 & H4).
  { apply reconnect_bounded_history.
    apply (client_rule_new (reconnect_bounded limit unit)).
    - intros w0 w' Hc Ht H. unfold reconnect_bounded in *. rewrite Hc, Ht. exact H.
    - intros w0 x _ H. exact H.
    - intros w0 x H. exact H.
    - intros w0 q H. exact H.
    - intros ms w0 (H1 & H2 & H3 & H4). unfold reconnect_bounded. cbn.
      repeat split; try assumption; try lia.
      apply Forall_app. split; [exact H4|]. constructor; [|constructor].
      intros Hk. discriminate Hk.
    - unfold reconnect_bounded. cbn. repeat split; try lia. constructor. }
  repeat split; try assumption; try lia.
  intros t Hin. rewrite Forall_forall in H4. apply H4. exact Hin.
Qed.

Lemma reconnect_attempts_are_bounded_and_backoff_is_linear_witness :
  let o := mkClientOptions None None (Some 3%Z) (Some 200%Z) None in
  let cs := [Happens (TransportClose 0 1006 EmptyString);
             Happens (TimerFires 1);
             Happens (TransportClose 1 1006 EmptyString)] in
  let w := history cs (fst (new_NanoSocketClient o true 0 (fun _ => "id"))) in
  let t := mkTimer 3 400 ReconnectTimer in
  In t (timers w)
  /\ kind t = ReconnectTimer
  /\ reconnectAttempts (client w) = 2%Z
  /\ exists k, (1 <= k <= 3)%Z /\ delay t = (200 * k)%Z.
Proof.
  intros o cs w t.
  assert (In t (timers w)) as H1 by (vm_compute; left; reflexivity).
  assert (kind t = ReconnectTimer) as H2 by reflexivity.
  assert (reconnectAttempts (client w) = 2%Z) as H3 by (vm_compute; reflexivity).
  destruct (reconnect_attempts_are_bounded_and_backoff_is_linear
              o true 0 (fun _ => "id") cs) as (_ & _ & _ & P).
  split; [exact H1|]. split; [exact H2|]. split; [exact H3 | exact (P t H1 H2)].
Defined.

(** *** Reconnection switched off *)

Lemma reconnection_off_history (pending : list Timer) (cs : list Call) (w : World) :
  reconnection_off pending w -> reconnection_off pending (history cs w).
Proof.
  apply client_rule_history.
  - intros w0 w' Hc Ht H. unfold reconnection_off in *. rewrite Hc, Ht. exact H.
  - intros w0 x Hx (H1 & H2 & H3). unfold reconnection_off. cbn.
    repeat split; assumption.
  - intros w0 x H. exact H.
  - intros w0 q H. exact H.
  - intros w0 H. exact H.
  - intros t w0 (H1 & H2 & H3). unfold reconnection_off. cbn.
    repeat split; try assumption. apply ServerFacts.Forall_filter. exact H3.
  - intros ms w0 (H1 & H2 & H3). unfold reconnection_off. cbn.
    repeat split; try assumption.
    apply Forall_app. split; [exact H3|]. constructor; [|constructor].
    intros Hk. discriminate Hk.
  - intros w0 (H1 & H2 & H3) Hr. congruence.
  - intros [[wsk opts st rt ra q ls] ss ts nt lg uv ck gn fr] (H1 & H2 & H3).
    unfold reconnection_off, disconnect in *. cbn in H1, H2, H3.
    destruct rt as [t|]; destruct wsk as [k|];
      cbn; repeat split; try discriminate; try assumption;
      apply ServerFacts.Forall_filter; exact H3.
Qed.

Lemma Forall_In_self {A} (P : A -> Prop) (l : list A) : Forall (fun x => P x -> In x l) l.
Proof. apply Forall_forall. intros x Hin _. exact Hin. Qed.

Lemma disconnect_switches_off (w : World) :
  reconnection_off (timers w) (fst (disconnect w)).
Proof.
  destruct w as [[wsk opts st rt ra q ls] ss ts nt lg uv ck gn fr].
  unfold reconnection_off, disconnect.
  destruct rt as [t|]; destruct wsk as [k|];
    cbn; repeat split; try discriminate;
    try (apply ServerFacts.Forall_filter); apply Forall_In_self.
Qed.

(** X23.  After [disconnect()], whatever is called and whatever the
    transport and the timers do afterwards, reconnection stays switched off,
    the client is never in the reconnecting state again and no new backoff
    timer is started: a backoff timer that is pending then was pending before
    the call.  The same holds from the construction of a client with
    [reconnection: false], which never has a backoff timer at all. *)
Theorem disconnect_switches_reconnection_off_for_good
  (w : World) (cs : list Call)
  (o : ClientOptions) (url_ok : bool) (now : Z) (gen : nat -> string) :
  (let w' := history cs (fst (disconnect w)) in
   reconnection (options (client w')) = false
   /\ state (client w') <> RECONNECTING
   /\ forall t, In t (timers w') -> kind t = ReconnectTimer -> In t (timers w))
  /\ (opt_reconnection o = Some false ->
      let w' := history cs (fst (new_NanoSocketClient o url_ok now gen)) in
      reconnection (options (client w')) = false
      /\ state (client w') <> RECONNECTING
      /\ forall t, In t (timers w') -> kind t <> ReconnectTimer).
Proof.
  split.
  - intros w'.
    assert (reconnection_off (timers w) w') as (H1 & H2 & H3)
      by (apply reconnection_off_history, disconnect_switches_off).
    repeat split; try assumption.
    intros t Hin. rewrite Forall_forall in H3. apply H3. exact Hin.
  - intros Ho w'.
    assert (reconnection_off [] w') as (H1 & H2 & H3).
    { apply reconnection_off_history.
      apply (client_rule_new (reconnection_off [])).
      - intros w0 w1 Hc Ht H. unfold reconnection_off in *. rewrite Hc, Ht. exact H.
      - intros w0 x Hx (H1 & H2 & H3). unfold reconnection_off. cbn.
        repeat split; assumption.
      - intros w0 x H. exact H.
      - intros w0 q H. exact H.
      - intros ms w0 (H1 & H2 & H3). unfold reconnection_off. cbn.
        repeat split; try assumption.
        apply Forall_app. split; [exact H3|]. constructor; [|constructor].
        intros Hk. discriminate Hk.
      - unfold reconnection_off, kept_options. cbn. rewrite Ho.
        repeat split; [discriminate | constructor]. }
    repeat split; try assumption.
    intros t Hin Hk. rewrite Forall_forall in H3. exact (H3 t Hin Hk).
Qed.

Lemma disconnect_switches_reconnection_off_for_good_witness :
  let o := mkClientOptions None (Some false) None None None in
  let cs := [Happens (TransportClose 0 1006 EmptyString); CallConnect;
             Happens (TransportOpen 1); Happens (TransportClose 1 1006 EmptyString)] in
  let w' := history cs (fst (new_NanoSocketClient o true 0 (fun _ => "id"))) in
  opt_reconnection o = Some false
  /\ reconnection (options (client w')) = false
  /\ state (client w') <> RECONNECTING
  /\ (forall t, In t (timers w') -> kind t <> ReconnectTimer).
Proof.
  intros o cs w'.
  assert (opt_reconnection o = Some false) as H by reflexivity.
  split; [exact H|].
  exact (proj2 (disconnect_switches_reconnection_off_for_good
                  (fst (new_NanoSocketClient o true 0 (fun _ => "id"))) cs
                  o true 0 (fun _ => "id")) H).
Defined.

(** A backoff timer that [disconnect()] does not know is not cancelled: when
    [connect()] was called by hand while a backoff was pending and that
    connection was lost too, the first backoff timer is still pending after
    [disconnect()], and when it fires the client connects again. *)
Example stale_backoff_timer_connects_after_disconnect :
  let w0 := fst (new_NanoSocketClient (mkClientOptions None None None None None)
                                      true 0 (fun _ => "id")) in
  let w1 := history [Happens (TransportClose 0 1006 EmptyString);
                     CallConnect;
                     Happens (TransportClose 1 1006 EmptyString);
                     CallDisconnect] w0 in
  let w2 := history [Happens (TimerFires 1)] w1 in
  state (client w1) = DISCONNECTED
  /\ timers w1 = [mkTimer 1 1000 ReconnectTimer]
  /\ state (client w2) = CONNECTING
  /\ ws (client w2) = Some 2%nat.
Proof. vm_compute. repeat split; reflexivity. Qed.

(** *** The first close, the timeout and the error of a connection attempt *)

Lemma new_client_connecting (o : ClientOptions) (now : Z) (gen : nat -> string) :
  not_false (opt_autoConnect o) = true ->
  new_NanoSocketClient o true now gen
  = (mkWorld (mkClient (Some 0%nat) (kept_options o) CONNECTING None 0 [] [])
             [mkWebSocket WS_CONNECTING [] true [] 0 Unsettled false]
             [mkTimer 0 (or_default (opt_timeout o) 20000) ConnectTimeout]
             1 [("connecting", [])] true now gen 0,
     Ok tt).
Proof.
  intros H. unfold new_NanoSocketClient. cbn [autoConnect]. rewrite H.
  unfold kept_options. rewrite H. reflexivity.
Qed.

(** X24.  The first close of the connection a client made at construction:
    the client notifies ['disconnect'] with the reason (or
    [Connection closed] when the reason is empty); then, when reconnection is
    on, the limit is positive and the code is not 1000, it becomes
    reconnecting, counts attempt 1, notifies ['reconnecting'] with 1 and
    starts one backoff timer of one delay unit; with the normal code 1000 or
    with reconnection off it stays disconnected with no timer; and with a
    limit that is not positive, the report of [reconnect_failed] throws. *)
Theorem first_close_starts_the_backoff
  (o : ClientOptions) (now : Z) (gen : nat -> string) (code : Z) (reason : string) :
  not_false (opt_autoConnect o) = true ->
  let w0 := fst (new_NanoSocketClient o true now gen) in
  let limit := or_default (opt_reconnectionAttempts o) 5 in
  let unit := or_default (opt_reconnectionDelay o) 1000 in
  let told := ("disconnect",
               [AValue (JStr (if String.eqb reason EmptyString then "Connection closed"
                              else reason))]) in
  let (w, r) := deliver (TransportClose 0 code reason) w0 in
  ws (client w) = None
  /\ messageQueue (client w) = []
  /\ if not_false (opt_reconnection o) && (0 <? limit)%Z && negb (code =? 1000)%Z
     then r = Ok tt
          /\ state (client w) = RECONNECTING
          /\ reconnectAttempts (client w) = 1%Z
          /\ timers w = [mkTimer 1 (unit * 1) ReconnectTimer]
          /\ log w = [("connecting", []); told; ("reconnecting", [AValue (JNum 1)])]
     else state (client w) = DISCONNECTED
          /\ reconnectAttempts (client w) = 0%Z
          /\ timers w = []
          /\ log w = [("connecting", []); told]
          /\ r = if (0 >=? limit)%Z
                 then Throw (Error "Invalid event name: reconnect_failed")
                 else Ok tt.
Proof.
  intros Hauto w0 limit unit told.
  unfold w0. rewrite (new_client_connecting o now gen Hauto). cbn [fst].
  unfold deliver. run_monad. cbn [sockets nth_error readyState handlers].
  unfold onclose. run_monad. unfold modify. cbn.
  fold limit. fold unit.
  destruct (not_false (opt_reconnection o)); cbn [andb].
  - destruct (0 <? limit)%Z eqn:Hlt; cbn [andb].
    + destruct (negb (code =? 1000)%Z); cbn.
      * repeat split; reflexivity.
      * replace (0 >=? limit)%Z with false by (symmetry; rewrite Z.geb_leb; apply Z.leb_gt, Z.ltb_lt, Hlt).
        cbn. repeat split; reflexivity.
    + destruct (0 >=? limit)%Z; cbn; repeat split; reflexivity.
  - destruct (0 >=? limit)%Z; cbn; repeat split; reflexivity.
Qed.

Lemma first_close_starts_the_backoff_witness :
  let o := mkClientOptions None None (Some 0%Z) (Some 250%Z) None in
  not_false (opt_autoConnect o) = true
  /\ let (w, r) := deliver (TransportClose 0 1006 EmptyString)
                           (fst (new_NanoSocketClient o true 0 (fun _ => "id"))) in
     r = Ok tt
     /\ state (client w) = RECONNECTING
     /\ reconnectionAttempts (options (client w)) = 5%Z
     /\ timers w = [mkTimer 1 250 ReconnectTimer].
Proof.
  intros o.
  assert (not_false (opt_autoConnect o) = true) as H by reflexivity.
  split; [exact H|].
  pose proof (first_close_starts_the_backoff o 0 (fun _ => "id") 1006 EmptyString H) as P.
  cbv zeta in P.
  destruct (deliver (TransportClose 0 1006 EmptyString)
                    (fst (new_NanoSocketClient o true 0 (fun _ => "id")))) as [w r] eqn:E.
  destruct P as (_ & _ & P). cbn in P. destruct P as (P1 & P2 & P3 & P4 & P5).
  repeat split; try assumption.
  injection E as <- _. reflexivity.
Defined.






(** X27.  [connect()] with a URL that the transport's constructor rejects:
    ['connecting'] and then ['error'] are notified, the client is
    disconnected again, no socket and no timer is created, and the promise is
    rejected with the error of the constructor, whether somebody listens to
    ['error'] or the notification throws inside the executor. *)
Theorem connect_with_a_rejected_url (w : World) :
  state (client w) <> CONNECTED ->
  state (client w) <> CONNECTING ->
  urlValid w = false ->
  connect w
  = (mkWorld (set_state DISCONNECTED (client w)) (sockets w) (timers w) (nextTimer w)
             (log w ++ [("connecting", []); ("error", [AError SyntaxError])])%list
             false (clock w) (ids w) (fresh w),
     Ok (RejectedAtOnce SyntaxError)).
Proof.
  intros H1 H2 Hurl. unfold connect. unfold bind at 1. unfold gets at 1.
  replace (ConnectionState_eqb (state (client w)) CONNECTED
           || ConnectionState_eqb (state (client w)) CONNECTING) with false
    by (destruct (state (client w)) eqn:E; cbn; congruence).
  destruct w as [c ss ts nt lg uv ck gn fr]. cbn in Hurl. subst uv.
  unfold bind, modify_client, modify, emit, super_emit, EventEmitter_emit, try_catch,
    throw, ret.
  cbn [String.eqb Ascii.eqb Bool.eqb orb andb urlValid].
  unfold add_log, set_client, set_state.
  cbn [client sockets timers nextTimer log clock ids fresh urlValid listeners state ws
       options reconnectTimer reconnectAttempts messageQueue].
  rewrite <- List.app_assoc. cbn [Datatypes.app].
  destruct (listenerCount (listeners c) "error" =? 0)%nat; reflexivity.
Qed.

Lemma connect_with_a_rejected_url_witness :
  let w := fst (new_NanoSocketClient (mkClientOptions (Some false) None None None None)
                                     false 0 (fun _ => "id")) in
  (state (client w) <> CONNECTED
   /\ state (client w) <> CONNECTING
   /\ urlValid w = false)
  /\ connect w
     = (mkWorld (set_state DISCONNECTED (client w)) [] [] 0
                [("connecting", []); ("error", [AError SyntaxError])]
                false 0 (fun _ => "id") 0,
        Ok (RejectedAtOnce SyntaxError)).
Proof.
  intros w.
  assert (state (client w) <> CONNECTED) as H1 by discriminate.
  assert (state (client w) <> CONNECTING) as H2 by discriminate.
  assert (urlValid w = false) as H3 by reflexivity.
  split; [repeat split; assumption|].
  exact (connect_with_a_rejected_url w H1 H2 H3).
Defined.

End ReconnectFacts.

(** ** The CORS headers *)

Module CorsFacts.
Import Cors CorsSpec.

(** X28.  Whatever CORS options the server is constructed with, a response
    carries exactly one [Access-Control-Allow-Origin] header, written first:
    the given string, the given list joined with commas, and [*] when the
    origin is absent, empty, [true] or [false]; so [origin: false] does not
    switch the header off.  [Access-Control-Allow-Credentials: true] follows
    exactly when [credentials] is [true], also next to the origin [*], and
    the methods and headers lines always end the list. *)
Theorem cors_headers_always_allow_an_origin (cors : option CorsOptions) :
  setCorsHeaders (new_cors cors)
  = (("Access-Control-Allow-Origin", allowed_origin cors)
     :: (if with_credentials cors then [("Access-Control-Allow-Credentials", "true")] else [])
     ++ [("Access-Control-Allow-Methods", "GET, POST, OPTIONS");
         ("Access-Control-Allow-Headers", "Content-Type")])%list
  /\ List.length (filter (fun h => String.eqb (fst h) "Access-Control-Allow-Origin")
                         (setCorsHeaders (new_cors cors))) = 1%nat
  /\ (forall c, cors = Some (mkCorsOptions (Some (OriginBool false)) c) ->
                allowed_origin cors = "*").
Proof.
  assert (setCorsHeaders (new_cors cors)
          = (("Access-Control-Allow-Origin", allowed_origin cors)
             :: (if with_credentials cors
                 then [("Access-Control-Allow-Credentials", "true")] else [])
             ++ [("Access-Control-Allow-Methods", "GET, POST, OPTIONS");
                 ("Access-Control-Allow-Headers", "Content-Type")])%list) as H.
  { destruct cors as [[[[s|l|[]]|] [[]|]]|]; try reflexivity;
      unfold setCorsHeaders, new_cors, allowed_origin, with_credentials, Origin_truthy;
      cbn [origin credentials];
      destruct (String.eqb s EmptyString); reflexivity. }
  split; [exact H|]. split.
  - rewrite H. destruct (with_credentials cors); reflexivity.
  - intros c ->. reflexivity.
Qed.

Lemma cors_headers_always_allow_an_origin_witness :
  let cors := Some (mkCorsOptions (Some (OriginBool false)) (Some true)) in
  cors = Some (mkCorsOptions (Some (OriginBool false)) (Some true))
  /\ allowed_origin cors = "*"
  /\ setCorsHeaders (new_cors cors)
     = [("Access-Control-Allow-Origin", "*");
        ("Access-Control-Allow-Credentials", "true");
        ("Access-Control-Allow-Methods", "GET, POST, OPTIONS");
        ("Access-Control-Allow-Headers", "Content-Type")].
Proof.
  intros cors.
  assert (cors = Some (mkCorsOptions (Some (OriginBool false)) (Some true))) as H
    by reflexivity.
  destruct (cors_headers_always_allow_an_origin cors) as (P1 & _ & P3).
  split; [exact H|]. split; [exact (P3 (Some true) H) | exact P1].
Defined.

End CorsFacts.

(** ** Inbound messages on the client *)

Module ClientInboundFacts.
Import Client ClientInbound InboundSpec.

Lemma client_call_all (beh : Inbound.Behaviour) (args : list arg) (hs : list nat) :
  forall s,
    (forall h, In h hs -> beh h args = None) ->
    for_of hs (fun h => call beh h args) s
    = (mkState (world s) (eventHandlers s) (calls s ++ called_with args hs)%list, Ok tt).
Proof.
  induction hs as [|h hs IH]; intros s Hq.
  - cbn [for_of called_with map]. unfold ret. rewrite List.app_nil_r.
    destruct s; reflexivity.
  - cbn [for_of]. unfold bind at 1. unfold call at 1.
    rewrite (Hq h (or_introl eq_refl)). rewrite IH by (intros h' Hin; apply Hq; now right).
    cbn [world calls eventHandlers called_with map]. rewrite <- List.app_assoc. reflexivity.
Qed.

Lemma client_call_all_guarded (beh : Inbound.Behaviour) (args : list arg) (hs : list nat) :
  forall s,
    (forall h, In h hs -> beh h args = None) ->
    for_of hs (fun handler =>
      try_catch (call beh handler args) (fun error => emit_error beh error)) s
    = (mkState (world s) (eventHandlers s) (calls s ++ called_with args hs)%list, Ok tt).
Proof.
  induction hs as [|h hs IH]; intros s Hq.
  - cbn [for_of called_with map]. unfold ret. rewrite List.app_nil_r.
    destruct s; reflexivity.
  - cbn [for_of]. unfold bind at 1. unfold try_catch at 1. unfold call at 1.
    rewrite (Hq h (or_introl eq_refl)). rewrite IH by (intros h' Hin; apply Hq; now right).
    cbn [world calls eventHandlers called_with map]. rewrite <- List.app_assoc. reflexivity.
Qed.

(** [super.emit] with listeners that return. *)
Lemma super_emit_run_quiet (beh : Inbound.Behaviour) (event0 : string) (args : list arg)
  (w : World) (table : JSMap.t (list nat)) (cs : list (nat * list arg)) :
  (forall h, In h (Inbound.listeners_for (listeners (client w)) event0) ->
             beh h args = None) ->
  super_emit_run beh event0 args (mkState w table cs)
  = match EventEmitter_emit (listeners (client w)) event0 args with
    | Ok fired =>
        (mkState (add_log (event0, args) w) table
                 (cs ++ called_with args
                          (Inbound.listeners_for (listeners (client w)) event0))%list,
         Ok fired)
    | Throw e => (mkState (add_log (event0, args) w) table cs, Throw e)
    end.
Proof.
  intros Hq. unfold super_emit_run.
  unfold bind at 1. unfold lift at 1. unfold gets at 1. cbn [world eventHandlers calls].
  unfold bind at 1. unfold lift at 1. unfold super_emit at 1. cbn [world eventHandlers calls].
  destruct (EventEmitter_emit (listeners (client w)) event0 args) as [fired|e];
    [|reflexivity].
  unfold bind at 1. rewrite (client_call_all beh args _ _ Hq). reflexivity.
Qed.

(** X29.  An inbound payload that [deserializeMessage] rejects, on the
    client: the decoding error is notified as an ['error'] of the client and
    the ['error'] listeners are called with it; no other handler is called.
    When nobody listens to ['error'], the error is thrown out of
    [handleMessage] into the transport's callback. *)
Theorem client_handleMessage_rejected_payload
  (beh : Inbound.Behaviour) (w : World) (table : JSMap.t (list nat))
  (cs : list (nat * list arg)) (payload : string) (e : exn) :
  deserializeMessage payload = Throw e ->
  (forall h, In h (Inbound.listeners_for (listeners (client w)) "error") ->
             beh h [AError e] = None) ->
  handleMessage beh payload (mkState w table cs)
  = (mkState (add_log ("error", [AError e]) w) table
             (cs ++ called_with [AError e]
                      (Inbound.listeners_for (listeners (client w)) "error"))%list,
     match Inbound.listeners_for (listeners (client w)) "error" with
     | [] => Throw e
     | _ :: _ => Ok tt
     end).
Proof.
  intros Hd Hq. unfold handleMessage. rewrite Hd.
  unfold try_catch at 1. unfold throw at 1. unfold emit_error.
  unfold bind at 1. rewrite (super_emit_run_quiet beh "error" [AError e] w table cs Hq).
  unfold EventEmitter_emit. cbn [String.eqb Ascii.eqb Bool.eqb andb].
  rewrite InboundFacts.listenerCount_listeners_for.
  destruct (Inbound.listeners_for (listeners (client w)) "error") as [|h0 hs].
  - cbn [List.length Nat.eqb called_with map]. rewrite List.app_nil_r. reflexivity.
  - reflexivity.
Qed.

Lemma client_handleMessage_rejected_payload_witness :
  let w := fst (new_NanoSocketClient (mkClientOptions None None None None None)
                                     true 0 (fun _ => "id")) in
  let e := Wrapped "Failed to deserialize message: " SyntaxError in
  (deserializeMessage "not json" = Throw e
   /\ (forall h, In h (Inbound.listeners_for (listeners (client w)) "error") ->
                 (fun _ _ => None) h [AError e] = @None exn))
  /\ handleMessage (fun _ _ => None) "not json" (mkState w [] [])
     = (mkState (add_log ("error", [AError e]) w) [] [], Throw e).
Proof.
  intros w e.
  assert (deserializeMessage "not json" = Throw e) as H1 by (vm_compute; reflexivity).
  assert (forall h, In h (Inbound.listeners_for (listeners (client w)) "error") ->
                    (fun (_ : nat) (_ : list arg) => @None exn) h [AError e] = None) as H2
    by (intros h _; reflexivity).
  split; [split; assumption|].
  exact (client_handleMessage_rejected_payload (fun _ _ => None) w [] [] "not json" e H1 H2).
Defined.

(** X30.  On the client too, a handler registered with [on] is run twice
    for each inbound message of its event: once as a listener of the emitter
    and once from the client's own table.  For a payload that decodes to the
    event, with handlers that all return, the calls are the listeners of the
    event followed by the handlers of the table, each with the decoded data,
    and the handler just registered is the last of both. *)
Theorem client_handler_registered_with_on_runs_twice
  (beh : Inbound.Behaviour) (w : World) (table : JSMap.t (list nat))
  (cs : list (nat * list arg)) (event0 : string) (h : nat)
  (payload : string) (m : Message) (l : list value) :
  quiet beh ->
  deserializeMessage payload = Ok m ->
  event m = event0 ->
  data m = Some (JArr l) ->
  let s1 := fst (on event0 h (mkState w table cs)) in
  handleMessage beh payload s1
  = (mkState (add_log (event0, map AValue l) (world s1)) (eventHandlers s1)
             (cs ++ called_with (map AValue l)
                      ((Inbound.listeners_for (listeners (client w)) event0 ++ [h])
                       ++ (match JSMap.get table event0 with
                           | Some hs => hs
                           | None => []
                           end ++ [h])))%list,
     Ok tt).
Proof.
  intros Hq Hd Hev Hdata s1.
  assert (isValidEventName event0 = true) as Hvalid.
  { apply deserializeMessage_Ok in Hd.
    destruct Hd as (o & name & _ & _ & Hv & _ & ->). cbn in Hev. now subst. }
  unfold handleMessage. rewrite Hd. unfold Inbound.spread. rewrite Hdata, Hev.
  unfold try_catch at 1. unfold bind at 1.
  unfold s1, on. cbn [fst world eventHandlers calls].
  rewrite super_emit_run_quiet by (intros h' _; apply Hq).
  cbn [client set_client listeners set_listeners].
  rewrite (InboundFacts.EventEmitter_emit_plain _ _ _
             (WireFacts.valid_event_not_error _ Hvalid)).
  unfold bind at 1. cbn [eventHandlers].
  rewrite RegistryFacts.JSMap_get_set, String.eqb_refl.
  rewrite client_call_all_guarded by (intros h' _; apply Hq).
  cbn [world eventHandlers calls].
  rewrite InboundFacts.listeners_for_app.
  unfold Inbound.listeners_for at 2. cbn [filter fst].
  rewrite String.eqb_refl. cbn [map snd].
  unfold called_with. rewrite !map_app, <- !List.app_assoc. reflexivity.
Qed.

Lemma client_handler_registered_with_on_runs_twice_witness :
  let w := fst (new_NanoSocketClient (mkClientOptions None None None None None)
                                     true 0 (fun _ => "id")) in
  let payload := js "{'event':'news','data':[1]}" in
  let m := mkMessage "news" (Some (JArr [JNum 1])) None None in
  let s1 := fst (on "news" 3 (mkState w [] [])) in
  (quiet (fun _ _ => None)
   /\ deserializeMessage payload = Ok m
   /\ event m = "news"
   /\ data m = Some (JArr [JNum 1]))
  /\ handleMessage (fun _ _ => None) payload s1
     = (mkState (add_log ("news", [AValue (JNum 1)]) (world s1)) [("news", [3%nat])]
                [(3%nat, [AValue (JNum 1)]); (3%nat, [AValue (JNum 1)])],
        Ok tt).
Proof.
  intros w payload m s1.
  assert (quiet (fun _ _ => None)) as H1 by (intros h args; reflexivity).
  assert (deserializeMessage payload = Ok m) as H2 by (vm_compute; reflexivity).
  assert (event m = "news") as H3 by reflexivity.
  assert (data m = Some (JArr [JNum 1])) as H4 by reflexivity.
  split; [repeat split; assumption|].
  exact (client_handler_registered_with_on_runs_twice
           (fun _ _ => None) w [] [] "news" 3 payload m [JNum 1] H1 H2 H3 H4).
Defined.

End ClientInboundFacts.

